(** * Caption editor: timeline editing engine, history, wrapping and export

    A shallow embedding of the editing core of the caption editor
    ([src/components/VideoEditor.tsx] and the [Timeline] component) and the
    properties stated about it.

    Conventions of the embedding:
    - a JavaScript [number] holding a time, a pixel offset or a zoom level is
      a rational [Q] with exact arithmetic (comparisons are [Qlt]/[Qle],
      [===] on numbers is [Qeq_bool]); where the code takes [Math.floor] of
      a product or a quotient of doubles, the rounding of that result is
      written out ([fl64]); elsewhere the last-bit rounding of IEEE doubles
      is outside the model;
    - an array is a [list]; [arr[i]] is stdpp's lookup [arr !! i]
      ([undefined] is [None]), [arr.slice(0, n)] is [take n arr];
    - React state is threaded explicitly: a handler is a function from the
      component state before the event to the state after it. *)

From Stdlib Require Import QArith Qminmax Qround Qabs Lqa ZArith Lia.
From Stdlib Require Import String Ascii DecimalString DecimalNat.
From stdpp Require Import base list.
From Stdlib Require Import Sorted.

Local Open Scope Q_scope.

(** ** Data model ([types.ts]) *)

Inductive HorizontalAlign := left | center | right.
Inductive CaptionEffect := none | shadow | outline.
Inductive FontWeight := normal | bold.

Record Caption := mkCaption {
  start : Q;
  end_ : Q;
  text : string
}.

Record Position := mkPosition { x : Q; y : Q }.

Record StyleOptions := mkStyleOptions {
  foregroundColor : string;
  foregroundColorOpacity : Q;
  backgroundColor : string;
  backgroundOpacity : Q;
  fontSize : Q;
  maxWidth : Q;
  padding : Q;
  borderRadius : Q;
  position : Position;
  horizontalAlign : HorizontalAlign;
  fontFamily : string;
  fontWeight : FontWeight;
  effect : CaptionEffect;
  shadowColor : string;
  shadowBlur : Q;
  shadowOffsetX : Q;
  shadowOffsetY : Q;
  strokeColor : string;
  strokeWidth : Q
}.

Definition DEFAULT_STYLES : StyleOptions :=
  {| foregroundColor := "#FFFFFF";
     foregroundColorOpacity := 1;
     backgroundColor := "#000000";
     backgroundOpacity := 6 # 10;
     fontSize := 5;
     maxWidth := 80;
     padding := 20;
     borderRadius := 8;
     position := {| x := 50; y := 90 |};
     horizontalAlign := center;
     fontFamily := "Arial, sans-serif";
     fontWeight := bold;
     effect := shadow;
     shadowColor := "#000000";
     shadowBlur := 5;
     shadowOffsetX := 2;
     shadowOffsetY := 2;
     strokeColor := "#000000";
     strokeWidth := 2 |}.

(** [type EditorState = { captions: Caption[], styles: StyleOptions }] *)
Record EditorState := mkEditorState {
  captions : list Caption;
  styles : StyleOptions
}.

(** The two pieces of React state that make up the undo history:
    [const [history, setHistory]] and [const [historyIndex, setHistoryIndex]]. *)
Record Editor := mkEditor {
  history : list EditorState;
  historyIndex : nat
}.

(** ** History manager *)

Module History.

(** [const currentState = history[historyIndex]] *)
Definition currentState (ed : Editor) : option EditorState :=
  history ed !! historyIndex ed.

(** [const canUndo = historyIndex > 0] *)
Definition canUndo (ed : Editor) : bool := (0 <? historyIndex ed)%nat.

(** [const canRedo = historyIndex < history.length - 1] *)
Definition canRedo (ed : Editor) : bool :=
  (Z.of_nat (historyIndex ed) <? Z.of_nat (length (history ed)) - 1)%Z.

(** [updateState(updater, mergeWithLast)]: the [setHistory] callback followed
    by the conditional [setHistoryIndex]. When [history[historyIndex]] is
    missing the history is returned as it is, and the index is still
    advanced for a non-merged call, as in the source. *)
Definition updateState (updater : EditorState -> EditorState)
    (mergeWithLast : bool) (ed : Editor) : Editor :=
  let newHistory :=
    match history ed !! historyIndex ed with
    | None => history ed
    | Some stateToUpdate =>
        let newHistoryIndex :=
          if mergeWithLast then historyIndex ed else (historyIndex ed + 1)%nat in
        let newState := updater stateToUpdate in
        let historySlice := take newHistoryIndex (history ed) in
        historySlice ++ [newState]
    end in
  {| history := newHistory;
     historyIndex :=
       if mergeWithLast then historyIndex ed else (historyIndex ed + 1)%nat |}.

(** [undo = () => canUndo && setHistoryIndex(historyIndex - 1)] *)
Definition undo (ed : Editor) : Editor :=
  if canUndo ed
  then {| history := history ed; historyIndex := (historyIndex ed - 1)%nat |}
  else ed.

(** [redo = () => canRedo && setHistoryIndex(historyIndex + 1)] *)
Definition redo (ed : Editor) : Editor :=
  if canRedo ed
  then {| history := history ed; historyIndex := (historyIndex ed + 1)%nat |}
  else ed.

(** The initial component state: [useState([{captions, styles}])], index 0. *)
Definition initial (s0 : EditorState) : Editor :=
  {| history := [s0]; historyIndex := 0 |}.

(** States the component can be in: the initial one, closed under the three
    history operations. *)
Inductive reachable (s0 : EditorState) : Editor -> Prop :=
| reach_initial : reachable s0 (initial s0)
| reach_update updater merge ed :
    reachable s0 ed -> reachable s0 (updateState updater merge ed)
| reach_undo ed : reachable s0 ed -> reachable s0 (undo ed)
| reach_redo ed : reachable s0 ed -> reachable s0 (redo ed).

(** The data-model invariant [0 <= cursor < snapshots.length]. *)
Definition valid (ed : Editor) : Prop :=
  (historyIndex ed < length (history ed))%nat.

(** A gesture: any number of merged commits, closed by one non-merged one. *)
Definition gesture (merged : list (EditorState -> EditorState))
    (final : EditorState -> EditorState) (ed : Editor) : Editor :=
  updateState final false
    (fold_left (fun e updater => updateState updater true e) merged ed).

Lemma valid_lookup ed :
  valid ed -> exists s, history ed !! historyIndex ed = Some s.
Proof.
  intros Hv. destruct (lookup_lt_is_Some_2 (history ed) (historyIndex ed) Hv) as [s Hs].
  now exists s.
Qed.

Lemma updateState_merge_shape updater ed s :
  history ed !! historyIndex ed = Some s ->
  updateState updater true ed =
    {| history := take (historyIndex ed) (history ed) ++ [updater s];
       historyIndex := historyIndex ed |}.
Proof. intros Hs. unfold updateState. now rewrite Hs. Qed.

Lemma updateState_commit_shape updater ed s :
  history ed !! historyIndex ed = Some s ->
  updateState updater false ed =
    {| history := take (historyIndex ed + 1) (history ed) ++ [updater s];
       historyIndex := (historyIndex ed + 1)%nat |}.
Proof. intros Hs. unfold updateState. now rewrite Hs. Qed.

Lemma updateState_valid updater merge ed :
  valid ed -> valid (updateState updater merge ed).
Proof.
  intros Hv. destruct (valid_lookup ed Hv) as [s Hs].
  unfold valid in *. destruct merge.
  - rewrite (updateState_merge_shape _ _ _ Hs). simpl.
    rewrite length_app, length_take. simpl. lia.
  - rewrite (updateState_commit_shape _ _ _ Hs). simpl.
    rewrite length_app, length_take. simpl. lia.
Qed.

Lemma undo_valid ed : valid ed -> valid (undo ed).
Proof.
  unfold valid, undo, canUndo. intros Hv.
  destruct (0 <? historyIndex ed)%nat; simpl; lia.
Qed.

Lemma redo_valid ed : valid ed -> valid (redo ed).
Proof.
  unfold valid, redo, canRedo. intros Hv.
  destruct (Z.ltb_spec (Z.of_nat (historyIndex ed))
              (Z.of_nat (length (history ed)) - 1)); simpl; lia.
Qed.

Lemma reachable_valid s0 ed : reachable s0 ed -> valid ed.
Proof.
  induction 1.
  - unfold valid. simpl. lia.
  - now apply updateState_valid.
  - now apply undo_valid.
  - now apply redo_valid.
Qed.

(** Merged commits keep the cursor and leave exactly [cursor + 1] entries. *)
Lemma merged_run_shape merged : forall ed,
  valid ed ->
  let ed' := fold_left (fun e updater => updateState updater true e) merged ed in
  valid ed' /\ historyIndex ed' = historyIndex ed /\
  (merged <> [] -> length (history ed') = (historyIndex ed + 1)%nat).
Proof.
  induction merged as [|u us IH]; intros ed Hv; cbn [fold_left].
  - repeat split; auto. congruence.
  - pose proof (updateState_valid u true ed Hv) as Hv'.
    destruct (IH _ Hv') as (Hv2 & Hidx & Hlen).
    destruct (valid_lookup ed Hv) as [s Hs].
    assert (Hi : historyIndex (updateState u true ed) = historyIndex ed)
      by (unfold updateState; reflexivity).
    split; [exact Hv2|]. split; [now rewrite Hidx|].
    intros _. destruct us as [|u' us'].
    + cbn [fold_left]. rewrite (updateState_merge_shape _ _ _ Hs). simpl.
      rewrite length_app, length_take. unfold valid in Hv. simpl. lia.
    + rewrite Hlen by congruence. now rewrite Hi.
Qed.

(** A snapshot used to exercise the history on concrete inputs. *)
Definition blank : EditorState := {| captions := []; styles := DEFAULT_STYLES |}.

(** Three snapshots with the cursor moved back to the first one by two undos. *)
Definition rewound : Editor :=
  undo (undo (updateState id false (updateState id false (initial blank)))).

(** C2, the statement as written fails: with the cursor at index 0 of a
    three-entry history, one merged commit followed by the closing non-merged
    commit leaves two entries, not four. *)
Lemma gesture_length_counterexample :
  reachable blank rewound /\ valid rewound /\
  length (history rewound) = 3%nat /\
  length (history (gesture [id] id rewound)) = 2%nat /\
  length (history (gesture [id] id rewound)) <> (length (history rewound) + 1)%nat.
Proof.
  split; [|split].
  - unfold rewound. do 2 apply reach_undo. do 2 apply reach_update. apply reach_initial.
  - unfold valid. vm_compute. lia.
  - vm_compute. repeat split. lia.
Qed.

(** C2 (amended): from any history with a valid cursor, merged commits
    followed by one non-merged commit leave exactly [cursor + 2] snapshots
    with the cursor on the last one, whatever the number of merges; that is
    one more than before exactly when the cursor was on the last snapshot
    (entries after the cursor are dropped). A single merged commit replaces
    the entry at the cursor, keeps the entries before it and the cursor, and
    never grows the list. *)
Theorem gesture_length (ed : Editor) (merged : list (EditorState -> EditorState))
    (final updater : EditorState -> EditorState) (s : EditorState) :
  valid ed ->
  history ed !! historyIndex ed = Some s ->
  (length (history (gesture merged final ed)) = (historyIndex ed + 2)%nat /\
   historyIndex (gesture merged final ed) = (historyIndex ed + 1)%nat /\
   ((historyIndex ed + 1)%nat = length (history ed) ->
    length (history (gesture merged final ed)) = (length (history ed) + 1)%nat)) /\
  (historyIndex (updateState updater true ed) = historyIndex ed /\
   history (updateState updater true ed) !! historyIndex ed = Some (updater s) /\
   take (historyIndex ed) (history (updateState updater true ed)) =
     take (historyIndex ed) (history ed) /\
   length (history (updateState updater true ed)) = (historyIndex ed + 1)%nat /\
   (length (history (updateState updater true ed)) <= length (history ed))%nat).
Proof.
  intros Hv Hs. split.
  - unfold gesture.
    destruct (merged_run_shape merged ed Hv) as (Hv' & Hidx & _).
    set (ed' := fold_left _ merged ed) in *.
    destruct (valid_lookup ed' Hv') as [s' Hs'].
    rewrite (updateState_commit_shape _ _ _ Hs'). simpl.
    rewrite length_app, length_take. unfold valid in Hv'. simpl.
    rewrite Hidx in *. lia.
  - rewrite (updateState_merge_shape _ _ _ Hs). simpl. unfold valid in Hv.
    assert (Hlen : length (take (historyIndex ed) (history ed)) = historyIndex ed)
      by (rewrite length_take; lia).
    repeat split.
    + rewrite lookup_app_r by lia. rewrite Hlen, Nat.sub_diag. reflexivity.
    + rewrite take_app_le by lia. rewrite take_take. f_equal. lia.
    + rewrite length_app, Hlen. simpl. lia.
    + rewrite length_app, Hlen. simpl. lia.
Qed.

Lemma gesture_length_witness :
  length (history (gesture [id; id] id (initial blank))) = 2%nat.
Proof.
  destruct (gesture_length (initial blank) [id; id] id id blank) as [[H _] _].
  - unfold valid. simpl. lia.
  - reflexivity.
  - exact H.
Defined.

(** C3: in every reachable history state with [cursor > 0], [undo] moves the
    cursor one step back and [redo] after it restores the editor, hence the
    snapshot that was current; [undo] does nothing at cursor 0 and [redo]
    does nothing when the cursor is on the last index. *)
Theorem undo_redo_restores (s0 : EditorState) (ed : Editor) :
  reachable s0 ed ->
  ((0 < historyIndex ed)%nat ->
     historyIndex (undo ed) = (historyIndex ed - 1)%nat /\
     history (undo ed) = history ed /\
     redo (undo ed) = ed /\
     currentState (redo (undo ed)) = currentState ed) /\
  (historyIndex ed = 0%nat -> undo ed = ed) /\
  ((historyIndex ed + 1)%nat = length (history ed) -> redo ed = ed).
Proof.
  intros Hr. pose proof (reachable_valid _ _ Hr) as Hv. unfold valid in Hv.
  destruct ed as [h i]. simpl in *. repeat split.
  - unfold undo, canUndo. simpl. destruct (Nat.ltb_spec 0 i); [reflexivity | lia].
  - unfold undo, canUndo. simpl. destruct (Nat.ltb_spec 0 i); reflexivity.
  - unfold undo, canUndo. simpl. destruct (Nat.ltb_spec 0 i); [| lia].
    unfold redo, canRedo. simpl.
    destruct (Z.ltb_spec (Z.of_nat (i - 1)) (Z.of_nat (length h) - 1)); [| lia].
    f_equal. lia.
  - unfold undo, canUndo. simpl. destruct (Nat.ltb_spec 0 i); [| lia].
    unfold redo, canRedo, currentState. simpl.
    destruct (Z.ltb_spec (Z.of_nat (i - 1)) (Z.of_nat (length h) - 1)); [| lia].
    simpl. f_equal. lia.
  - intros ->. reflexivity.
  - intros Hlast. unfold redo, canRedo. simpl.
    destruct (Z.ltb_spec (Z.of_nat i) (Z.of_nat (length h) - 1)); [lia | reflexivity].
Qed.

Lemma undo_redo_restores_witness :
  let ed := updateState id false (initial blank) in
  historyIndex ed = 1%nat /\ historyIndex (undo ed) = 0%nat /\ redo (undo ed) = ed.
Proof.
  intros ed.
  assert (Hr : reachable blank ed) by (apply reach_update, reach_initial).
  destruct (undo_redo_restores blank ed Hr) as [H _].
  assert (Hpos : (0 < historyIndex ed)%nat) by (vm_compute; lia).
  destruct (H Hpos) as (Hu & _ & Hredo & _).
  split; [reflexivity|]. split; [exact Hu | exact Hredo].
Defined.

End History.

(** ** Numbers *)

(** [a < b] on numbers, as a boolean. *)
Definition Qlt_bool (a b : Q) : bool := negb (Qle_bool b a).

Lemma Qlt_bool_iff a b : Qlt_bool a b = true <-> a < b.
Proof.
  unfold Qlt_bool. rewrite negb_true_iff.
  destruct (Qle_bool b a) eqn:E.
  - apply Qle_bool_iff in E. split; [discriminate | intros H; lra].
  - split; [intros _ | reflexivity].
    destruct (Qlt_le_dec a b) as [H|H]; [exact H|].
    apply Qle_bool_iff in H. congruence.
Qed.

Lemma Qle_bool_false a b : Qle_bool a b = false <-> b < a.
Proof.
  rewrite <- Qlt_bool_iff. unfold Qlt_bool.
  destruct (Qle_bool a b); simpl; split; congruence.
Qed.

Lemma Qlt_bool_false a b : Qlt_bool a b = false -> b <= a.
Proof.
  intros H. destruct (Qlt_le_dec a b) as [Hlt|Hle]; [|exact Hle].
  apply Qlt_bool_iff in Hlt. congruence.
Qed.

(** *** Rounding to a double

    The result of one arithmetic operation on doubles is the exact result
    rounded to the nearest binary64 number, ties to the even mantissa.
    [fl64] is that rounding on the rationals (53-bit mantissa, subnormal
    numbers down to [2^-1074]; the overflow to [Infinity] at [2^1024] is
    outside it). It is written out wherever the code turns a rounded result
    into an integer with [Math.floor]. *)

(** The scaled operand [n / d / 2^e] as a fraction of integers. *)
Definition scaled (n : Z) (d : positive) (e : Z) : Z * Z :=
  if (0 <=? e)%Z then (n, Zpos d * 2 ^ e)%Z else (n * 2 ^ (- e), Zpos d)%Z.

(** The exponent of the last mantissa bit of [n / d], for [n > 0]. *)
Definition exponentOf (n : Z) (d : positive) : Z :=
  let e0 := (Z.log2 n - Z.log2 (Zpos d) - 52)%Z in
  let e1 :=
    if (fst (scaled n d e0) / snd (scaled n d e0) <? 2 ^ 52)%Z then (e0 - 1)%Z else e0 in
  Z.max e1 (-1074).

(** The mantissa of [n / d] at exponent [e], rounded to nearest, ties to
    even. *)
Definition mantissaOf (n : Z) (d : positive) (e : Z) : Z :=
  let a := fst (scaled n d e) in
  let b := snd (scaled n d e) in
  let m := (a / b)%Z in
  let r := (a mod b)%Z in
  if (b <? 2 * r)%Z || ((b =? 2 * r)%Z && Z.odd m) then (m + 1)%Z else m.

Definition fl64_mag (n : Z) (d : positive) : Q :=
  let e := exponentOf n d in
  let m := mantissaOf n d e in
  if (0 <=? e)%Z then inject_Z (m * 2 ^ e) else Qmake m (Z.to_pos (2 ^ (- e))).

Definition fl64 (q : Q) : Q :=
  match Qnum q with
  | Z0 => 0
  | Zpos n => fl64_mag (Zpos n) (Qden q)
  | Zneg n => - fl64_mag (Zpos n) (Qden q)
  end.

Example fl64_tenth : fl64 (1 # 10) == 3602879701896397 # 36028797018963968.
Proof. vm_compute. reflexivity. Qed.

Example fl64_integer : fl64 61 == 61.
Proof. vm_compute. reflexivity. Qed.

Lemma scaled_pos n d e :
  (0 < n)%Z -> (0 < fst (scaled n d e))%Z /\ (0 < snd (scaled n d e))%Z.
Proof.
  intros Hn. unfold scaled. destruct (Z.leb_spec 0 e); cbn [fst snd].
  - split; [exact Hn|]. apply Z.mul_pos_pos; [lia|]. now apply Z.pow_pos_nonneg.
  - split; [|lia]. apply Z.mul_pos_pos; [exact Hn|]. apply Z.pow_pos_nonneg; lia.
Qed.

Lemma mantissaOf_nonneg n d e : (0 < n)%Z -> (0 <= mantissaOf n d e)%Z.
Proof.
  intros Hn. destruct (scaled_pos n d e Hn) as [Ha Hb]. unfold mantissaOf.
  assert (Hm : (0 <= fst (scaled n d e) / snd (scaled n d e))%Z)
    by (apply Z.div_pos; lia).
  destruct (_ || _); lia.
Qed.

Lemma fl64_mag_nonneg n d : (0 < n)%Z -> 0 <= fl64_mag n d.
Proof.
  intros Hn. unfold fl64_mag.
  pose proof (mantissaOf_nonneg n d (exponentOf n d) Hn) as Hm.
  destruct (Z.leb_spec 0 (exponentOf n d)) as [He|He].
  - change 0 with (inject_Z 0). rewrite <- Zle_Qle.
    apply Z.mul_nonneg_nonneg; [exact Hm|]. apply Z.pow_nonneg. lia.
  - unfold Qle. cbn [Qnum Qden]. lia.
Qed.

(** Rounding keeps the sign: a result that is not negative is rounded to a
    number that is not negative. *)
Lemma fl64_nonneg q : 0 <= q -> 0 <= fl64 q.
Proof.
  intros Hq. unfold fl64. destruct q as [num den]. cbn [Qnum Qden].
  destruct num as [|n|n].
  - apply Qle_refl.
  - now apply fl64_mag_nonneg.
  - unfold Qle in Hq. cbn in Hq. lia.
Qed.

(** Below [2^53] the last mantissa bit is worth at most 1. *)
Lemma exponentOf_small n d :
  (0 < n)%Z -> (n < 2 ^ 53 * Zpos d)%Z -> (exponentOf n d <= 0)%Z.
Proof.
  intros Hn Hlt. unfold exponentOf.
  assert (Hd : (Zpos d < 2 ^ (Z.log2 (Zpos d) + 1))%Z).
  { pose proof (Z.log2_spec (Zpos d) ltac:(lia)) as [_ H]. now rewrite <- Z.add_1_r in H. }
  assert (Hld : (0 <= Z.log2 (Zpos d))%Z) by apply Z.log2_nonneg.
  assert (Hlog : (Z.log2 n < Z.log2 (Zpos d) + 54)%Z).
  { apply Z.log2_lt_pow2; [exact Hn|].
    replace (Z.log2 (Zpos d) + 54)%Z with (53 + (Z.log2 (Zpos d) + 1))%Z by lia.
    rewrite Z.pow_add_r by lia. nia. }
  set (e0 := (Z.log2 n - Z.log2 (Zpos d) - 52)%Z) in *.
  assert (He0 : (e0 <= 1)%Z) by (unfold e0; lia).
  destruct (Z.eq_dec e0 1%Z) as [E|E].
  - rewrite E. unfold scaled. change (0 <=? 1)%Z with true. cbv iota. cbn [fst snd].
    change (2 ^ 1)%Z with 2%Z.
    assert (H : (n / (Zpos d * 2) < 2 ^ 52)%Z).
    { apply Z.div_lt_upper_bound; [lia|]. change (2 ^ 53)%Z with (2 * 2 ^ 52)%Z in Hlt. lia. }
    apply Z.ltb_lt in H. rewrite H. lia.
  - destruct (_ <? _)%Z; lia.
Qed.

(** Rounding does not cross an integer: below [2^53] every integer is a
    double, so an exact result at or above an integer is rounded to a number
    at or above it, and likewise below. *)
Lemma fl64_mag_integers n d N :
  (0 < n)%Z -> (n < 2 ^ 53 * Zpos d)%Z ->
  ((N * Zpos d <= n)%Z -> inject_Z N <= fl64_mag n d) /\
  ((n <= N * Zpos d)%Z -> fl64_mag n d <= inject_Z N).
Proof.
  intros Hn Hlt. pose proof (exponentOf_small n d Hn Hlt) as He.
  unfold fl64_mag. set (e := exponentOf n d) in *. clearbody e.
  set (P := (2 ^ (- e))%Z).
  assert (HP : (0 < P)%Z) by (apply Z.pow_pos_nonneg; lia).
  assert (Hab : exists a b, scaled n d e = (a, b) /\ (0 < b)%Z /\
                            (a * Zpos d = n * P * b)%Z).
  { unfold scaled. destruct (Z.leb_spec 0 e) as [H0|H0].
    - assert (e = 0%Z) by lia. subst e. exists n, (Zpos d * 1)%Z.
      split; [reflexivity|]. split; [lia|]. unfold P. cbn. lia.
    - exists (n * P)%Z, (Zpos d). split; [reflexivity|]. split; lia. }
  destruct Hab as (a & b & Hs & Hb & Hrel).
  assert (Hm : forall m, mantissaOf n d e = m ->
            ((N * Zpos d <= n)%Z -> (N * P <= m)%Z) /\
            ((n <= N * Zpos d)%Z -> (m <= N * P)%Z)).
  { intros m <-. unfold mantissaOf. rewrite Hs. cbn [fst snd].
    pose proof (Z.div_mod a b ltac:(lia)) as Hdm.
    pose proof (Z.mod_pos_bound a b Hb) as Hr.
    set (q := (a / b)%Z) in *. set (r := (a mod b)%Z) in *. clearbody q r.
    assert (Hpb : (0 < P * b)%Z) by (apply Z.mul_pos_pos; assumption).
    split.
    - intros HN.
      assert (H1 : (N * Zpos d * (P * b) <= n * (P * b))%Z)
        by (apply Z.mul_le_mono_nonneg_r; lia).
      assert (H2 : (N * P * b * Zpos d <= a * Zpos d)%Z) by lia.
      apply Z.mul_le_mono_pos_r in H2; [|lia].
      assert (H3 : (b * (N * P) < b * (q + 1))%Z) by lia.
      apply Z.mul_lt_mono_pos_l in H3; [|exact Hb].
      destruct (_ || _); lia.
    - intros HN.
      assert (H1 : (n * (P * b) <= N * Zpos d * (P * b))%Z)
        by (apply Z.mul_le_mono_nonneg_r; lia).
      assert (H2 : (a * Zpos d <= N * P * b * Zpos d)%Z) by lia.
      apply Z.mul_le_mono_pos_r in H2; [|lia].
      assert (H3 : (b * q <= b * (N * P))%Z) by lia.
      apply Z.mul_le_mono_pos_l in H3; [|exact Hb].
      destruct (Z.eq_dec q (N * P)%Z) as [E|E].
      + assert (r = 0%Z) by (subst q; lia). subst r.
        destruct (Z.ltb_spec b (2 * 0)); [lia|].
        destruct (Z.eqb_spec b (2 * 0)); [lia|]. cbn [orb andb]. lia.
      + destruct (_ || _); lia. }
  destruct (Hm _ eq_refl) as [Hlo Hhi]. set (m := mantissaOf n d e) in *. clearbody m.
  destruct (Z.leb_spec 0 e) as [H0|H0].
  - assert (e = 0%Z) by lia. subst e. unfold P in *. cbn in Hlo, Hhi |- *.
    rewrite Z.mul_1_r in *. split; intros H; rewrite <- Zle_Qle; auto.
  - split; intros H; unfold Qle; cbn [Qnum Qden inject_Z];
      rewrite Z2Pos.id by exact HP; fold P; [specialize (Hlo H)|specialize (Hhi H)]; lia.
Qed.

Lemma fl64_integers q N :
  0 <= q -> q < inject_Z (2 ^ 53) ->
  (inject_Z N <= q -> inject_Z N <= fl64 q) /\ (q <= inject_Z N -> fl64 q <= inject_Z N).
Proof.
  intros Hq Hlt. unfold fl64. destruct q as [num den]. cbn [Qnum Qden].
  unfold Qle, Qlt in *. cbn [Qnum Qden inject_Z] in *.
  destruct num as [|n|n]; [| |lia].
  - split; intros H; cbn; lia.
  - destruct (fl64_mag_integers (Zpos n) den N) as [Hlo Hhi]; [lia|lia|].
    split; intros H; [apply Hlo|apply Hhi]; lia.
Qed.

(** Hence the floor of a rounded result is the floor of the exact result
    or one more. *)
Lemma floor_fl64 q :
  0 <= q -> q < inject_Z (2 ^ 53) ->
  (Qfloor q <= Qfloor (fl64 q) <= Qfloor q + 1)%Z.
Proof.
  intros Hq Hlt.
  destruct (fl64_integers q (Qfloor q) Hq Hlt) as [Hlo _].
  destruct (fl64_integers q (Qfloor q + 1) Hq Hlt) as [_ Hhi].
  specialize (Hlo (Qfloor_le q)). specialize (Hhi (Qlt_le_weak _ _ (Qlt_floor q))).
  split.
  - rewrite <- (Qfloor_Z (Qfloor q)) at 1. now apply Qfloor_resp_le.
  - rewrite <- (Qfloor_Z (Qfloor q + 1)). now apply Qfloor_resp_le.
Qed.

(** ** Geometry mapper and wheel zoom ([Timeline]) *)

Module Geometry.

Definition PIXELS_PER_SECOND_BASE : Q := 150.

(** [const pixelsPerSecond = PIXELS_PER_SECOND_BASE * zoomLevel] *)
Definition pixelsPerSecond (zoomLevel : Q) : Q := PIXELS_PER_SECOND_BASE * zoomLevel.

Definition timeToPixel (t zoomLevel : Q) : Q := t * pixelsPerSecond zoomLevel.

Record WheelEvent := mkWheelEvent {
  ctrlKey : bool;
  metaKey : bool;
  deltaY : Q;
  clientX : Q
}.

(** What [handleWheel] reads from [scrollContainerRef.current]. *)
Record ScrollContainer := mkScrollContainer {
  rectLeft : Q;
  scrollLeft : Q
}.

(** What [handleWheel] does: the zoom handed to [onZoomChange] and the value
    assigned to [scrollContainer.scrollLeft]. *)
Record ZoomResult := mkZoomResult {
  newZoom : Q;
  newScrollLeft : Q
}.

(** [handleWheel]; [None] when the handler returns without doing anything
    (no modifier key, or no scroll container). *)
Definition handleWheel (zoomLevel : Q) (e : WheelEvent)
    (scrollContainer : option ScrollContainer) : option ZoomResult :=
  if ctrlKey e || metaKey e then
    match scrollContainer with
    | None => None
    | Some sc =>
        let mouseX := clientX e - rectLeft sc in
        let timeAtCursor := (scrollLeft sc + mouseX) / pixelsPerSecond zoomLevel in
        let zoomFactor := - deltaY e * (5 # 1000) in
        let newZoom := Qmax (2 # 10) (Qmin 5 (zoomLevel + zoomFactor)) in
        let newPixelsPerSecond := PIXELS_PER_SECOND_BASE * newZoom in
        Some {| newZoom := newZoom;
                newScrollLeft := timeAtCursor * newPixelsPerSecond - mouseX |}
    end
  else None.

Lemma clamp_range lo hi v : lo <= hi -> lo <= Qmax lo (Qmin hi v) <= hi.
Proof.
  intros Hlh. split.
  - apply Q.le_max_l.
  - apply Q.max_lub; [exact Hlh | apply Q.le_min_l].
Qed.

(** C7: a wheel event with a modifier key yields a zoom within [0.2, 5] and
    the scroll offset [timeAtCursor * (150 * newZoom) - mouseX] with
    [timeAtCursor = (oldScrollLeft + mouseX) / (150 * oldZoom)]; at the new
    scale the time under the pointer is drawn [mouseX] pixels right of the
    new scroll offset, the pointer position it had before, and the pointer
    position maps back to that time. *)
Theorem wheel_zoom_about_cursor (zoomLevel : Q) (e : WheelEvent) (sc : ScrollContainer) :
  ctrlKey e || metaKey e = true ->
  exists r,
    handleWheel zoomLevel e (Some sc) = Some r /\
    (2 # 10) <= newZoom r <= 5 /\
    (let mouseX := clientX e - rectLeft sc in
     let timeAtCursor := (scrollLeft sc + mouseX) / (150 * zoomLevel) in
     newScrollLeft r == timeAtCursor * (150 * newZoom r) - mouseX /\
     timeToPixel timeAtCursor (newZoom r) - newScrollLeft r == mouseX /\
     (newScrollLeft r + mouseX) / pixelsPerSecond (newZoom r) == timeAtCursor).
Proof.
  intros Hmod. unfold handleWheel. rewrite Hmod.
  eexists. split; [reflexivity|]. cbn [newZoom newScrollLeft].
  pose proof (clamp_range (2 # 10) 5 (zoomLevel + - deltaY e * (5 # 1000))) as Hz.
  assert (Hlh : (2 # 10) <= 5) by lra. specialize (Hz Hlh).
  set (z := Qmax (2 # 10) (Qmin 5 (zoomLevel + - deltaY e * (5 # 1000)))) in *.
  clearbody z. split; [exact Hz|].
  unfold timeToPixel, pixelsPerSecond, PIXELS_PER_SECOND_BASE. cbn zeta.
  set (t := (scrollLeft sc + (clientX e - rectLeft sc)) / (150 * zoomLevel)).
  clearbody t.
  split; [reflexivity|]. split; [ring|].
  field. intros Hz0. lra.
Qed.

Lemma wheel_zoom_about_cursor_witness :
  exists r,
    handleWheel 1 (mkWheelEvent true false (-100) 300) (Some (mkScrollContainer 0 150)) = Some r /\
    (2 # 10) <= newZoom r <= 5.
Proof.
  destruct (wheel_zoom_about_cursor 1 (mkWheelEvent true false (-100) 300)
              (mkScrollContainer 0 150)) as (r & Hr & Hz & _).
  - reflexivity.
  - exists r. split; [exact Hr | exact Hz].
Defined.

End Geometry.

(** ** Export pipeline: the frame loop of [handleExport] *)

Module ExportPipeline.

Definition frameRate : Q := 30.

(** [const numFrames = Math.floor(video.duration * frameRate)]: the floor
    of the product as a double. *)
Definition numFrames (duration : Q) : Z := Qfloor (fl64 (duration * frameRate)).

(** [captions.find(c => time >= c.start && time < c.end)] *)
Definition activeCaption (captions : list Caption) (time : Q) : option Caption :=
  List.find (fun c => Qle_bool (start c) time && Qlt_bool time (end_ c)) captions.

(** One iteration of the loop: the frame index, the seek time, and the
    arguments of the [drawText] call made on the frame, if any. *)
Record Frame := mkFrame {
  frameIndex : Z;
  frameTime : Q;
  overlay : option (string * StyleOptions)
}.

(** The body of the loop; [const time = i / frameRate] is a quotient of
    doubles. *)
Definition renderFrame (s : EditorState) (i : Z) : Frame :=
  let time := fl64 (inject_Z i / frameRate) in
  {| frameIndex := i;
     frameTime := time;
     overlay :=
       match activeCaption (captions s) time with
       | Some c => Some (text c, styles s)
       | None => None
       end |}.

(** [for (let i = 0; i <= numFrames; i++) { ... }] *)
Definition exportFrames (duration : Q) (s : EditorState) : list Frame :=
  renderFrame s <$> seqZ 0 (numFrames duration + 1).

(** The time lies in the caption's half-open interval. *)
Definition covers (c : Caption) (time : Q) : Prop := start c <= time /\ time < end_ c.

Lemma activeCaption_Some captions time :
  is_Some (activeCaption captions time) <->
  exists c, c ∈ captions /\ start c <= time /\ time < end_ c.
Proof.
  unfold activeCaption. split.
  - intros [c Hc]. apply find_some in Hc as [Hin Hp].
    apply andb_true_iff in Hp as [H1 H2].
    exists c. split; [now apply list_elem_of_In|].
    split; [now apply Qle_bool_iff | now apply Qlt_bool_iff].
  - intros (c & Hin & H1 & H2).
    destruct (List.find _ captions) as [c'|] eqn:E; [now exists c'|].
    exfalso. apply list_elem_of_In in Hin.
    pose proof (find_none _ _ E c Hin) as Hn. simpl in Hn.
    apply andb_false_iff in Hn as [Hn|Hn].
    + apply Qle_bool_false in Hn. lra.
    + apply not_true_iff_false in Hn. apply Hn. now apply Qlt_bool_iff.
Qed.

Lemma covers_test c time :
  Qle_bool (start c) time && Qlt_bool time (end_ c) = true <-> covers c time.
Proof.
  unfold covers. rewrite andb_true_iff, Qle_bool_iff, Qlt_bool_iff. reflexivity.
Qed.

(** [find] returns the first caption in list order that covers the time. *)
Lemma activeCaption_first captions time k c :
  captions !! k = Some c -> covers c time ->
  (forall j c', (j < k)%nat -> captions !! j = Some c' -> ~ covers c' time) ->
  activeCaption captions time = Some c.
Proof.
  unfold activeCaption. revert k. induction captions as [|a l IH]; intros k Hk Hc Hfirst.
  - discriminate.
  - cbn [List.find]. destruct k as [|k].
    + injection Hk as ->. apply covers_test in Hc. now rewrite Hc.
    + destruct (Qle_bool (start a) time && Qlt_bool time (end_ a)) eqn:Ea.
      * exfalso. apply covers_test in Ea. exact (Hfirst 0%nat a ltac:(lia) eq_refl Ea).
      * apply (IH k); [exact Hk|exact Hc|].
        intros j c' Hj Hc'. apply (Hfirst (S j) c'); [lia|exact Hc'].
Qed.

(** C5 (amended): for a duration whose frame count is below [2^53], the
    export renders the frame indices [0 .. floor(d * 30)] in order, the
    product being the double the code floors; for a duration that is not
    negative this bound is the floor of the exact product or one more. Frame
    [i] is sought at the double [i / 30]; a 2-second clip gives 61 frames. On
    a frame the text of the first caption in list order with
    [start <= time < end] is drawn with the current styles, and nothing is
    drawn exactly when no caption has the time in its interval. *)
Theorem export_frames (duration : Q) (s : EditorState) :
  duration * 30 < inject_Z (2 ^ 53) ->
  frameIndex <$> exportFrames duration s = seqZ 0 (Qfloor (fl64 (duration * 30)) + 1) /\
  (0 <= duration ->
     (Qfloor (duration * 30) <= Qfloor (fl64 (duration * 30))
        <= Qfloor (duration * 30) + 1)%Z) /\
  (forall i, (0 <= i <= Qfloor (fl64 (duration * 30)))%Z ->
     exists f,
       exportFrames duration s !! Z.to_nat i = Some f /\
       frameIndex f = i /\
       frameTime f = fl64 (inject_Z i / 30) /\
       (is_Some (overlay f) <-> exists c, c ∈ captions s /\ covers c (frameTime f)) /\
       (forall k c, captions s !! k = Some c -> covers c (frameTime f) ->
          (forall j c', (j < k)%nat -> captions s !! j = Some c' ->
                        ~ covers c' (frameTime f)) ->
          overlay f = Some (text c, styles s))) /\
  length (exportFrames 2 s) = 61%nat.
Proof.
  intros Hlt. unfold exportFrames, numFrames, frameRate. split; [|split; [|split]].
  - rewrite <- list_fmap_compose. apply list_eq. intros i.
    rewrite list_lookup_fmap. destruct (seqZ _ _ !! i); reflexivity.
  - intros Hd. apply floor_fl64; [|exact Hlt].
    apply Qmult_le_0_compat; [exact Hd|]. lra.
  - intros i Hi. exists (renderFrame s i). split.
    { rewrite list_lookup_fmap.
      rewrite (lookup_seqZ_lt 0 (Qfloor (fl64 (duration * 30)) + 1) (Z.to_nat i)) by lia.
      cbn [fmap option_fmap option_map]. f_equal. f_equal. lia. }
    unfold renderFrame, frameRate. cbn [frameIndex frameTime overlay].
    split; [reflexivity|]. split; [reflexivity|]. split.
    + unfold covers. rewrite <- activeCaption_Some.
      destruct (activeCaption _ _) as [c|]; split; intros [z Hz]; try discriminate; eauto.
    + intros k c Hk Hc Hfirst. now rewrite (activeCaption_first _ _ k c Hk Hc Hfirst).
  - rewrite length_fmap, length_seqZ. reflexivity.
Qed.

Lemma export_frames_witness :
  let s := {| captions := [mkCaption (1 # 2) (3 # 2) "Hi"]; styles := DEFAULT_STYLES |} in
  frameIndex <$> exportFrames 2 s = seqZ 0 61 /\
  exists f, exportFrames 2 s !! 15%nat = Some f /\
            frameTime f = fl64 (inject_Z 15 / 30) /\
            overlay f = Some ("Hi"%string, DEFAULT_STYLES).
Proof.
  intros s. destruct (export_frames 2 s) as (H1 & _ & H3 & _); [vm_compute; reflexivity|].
  split; [exact H1|].
  destruct (H3 15%Z) as (f & Hf & _ & Ht & _ & Hov); [split; vm_compute; discriminate|].
  exists f. split; [exact Hf|]. split; [exact Ht|].
  apply (Hov 0%nat (mkCaption (1 # 2) (3 # 2) "Hi") eq_refl).
  - unfold covers. rewrite Ht. split; vm_compute; [discriminate|reflexivity].
  - intros j c' Hj. lia.
Defined.

(** C5, the statement as written fails: for the duration 0.7 (as a double,
    a little below 7/10) the floor of the exact product is 20, but the product
    is rounded to the double 21 before the floor, and the loop renders the
    indices 0 to 21. *)
Theorem export_frames_counterexample :
  let d := fl64 (7 # 10) in
  let s := {| captions := []; styles := DEFAULT_STYLES |} in
  Qfloor (d * 30) = 20%Z /\
  numFrames d = 21%Z /\
  frameIndex <$> exportFrames d s = seqZ 0 22 /\
  frameIndex <$> exportFrames d s <> seqZ 0 (Qfloor (d * 30) + 1).
Proof.
  assert (H : frameIndex <$> exportFrames (fl64 (7 # 10))
                {| captions := []; styles := DEFAULT_STYLES |} = seqZ 0 22)
    by (vm_compute; reflexivity).
  cbv zeta. split; [vm_compute; reflexivity|]. split; [vm_compute; reflexivity|].
  split; [exact H|]. rewrite H. vm_compute. discriminate.
Qed.

(** The 2-second scenario: one caption over [0.5, 1.5) is drawn on frames
    15 to 44 and on no other. *)
Example export_two_seconds :
  let s := {| captions := [mkCaption (1 # 2) (3 # 2) "Hi"]; styles := DEFAULT_STYLES |} in
  (frameIndex <$> filter (fun f => is_Some (overlay f)) (exportFrames 2 s)) = seqZ 15 30.
Proof. vm_compute. reflexivity. Qed.

(** A duration of 4.1 s: the double product is a little below 123, and 123
    frames (indices 0 to 122) are rendered. *)
Example export_four_point_one :
  numFrames (fl64 (41 # 10)) = 122%Z.
Proof. vm_compute. reflexivity. Qed.

End ExportPipeline.

(** ** Strings *)

Definition nl : string := String "010"%char EmptyString.

(** [parts.join(sep)] *)
Fixpoint join (sep : string) (parts : list string) : string :=
  match parts with
  | [] => EmptyString
  | [p] => p
  | p :: rest => (p ++ sep ++ join sep rest)%string
  end.

(** ** SRT export *)

Module Srt.

Local Open Scope Z_scope.

(** ECMAScript [ToIntegerOrInfinity] on a finite number: truncation toward
    zero. [MakeTime] applies it to each of its arguments. *)
Definition ToIntegerOrInfinity (q : Q) : Z :=
  if Qle_bool 0 q then Qfloor q else Qceiling q.

(** A [Date] is its time value, in milliseconds since the epoch. *)
Definition Date := Z.

Definition msPerSecond := 1000.
Definition msPerMinute := 60000.
Definition msPerHour := 3600000.
Definition msPerDay := 86400000.

Definition Day (t : Date) : Z := t / msPerDay.
Definition HourFromTime (t : Date) : Z := (t / msPerHour) mod 24.
Definition MinFromTime (t : Date) : Z := (t / msPerMinute) mod 60.
Definition SecFromTime (t : Date) : Z := (t / msPerSecond) mod 60.
Definition msFromTime (t : Date) : Z := t mod msPerSecond.

Definition MakeTime (hour min sec ms : Z) : Z :=
  hour * msPerHour + min * msPerMinute + sec * msPerSecond + ms.

Definition MakeDate (day time : Z) : Z := day * msPerDay + time.

(** [date.setSeconds(sec)]: the seconds field is replaced by the integer part
    of [sec]; the milliseconds field keeps its value. The conversion to local
    time and back cancels for a zone offset of whole minutes and is left out
    ([Stamps.setSecondsIn] has it, and [Stamps.setSecondsIn_epoch] the
    cancellation). *)
Definition setSeconds (t : Date) (sec : Q) : Date :=
  MakeDate (Day t)
    (MakeTime (HourFromTime t) (MinFromTime t) (ToIntegerOrInfinity sec) (msFromTime t)).

Definition digit (d : Z) : string :=
  String (ascii_of_nat (48 + Z.to_nat d)) EmptyString.

Definition pad2 (n : Z) : string := (digit (n / 10 mod 10) ++ digit (n mod 10))%string.

Definition pad3 (n : Z) : string :=
  (digit (n / 100 mod 10) ++ digit (n / 10 mod 10) ++ digit (n mod 10))%string.

(** [date.toISOString().substr(11, 12)]: the [HH:mm:ss.sss] part of
    [YYYY-MM-DDTHH:mm:ss.sssZ] (years 0000 to 9999, where the date part has
    ten characters; [Stamps.toISOString] is the whole string, and
    [Stamps.iso_slice] the slice). *)
Definition isoTimeOfDay (t : Date) : string :=
  (pad2 (HourFromTime t) ++ ":" ++ pad2 (MinFromTime t) ++ ":" ++
   pad2 (SecFromTime t) ++ "." ++ pad3 (msFromTime t))%string.

(** [s.replace(a, b)] for one-character strings: the first occurrence only. *)
Fixpoint replace (a b : ascii) (s : string) : string :=
  match s with
  | EmptyString => EmptyString
  | String c rest =>
      if Ascii.eqb c a then String b rest else String c (replace a b rest)
  end.

(** [formatSRTTime] *)
Definition formatSRTTime (seconds : Q) : string :=
  let date := setSeconds 0 seconds in
  let time := isoTimeOfDay date in
  replace "." "," time.

(** [String(n)] for a non-negative integer. *)
Definition stringOfNat (n : nat) : string :=
  DecimalString.NilZero.string_of_uint (Nat.to_uint n).

(** The [srtContent] built by [handleDownloadSRT]. *)
Definition handleDownloadSRT (captions : list Caption) : string :=
  join nl
    (imap (fun index caption =>
             (stringOfNat (index + 1) ++ nl ++
              formatSRTTime (start caption) ++ " --> " ++ formatSRTTime (end_ caption) ++ nl ++
              text caption ++ nl)%string)
          captions).

(** The two captions of the scenario. *)
Definition scenario : list Caption :=
  [mkCaption 0 1 "A"; mkCaption (3 # 2) 2 "B"].

(** The export the scenario expects. *)
Definition expected : string :=
  ("1" ++ nl ++ "00:00:00,000 --> 00:00:01,000" ++ nl ++ "A" ++ nl ++ nl ++
   "2" ++ nl ++ "00:00:01,500 --> 00:00:02,000" ++ nl ++ "B" ++ nl)%string.

(** What the code writes for it. *)
Definition produced : string :=
  ("1" ++ nl ++ "00:00:00,000 --> 00:00:01,000" ++ nl ++ "A" ++ nl ++ nl ++
   "2" ++ nl ++ "00:00:01,000 --> 00:00:02,000" ++ nl ++ "B" ++ nl)%string.

Lemma ToIntegerOrInfinity_inject z : ToIntegerOrInfinity (inject_Z z) = z.
Proof.
  unfold ToIntegerOrInfinity.
  destruct (Qle_bool 0 (inject_Z z)); [apply Qfloor_Z | apply Qceiling_Z].
Qed.

(** The fraction of a second never reaches the output: a time is formatted
    as its integer part is. *)
Lemma formatSRTTime_truncates (seconds : Q) :
  formatSRTTime seconds = formatSRTTime (inject_Z (ToIntegerOrInfinity seconds)).
Proof. unfold formatSRTTime, setSeconds. now rewrite ToIntegerOrInfinity_inject. Qed.

(** The milliseconds field of a time set on [new Date(0)] is always zero. *)
Lemma setSeconds_ms (seconds : Q) : msFromTime (setSeconds 0 seconds) = 0.
Proof.
  unfold setSeconds, msFromTime, MakeDate, MakeTime, Day, HourFromTime, MinFromTime,
    msPerDay, msPerHour, msPerMinute, msPerSecond.
  change (0 / 86400000) with 0. change ((0 / 3600000) mod 24) with 0.
  change ((0 / 60000) mod 60) with 0. change (0 mod 1000) with 0.
  rewrite !Z.mul_0_l, !Z.add_0_l, Z.add_0_r. apply Z.mod_mul. lia.
Qed.

(** C4: on the scenario's two captions the export writes [00:00:01,000] for
    the start time 1.5, so the output differs from the expected text, which
    has [00:00:01,500] there. *)
Theorem srt_export_scenario :
  handleDownloadSRT scenario = produced /\
  formatSRTTime (3 # 2) = "00:00:01,000"%string /\
  handleDownloadSRT scenario <> expected.
Proof.
  assert (H : handleDownloadSRT scenario = produced) by (vm_compute; reflexivity).
  split; [exact H|]. split; [vm_compute; reflexivity|].
  rewrite H. vm_compute. discriminate.
Qed.

End Srt.

(** ** Caption list edits ([handleSplitCaption], [handleAddCaption],
       [handleCaptionTimeChange]) *)

Module Editing.

Import History.

(** [arr.findIndex(p)]; [None] is [-1]. *)
Fixpoint findIndex {A} (p : A -> bool) (l : list A) : option nat :=
  match l with
  | [] => None
  | a :: rest => if p a then Some 0%nat else S <$> findIndex p rest
  end.

(** [arr.sort((a, b) => a.start - b.start)]: a stable sort by start time. *)
Fixpoint insertByStart (c : Caption) (l : list Caption) : list Caption :=
  match l with
  | [] => [c]
  | d :: rest =>
      if Qle_bool (start c) (start d) then c :: d :: rest
      else d :: insertByStart c rest
  end.

Definition sortByStart (l : list Caption) : list Caption :=
  foldr insertByStart [] l.

(** [arr[i - 1]]: [undefined] for [i = 0]. *)
Definition before {A} (l : list A) (i : nat) : option A :=
  match i with
  | O => None
  | S j => l !! j
  end.

Section Component.

(** [sortedCaptions], the fallback of the render when [history[historyIndex]]
    is missing. *)
Variable sortedCaptions : list Caption.

(** [const { captions, styles } = currentState || { ... }] *)
Definition view (ed : Editor) : EditorState :=
  default {| captions := sortedCaptions; styles := DEFAULT_STYLES |} (currentState ed).

(** [handleCaptionTimeChange(index, start, end, merge)] *)
Definition handleCaptionTimeChange (index : nat) (newStart newEnd : Q) (merge : bool)
    (ed : Editor) : Editor :=
  updateState
    (fun prev =>
       {| captions :=
            alter (fun c => {| start := newStart; end_ := newEnd; text := text c |})
                  index (captions prev);
          styles := styles prev |})
    merge ed.

(** The updater of [handleSplitCaption]. A missing [newCaptions[index]]
    cannot occur: the handler has read the same snapshot before calling. *)
Definition splitUpdater (index : nat) (time : Q) (prev : EditorState) : EditorState :=
  match captions prev !! index with
  | None => prev
  | Some originalCaption =>
      let firstPart :=
        {| start := start originalCaption; end_ := time; text := text originalCaption |} in
      let secondPart :=
        {| start := time; end_ := end_ originalCaption; text := text originalCaption |} in
      {| captions :=
           take index (captions prev) ++ [firstPart; secondPart] ++
           drop (index + 1) (captions prev);
         styles := styles prev |}
  end.

(** [handleSplitCaption(index)]; [time] is [videoRef.current?.currentTime].
    The result is [None] when reading [caption.start] throws because
    [captions[index]] is [undefined]. *)
Definition handleSplitCaption (index : nat) (time : option Q) (ed : Editor)
    : option Editor :=
  match time with
  | None => Some ed
  | Some time =>
      match captions (view ed) !! index with
      | None => None
      | Some caption =>
          if Qle_bool time (start caption) || Qle_bool (end_ caption) time
          then Some ed
          else Some (updateState (splitUpdater index time) false ed)
      end
  end.

Definition notice : string := "Not enough space to add a new caption here.".

(** The updater of [handleAddCaption], with the [alert] it raises. *)
Definition addUpdater (time videoDuration : Q) (prev : EditorState)
    : EditorState * list string :=
  let newStart := time in
  let newEnd := Qmin (time + 2) videoDuration in
  let newCaptions := sortByStart (captions prev) in
  match findIndex (fun c => Qlt_bool time (start c)) newCaptions with
  | None =>
      let lastCaption := last newCaptions in
      let newStart :=
        match lastCaption with
        | Some lc => if Qlt_bool newStart (end_ lc) then end_ lc else newStart
        | None => newStart
        end in
      if Qlt_bool (newEnd - newStart) (1 # 10) then (prev, [notice])
      else
        ({| captions :=
              newCaptions ++ [{| start := newStart; end_ := newEnd; text := "New Caption" |}];
            styles := styles prev |}, [])
  | Some insertIndex =>
      let prevCaption := before newCaptions insertIndex in
      let newStart :=
        match prevCaption with
        | Some pc => if Qlt_bool newStart (end_ pc) then end_ pc else newStart
        | None => newStart
        end in
      let nextCaption := newCaptions !! insertIndex in
      let newEnd :=
        match nextCaption with
        | Some nc => if Qlt_bool (start nc) newEnd then start nc else newEnd
        | None => newEnd
        end in
      if Qlt_bool (newEnd - newStart) (1 # 10) then (prev, [notice])
      else
        ({| captions :=
              take insertIndex newCaptions ++
              [{| start := newStart; end_ := newEnd; text := "New Caption" |}] ++
              drop insertIndex newCaptions;
            styles := styles prev |}, [])
  end.

(** [handleAddCaption]: the editor after the call and the alerts shown.
    [time] is [videoRef.current?.currentTime], [0] when missing. *)
Definition handleAddCaption (time : option Q) (videoDuration : Q) (ed : Editor)
    : Editor * list string :=
  let time := default 0 time in
  (updateState (fun prev => fst (addUpdater time videoDuration prev)) false ed,
   match currentState ed with
   | Some prev => snd (addUpdater time videoDuration prev)
   | None => []
   end).

Lemma view_current ed s : currentState ed = Some s -> view ed = s.
Proof. unfold view. now intros ->. Qed.

Lemma commit_current updater ed s :
  currentState ed = Some s ->
  currentState (updateState updater false ed) = Some (updater s).
Proof.
  intros Hs. unfold currentState in *.
  rewrite (updateState_commit_shape _ _ _ Hs). simpl.
  pose proof (lookup_lt_Some _ _ _ Hs) as Hlt.
  rewrite lookup_app_r; rewrite length_take; [|lia].
  replace (historyIndex ed + 1 - (historyIndex ed + 1) `min` length (history ed))%nat
    with 0%nat by lia.
  reflexivity.
Qed.

(** Shape of a list after [splice(index, 1, a, b)]. *)
Lemma splice_two {A} (l : list A) (index : nat) (c a b : A) :
  l !! index = Some c ->
  let l' := take index l ++ [a; b] ++ drop (index + 1) l in
  length l' = S (length l) /\
  l' !! index = Some a /\
  l' !! S index = Some b /\
  (forall j, (j < index)%nat -> l' !! j = l !! j) /\
  (forall j, (index < j)%nat -> l' !! S j = l !! j).
Proof.
  intros Hc l'. pose proof (lookup_lt_Some _ _ _ Hc) as Hlt.
  assert (Htake : length (take index l) = index) by (rewrite length_take; lia).
  subst l'. repeat split.
  - rewrite !length_app, Htake, length_drop. simpl. lia.
  - rewrite lookup_app_r by lia. now rewrite Htake, Nat.sub_diag.
  - rewrite lookup_app_r by lia. rewrite Htake.
    now replace (S index - index)%nat with 1%nat by lia.
  - intros j Hj. rewrite lookup_app_l by lia. now apply lookup_take_lt.
  - intros j Hj. rewrite lookup_app_r by lia. rewrite Htake.
    replace (S j - index)%nat with (S (S (j - index - 1)))%nat by lia.
    simpl. rewrite lookup_drop. f_equal. lia.
Qed.

(** C10: with the playhead strictly inside the caption at [index], the split
    commits a snapshot in which that caption is replaced by its two parts
    [start .. t] and [t .. end] with the same text at positions [index] and
    [index + 1]; the list is one longer, every other caption and the styles
    are as before. With the playhead at or outside either end the editor is
    returned as it is. *)
Theorem split_caption (ed : Editor) (s : EditorState) (index : nat) (c : Caption) (t : Q) :
  currentState ed = Some s ->
  captions s !! index = Some c ->
  (start c < t -> t < end_ c ->
   exists ed' s',
     handleSplitCaption index (Some t) ed = Some ed' /\
     currentState ed' = Some s' /\
     styles s' = styles s /\
     captions s' =
       take index (captions s) ++
       [mkCaption (start c) t (text c); mkCaption t (end_ c) (text c)] ++
       drop (index + 1) (captions s) /\
     length (captions s') = S (length (captions s)) /\
     captions s' !! index = Some (mkCaption (start c) t (text c)) /\
     captions s' !! S index = Some (mkCaption t (end_ c) (text c)) /\
     (forall j, (j < index)%nat -> captions s' !! j = captions s !! j) /\
     (forall j, (index < j)%nat -> captions s' !! S j = captions s !! j)) /\
  (t <= start c \/ end_ c <= t -> handleSplitCaption index (Some t) ed = Some ed).
Proof.
  intros Hs Hc. unfold handleSplitCaption. rewrite (view_current _ _ Hs), Hc. split.
  - intros H1 H2.
    assert (E1 : Qle_bool t (start c) = false) by now apply Qle_bool_false.
    assert (E2 : Qle_bool (end_ c) t = false) by now apply Qle_bool_false.
    rewrite E1, E2. simpl.
    exists (updateState (splitUpdater index t) false ed), (splitUpdater index t s).
    split; [reflexivity|]. split; [now apply commit_current|].
    unfold splitUpdater. rewrite Hc. simpl.
    split; [reflexivity|]. split; [reflexivity|].
    apply (splice_two (captions s) index c). exact Hc.
  - intros [H|H]; apply Qle_bool_iff in H; rewrite H; simpl; [reflexivity|].
    now rewrite orb_true_r.
Qed.

(** When the updater refuses, [updateState] still appends the snapshot it
    was given: the captions and styles at the cursor are the old ones, but
    the history has [cursor + 2] entries and the cursor has advanced. *)
Lemma add_refused_effect (time : option Q) (videoDuration : Q) (ed : Editor) (s : EditorState) :
  currentState ed = Some s ->
  snd (addUpdater (default 0 time) videoDuration s) <> [] ->
  let ed' := fst (handleAddCaption time videoDuration ed) in
  currentState ed' = Some s /\
  history ed' = take (historyIndex ed + 1) (history ed) ++ [s] /\
  historyIndex ed' = (historyIndex ed + 1)%nat.
Proof.
  intros Hs Hrefused ed'. subst ed'. unfold handleAddCaption. cbn [fst].
  assert (Hfst : fst (addUpdater (default 0 time) videoDuration s) = s).
  { revert Hrefused. unfold addUpdater.
    repeat (match goal with
            | |- context [match ?x with _ => _ end] => destruct x
            end; simpl); congruence. }
  split.
  - rewrite (commit_current _ _ _ Hs). now rewrite Hfst.
  - unfold currentState in Hs. rewrite (updateState_commit_shape _ _ _ Hs). simpl.
    now rewrite Hfst.
Qed.

End Component.

Lemma split_caption_witness :
  let s := {| captions := [mkCaption 0 2 "A"; mkCaption 2 4 "B"]; styles := DEFAULT_STYLES |} in
  exists ed' s',
    handleSplitCaption [] 1 (Some 3) (initial s) = Some ed' /\
    currentState ed' = Some s' /\
    captions s' = [mkCaption 0 2 "A"; mkCaption 2 3 "B"; mkCaption 3 4 "B"].
Proof.
  intros s.
  destruct (split_caption [] (initial s) s 1 (mkCaption 2 4 "B") 3) as [H _].
  - reflexivity.
  - reflexivity.
  - destruct H as (ed' & s' & H1 & H2 & _ & H4 & _).
    + reflexivity.
    + reflexivity.
    + exists ed', s'. split; [exact H1|]. split; [exact H2 | exact H4].
Defined.

(** C9: a playhead at 1.5 in a 2-second video whose only caption spans
    [0, 2] leaves no room; the notice is shown and the captions and styles at
    the cursor are the old ones, but the history has grown from one entry to
    two and the cursor has moved from 0 to 1. *)
Theorem add_caption_refused_grows_history :
  let s := {| captions := [mkCaption 0 2 "A"]; styles := DEFAULT_STYLES |} in
  let r := handleAddCaption (Some (3 # 2)) 2 (initial s) in
  snd r = [notice] /\
  currentState (fst r) = Some s /\
  length (history (initial s)) = 1%nat /\ historyIndex (initial s) = 0%nat /\
  length (history (fst r)) = 2%nat /\ historyIndex (fst r) = 1%nat /\
  fst r <> initial s.
Proof.
  intros s r. vm_compute. repeat split; discriminate.
Qed.

End Editing.

(** ** Timeline interaction: clip drag and keyboard nudge *)

Module Timeline.

Import History Editing.

Inductive DragMode := move | resize_start | resize_end.

(** [type DragState = { index, mode, startX, originalStart, originalEnd }] *)
Record DragState := mkDragState {
  index : nat;
  mode : DragMode;
  startX : Q;
  originalStart : Q;
  originalEnd : Q
}.

(** A call [onCaptionTimeChange(index, start, end, merge)]. *)
Record TimeChange := mkTimeChange {
  changeIndex : nat;
  newStart : Q;
  newEnd : Q;
  merge : bool
}.

Definition SNAP_THRESHOLD_PX : Q := 6.
Definition MIN_DURATION : Q := 1 # 10.

(** [Math.abs((edge * pixelsPerSecond) - (currentTime * pixelsPerSecond)) < SNAP_THRESHOLD_PX] *)
Definition nearPlayhead (pixelsPerSecond currentTime edge : Q) : bool :=
  Qlt_bool (Qabs (edge * pixelsPerSecond - currentTime * pixelsPerSecond)) SNAP_THRESHOLD_PX.

Definition isMove (m : DragMode) : bool :=
  match m with move => true | _ => false end.

(** The pointer offset applied to the edges the mode moves. *)
Definition applyDelta (ds : DragState) (deltaTime : Q) : Q * Q :=
  match mode ds with
  | move => (originalStart ds + deltaTime, originalEnd ds + deltaTime)
  | resize_start => (originalStart ds + deltaTime, originalEnd ds)
  | resize_end => (originalStart ds, originalEnd ds + deltaTime)
  end.

(** The snap to the playhead, inside each mode's branch of the source. *)
Definition snap (m : DragMode) (pixelsPerSecond currentTime : Q) (p : Q * Q) : Q * Q :=
  let '(newStart, newEnd) := p in
  match m with
  | move =>
      if nearPlayhead pixelsPerSecond currentTime newStart then
        let snapDelta := currentTime - newStart in
        (newStart + snapDelta, newEnd + snapDelta)
      else if nearPlayhead pixelsPerSecond currentTime newEnd then
        let snapDelta := currentTime - newEnd in
        (newStart + snapDelta, newEnd + snapDelta)
      else (newStart, newEnd)
  | resize_start =>
      (if nearPlayhead pixelsPerSecond currentTime newStart then currentTime else newStart,
       newEnd)
  | resize_end =>
      (newStart,
       if nearPlayhead pixelsPerSecond currentTime newEnd then currentTime else newEnd)
  end.

(** [newStart = Math.max(0, newStart); newEnd = Math.min(duration, newEnd)] *)
Definition clampToTimeline (duration : Q) (p : Q * Q) : Q * Q :=
  let '(newStart, newEnd) := p in (Qmax 0 newStart, Qmin duration newEnd).

(** The clamps against [captions[index - 1]] and [captions[index + 1]]. *)
Definition clampToNeighbors (captions : list Caption) (i : nat) (p : Q * Q) : Q * Q :=
  let '(newStart, newEnd) := p in
  let prevCaption := before captions i in
  let newStart :=
    match prevCaption with
    | Some pc => Qmax newStart (end_ pc)
    | None => newStart
    end in
  let nextCaption := captions !! (i + 1)%nat in
  let newEnd :=
    match nextCaption with
    | Some nc => Qmin newEnd (start nc)
    | None => newEnd
    end in
  (newStart, newEnd).

(** [if (newStart + 0.1 >= newEnd) { ... }]: only the resize modes act. *)
Definition minimumDuration (m : DragMode) (p : Q * Q) : Q * Q :=
  let '(newStart, newEnd) := p in
  if Qle_bool newEnd (newStart + MIN_DURATION) then
    match m with
    | resize_start => (newEnd - MIN_DURATION, newEnd)
    | resize_end => (newStart, newStart + MIN_DURATION)
    | move => (newStart, newEnd)
    end
  else (newStart, newEnd).

(** The two closing [if (dragState.mode === 'move' && ...)] statements. *)
Definition keepDurationAtBoundary (ds : DragState) (duration : Q) (p : Q * Q) : Q * Q :=
  let '(newStart, newEnd) := p in
  let newEnd :=
    if isMove (mode ds) && Qeq_bool newStart 0
    then newStart + (originalEnd ds - originalStart ds) else newEnd in
  let newStart :=
    if isMove (mode ds) && Qeq_bool newEnd duration
    then newEnd - (originalEnd ds - originalStart ds) else newStart in
  (newStart, newEnd).

(** [handleMouseMove] of the drag effect: the [onCaptionTimeChange] call it
    makes, [None] when it returns early. *)
Definition handleMouseMove (captions : list Caption)
    (duration currentTime pixelsPerSecond : Q)
    (dragState : option DragState) (clientX : Q) : option TimeChange :=
  match dragState with
  | None => None
  | Some ds =>
      if Qeq_bool duration 0 || Qeq_bool pixelsPerSecond 0 then None
      else
        let deltaX := clientX - startX ds in
        let deltaTime := deltaX / pixelsPerSecond in
        let p := applyDelta ds deltaTime in
        let p := snap (mode ds) pixelsPerSecond currentTime p in
        let p := clampToTimeline duration p in
        let p := clampToNeighbors captions (index ds) p in
        let p := minimumDuration (mode ds) p in
        let p := keepDurationAtBoundary ds duration p in
        Some {| changeIndex := index ds; newStart := fst p; newEnd := snd p; merge := true |}
  end.

(** [handleMouseUp]: the closing non-merged call, [None] without a drag (or
    when the dragged caption is gone and reading it throws). *)
Definition handleMouseUp (captions : list Caption) (dragState : option DragState)
    : option TimeChange :=
  match dragState with
  | None => None
  | Some ds =>
      match captions !! index ds with
      | None => None
      | Some finalCaption =>
          Some {| changeIndex := index ds; newStart := start finalCaption;
                  newEnd := end_ finalCaption; merge := false |}
      end
  end.

(** [handleClipMouseDown]: the drag state it sets; [clickX] is the pointer
    offset inside the clip, [width] the clip's rendered width. *)
Definition handleClipMouseDown (captions : list Caption) (i : nat)
    (clientX rectLeft width : Q) : option DragState :=
  let clickX := clientX - rectLeft in
  let edgeThreshold := 8 in
  let m :=
    if Qlt_bool clickX edgeThreshold then resize_start
    else if Qlt_bool (width - edgeThreshold) clickX then resize_end
    else move in
  match captions !! i with
  | None => None
  | Some c =>
      Some {| index := i; mode := m; startX := clientX;
              originalStart := start c; originalEnd := end_ c |}
  end.

Inductive ArrowKey := ArrowLeft | ArrowRight.

(** The arrow-key branch of [handleKeyDown] with a caption selected: the
    [handleCaptionTimeChange] call it makes, [None] when the closing guard
    fails (or the selected caption is missing and reading it throws). *)
Definition handleKeyDown (captions : list Caption) (videoDuration : Q)
    (selectedCaptionIndex : nat) (key : ArrowKey) (shiftKey : bool) : option TimeChange :=
  let frameDuration := 1 / 30 in
  let nudgeAmount := if shiftKey then 10 * frameDuration else frameDuration in
  match captions !! selectedCaptionIndex with
  | None => None
  | Some caption =>
      let duration := end_ caption - start caption in
      let newStart :=
        match key with
        | ArrowLeft => start caption - nudgeAmount
        | ArrowRight => start caption + nudgeAmount
        end in
      let newEnd := newStart + duration in
      let '(newStart, newEnd) :=
        if Qlt_bool newStart 0 then (0, duration) else (newStart, newEnd) in
      let '(newStart, newEnd) :=
        if Qlt_bool videoDuration newEnd
        then (videoDuration - duration, videoDuration) else (newStart, newEnd) in
      let prevCaption := before captions selectedCaptionIndex in
      let '(newStart, newEnd) :=
        match prevCaption with
        | Some pc =>
            if Qlt_bool newStart (end_ pc) then (end_ pc, end_ pc + duration)
            else (newStart, newEnd)
        | None => (newStart, newEnd)
        end in
      let nextCaption := captions !! (selectedCaptionIndex + 1)%nat in
      let '(newStart, newEnd) :=
        match nextCaption with
        | Some nc =>
            if Qlt_bool (start nc) newEnd then (start nc - duration, start nc)
            else (newStart, newEnd)
        | None => (newStart, newEnd)
        end in
      if Qle_bool 0 newStart && Qle_bool newEnd videoDuration && Qlt_bool newStart newEnd
      then Some {| changeIndex := selectedCaptionIndex; newStart := newStart;
                   newEnd := newEnd; merge := true |}
      else None
  end.

(** A time change applied to the editor through [handleCaptionTimeChange]. *)
Definition commit (change : option TimeChange) (ed : Editor) : Editor :=
  match change with
  | None => ed
  | Some c => handleCaptionTimeChange (changeIndex c) (newStart c) (newEnd c) (merge c) ed
  end.


(** A pointer move and the release of a drag, applied to the editor; the
    timeline is handed the captions of the current render. *)
Definition dragMove (sortedCaptions : list Caption) (duration currentTime pixelsPerSecond : Q)
    (ds : DragState) (clientX : Q) (ed : Editor) : Editor :=
  commit (handleMouseMove (captions (view sortedCaptions ed)) duration currentTime
            pixelsPerSecond (Some ds) clientX) ed.

Definition dragEnd (sortedCaptions : list Caption) (ds : DragState) (ed : Editor) : Editor :=
  commit (handleMouseUp (captions (view sortedCaptions ed)) (Some ds)) ed.

(** *** The caption-list invariant and where a gesture starts from *)

(** Every caption lasts at least the floor, and neighbours do not overlap. *)
Definition wellFormed (cs : list Caption) : Prop :=
  (forall i c, cs !! i = Some c -> start c < end_ c /\ MIN_DURATION <= end_ c - start c) /\
  (forall i p c, cs !! i = Some p -> cs !! S i = Some c -> end_ p <= start c).

(** The clip at [i] spans [[s, e]], lies on the timeline, lasts at least the
    floor and sits between its neighbours. *)
Definition placed (captions : list Caption) (duration : Q) (i : nat) (s e : Q) : Prop :=
  0 <= s /\ s + MIN_DURATION <= e /\ e <= duration /\
  (forall pc, before captions i = Some pc -> end_ pc <= s) /\
  (forall nc, captions !! (i + 1)%nat = Some nc -> e <= start nc).

(** The neighbour bounds on a proposed pair of edges. *)
Definition withinNeighbors (captions : list Caption) (i : nat) (s e : Q) : Prop :=
  (forall pc, before captions i = Some pc -> end_ pc <= s) /\
  (forall nc, captions !! (i + 1)%nat = Some nc -> e <= start nc).

Ltac name_minmax a b spec op :=
  let H := fresh "Hspec" in
  let m := fresh "m" in
  pose proof (spec a b) as H;
  set (m := op a b) in *; clearbody m;
  destruct H as [[? ?]|[? ?]].

Ltac split_minmax :=
  repeat match goal with
  | |- context [Qmax ?a ?b] => name_minmax a b Q.max_spec Qmax
  | |- context [Qmin ?a ?b] => name_minmax a b Q.min_spec Qmin
  | H : context [Qmax ?a ?b] |- _ => name_minmax a b Q.max_spec Qmax
  | H : context [Qmin ?a ?b] |- _ => name_minmax a b Q.min_spec Qmin
  end.

(** The two clamps compute the largest lower bound and the smallest upper
    bound, whatever the pair they are given. *)
Lemma clamps_spec captions i duration s1 e1 :
  let p := clampToNeighbors captions i (clampToTimeline duration (s1, e1)) in
  (0 <= fst p /\ s1 <= fst p /\
   (forall pc, before captions i = Some pc -> end_ pc <= fst p) /\
   (forall lo, 0 <= lo -> s1 <= lo ->
      (forall pc, before captions i = Some pc -> end_ pc <= lo) -> fst p <= lo)) /\
  (snd p <= duration /\ snd p <= e1 /\
   (forall nc, captions !! (i + 1)%nat = Some nc -> snd p <= start nc) /\
   (forall hi, hi <= duration -> hi <= e1 ->
      (forall nc, captions !! (i + 1)%nat = Some nc -> hi <= start nc) -> hi <= snd p)).
Proof.
  unfold clampToNeighbors, clampToTimeline. cbn zeta. cbn [fst snd].
  split.
  - destruct (before captions i) as [pc|]; cbn [fst snd].
    + repeat split.
      * split_minmax; lra.
      * split_minmax; lra.
      * intros ? [= <-]. split_minmax; lra.
      * intros lo Hlo1 Hlo2 Hlo3. specialize (Hlo3 _ eq_refl). split_minmax; lra.
    + repeat split; try discriminate.
      * split_minmax; lra.
      * split_minmax; lra.
      * intros lo Hlo1 Hlo2 _. split_minmax; lra.
  - destruct (captions !! (i + 1)%nat) as [nc|]; cbn [fst snd].
    + repeat split.
      * split_minmax; lra.
      * split_minmax; lra.
      * intros ? [= <-]. split_minmax; lra.
      * intros hi Hhi1 Hhi2 Hhi3. specialize (Hhi3 _ eq_refl). split_minmax; lra.
    + repeat split; try discriminate.
      * split_minmax; lra.
      * split_minmax; lra.
      * intros hi Hhi1 Hhi2 _. split_minmax; lra.
Qed.

Lemma Qeq_bool_true a b : Qeq_bool a b = true -> a == b.
Proof. apply Qeq_bool_iff. Qed.

(** One drag step from a placed clip: the committed edges lie on the
    timeline and between the neighbours in every mode and for every playhead
    position; in the resize modes they are also at least the floor apart. *)
Lemma drag_step_spec captions duration currentTime pixelsPerSecond ds clientX change :
  placed captions duration (index ds) (originalStart ds) (originalEnd ds) ->
  handleMouseMove captions duration currentTime pixelsPerSecond (Some ds) clientX
    = Some change ->
  changeIndex change = index ds /\ merge change = true /\
  0 <= newStart change /\ newEnd change <= duration /\
  withinNeighbors captions (index ds) (newStart change) (newEnd change) /\
  (mode ds <> move -> newStart change + MIN_DURATION <= newEnd change).
Proof.
  intros (H0 & Hdur & Hend & Hprev & Hnext) Hmove. unfold handleMouseMove in Hmove.
  destruct (Qeq_bool duration 0 || Qeq_bool pixelsPerSecond 0); [discriminate|].
  injection Hmove as <-. cbn [changeIndex merge newStart newEnd].
  split; [reflexivity|]. split; [reflexivity|].
  set (d := (clientX - startX ds) / pixelsPerSecond). clearbody d.
  destruct (snap (mode ds) pixelsPerSecond currentTime (applyDelta ds d)) as [s1 e1] eqn:Hsnap.
  pose proof (clamps_spec captions (index ds) duration s1 e1) as Hc. cbn zeta in Hc.
  destruct (clampToNeighbors _ _ _) as [s2 e2]. cbn [fst snd] in Hc.
  destruct Hc as ((Hs0 & Hs1 & Hsp & Hslub) & (He0 & He1 & Hen & Heglb)).
  unfold withinNeighbors, MIN_DURATION in *.
  unfold applyDelta, snap in Hsnap.
  unfold minimumDuration, keepDurationAtBoundary, MIN_DURATION.
  destruct (mode ds) eqn:Hmode; cbn [isMove andb].
  - (* move: no floor; the boundary rules restore the original duration *)
    replace (if Qle_bool e2 (s2 + (1 # 10)) then (s2, e2) else (s2, e2)) with (s2, e2)
      by (destruct (Qle_bool e2 (s2 + (1 # 10))); reflexivity).
    destruct (Qeq_bool s2 0) eqn:E0.
    + apply Qeq_bool_true in E0.
      assert (Hp0 : forall pc, before captions (index ds) = Some pc -> end_ pc <= 0).
      { intros pc Hpc. specialize (Hsp pc Hpc). lra. }
      destruct (Qeq_bool (s2 + (originalEnd ds - originalStart ds)) duration) eqn:E1;
        cbn [fst snd].
      * apply Qeq_bool_true in E1. repeat split; try lra; try congruence.
        -- intros pc Hpc. specialize (Hp0 pc Hpc). lra.
        -- intros nc Hnc. specialize (Hnext nc Hnc). lra.
      * repeat split; try lra; try congruence.
        -- intros pc Hpc. specialize (Hp0 pc Hpc). lra.
        -- intros nc Hnc. specialize (Hnext nc Hnc). lra.
    + destruct (Qeq_bool e2 duration) eqn:E1; cbn [fst snd].
      * apply Qeq_bool_true in E1. repeat split; try lra; try congruence.
        -- intros pc Hpc. specialize (Hprev pc Hpc). lra.
        -- exact Hen.
      * repeat split; try lra; try congruence; assumption.
  - (* resize-start: the end edge is the original one *)
    assert (He1' : e1 == originalEnd ds).
    { destruct (nearPlayhead _ _ _); injection Hsnap as _ <-; reflexivity. }
    assert (He2 : originalEnd ds <= e2).
    { apply Heglb; [lra | lra | exact Hnext]. }
    destruct (Qle_bool e2 (s2 + (1 # 10))) eqn:Efloor; cbn [fst snd].
    + repeat split; try lra.
      * intros pc Hpc. specialize (Hprev pc Hpc). lra.
      * exact Hen.
    + apply Qle_bool_false in Efloor. repeat split; try lra; assumption.
  - (* resize-end: the start edge is the original one *)
    assert (Hs1' : s1 == originalStart ds).
    { destruct (nearPlayhead _ _ _); injection Hsnap as <- _; reflexivity. }
    assert (Hs2 : s2 <= originalStart ds).
    { apply Hslub; [lra | lra | exact Hprev]. }
    destruct (Qle_bool e2 (s2 + (1 # 10))) eqn:Efloor; cbn [fst snd].
    + repeat split; try lra.
      * exact Hsp.
      * intros nc Hnc. specialize (Hnext nc Hnc). lra.
    + apply Qle_bool_false in Efloor. repeat split; try lra; assumption.
Qed.

Ltac case_compare :=
  match goal with
  | |- context [Qlt_bool ?a ?b] =>
      let E := fresh "E" in
      destruct (Qlt_bool a b) eqn:E;
      [apply Qlt_bool_iff in E | apply Qlt_bool_false in E]
  | |- context [Qle_bool ?a ?b] =>
      let E := fresh "E" in
      destruct (Qle_bool a b) eqn:E;
      [apply Qle_bool_iff in E | apply Qle_bool_false in E]
  end.

(** A nudge of a clip that lies on the timeline between its neighbours is
    always committed, keeps the clip's duration, and respects the timeline
    and the neighbours. *)
Lemma nudge_spec captions videoDuration i key shiftKey c :
  captions !! i = Some c ->
  0 <= start c -> start c < end_ c -> end_ c <= videoDuration ->
  withinNeighbors captions i (start c) (end_ c) ->
  exists change,
    handleKeyDown captions videoDuration i key shiftKey = Some change /\
    changeIndex change = i /\ merge change = true /\
    newEnd change - newStart change == end_ c - start c /\
    0 <= newStart change /\ newEnd change <= videoDuration /\
    withinNeighbors captions i (newStart change) (newEnd change).
Proof.
  intros Hc H0 Hlt Hend [Hprev Hnext]. unfold handleKeyDown. rewrite Hc.
  set (n := if shiftKey then 10 * (1 / 30) else 1 / 30). clearbody n.
  set (s0 := match key with ArrowLeft => start c - n | ArrowRight => start c + n end).
  clearbody s0. unfold withinNeighbors.
  destruct (before captions i) as [pc|]; [specialize (Hprev _ eq_refl)|clear Hprev];
    (destruct (captions !! (i + 1)%nat) as [nc|]; [specialize (Hnext _ eq_refl)|clear Hnext]);
    repeat case_compare; cbn [andb];
    first
      [ eexists; split; [reflexivity|]; cbn [changeIndex merge newStart newEnd];
        repeat split; try lra; intros ? [= <-]; lra
      | exfalso; lra ].
Qed.

(** *** What the resize modes and the nudge keep *)

Lemma wellFormed_placed cs duration i c :
  wellFormed cs -> cs !! i = Some c -> 0 <= start c -> end_ c <= duration ->
  placed cs duration i (start c) (end_ c).
Proof.
  intros [Hdur Hadj] Hc H0 Hend. destruct (Hdur _ _ Hc) as [_ Hmin].
  unfold placed, MIN_DURATION in *. repeat split; try lra.
  - intros pc Hpc. destruct i as [|j]; [discriminate|]. simpl in Hpc.
    apply (Hadj j pc c Hpc Hc).
  - intros nc Hnc. replace (i + 1)%nat with (S i) in Hnc by lia.
    apply (Hadj i c nc Hc Hnc).
Qed.

(** Writing edges that are a floor apart and between the neighbours into
    the list keeps it well formed. *)
Lemma retime_wellFormed cs i c s e :
  wellFormed cs -> cs !! i = Some c ->
  s + MIN_DURATION <= e -> withinNeighbors cs i s e ->
  wellFormed (alter (fun c => {| start := s; end_ := e; text := text c |}) i cs).
Proof.
  intros [Hdur Hadj] Hc Hse [Hprev Hnext]. unfold MIN_DURATION in *. split.
  - intros j d Hd. destruct (decide (i = j)) as [->|Hne].
    + rewrite list_lookup_alter_eq, Hc in Hd. simpl in Hd. injection Hd as <-.
      simpl. unfold MIN_DURATION. split; lra.
    + rewrite list_lookup_alter_ne in Hd by exact Hne. apply (Hdur j d Hd).
  - intros j a b Ha Hb. destruct (decide (i = j)) as [->|Hne].
    + rewrite list_lookup_alter_eq, Hc in Ha. simpl in Ha. injection Ha as <-.
      rewrite list_lookup_alter_ne in Hb by lia. simpl.
      apply Hnext. now replace (j + 1)%nat with (S j) by lia.
    + rewrite list_lookup_alter_ne in Ha by exact Hne.
      destruct (decide (i = S j)) as [->|Hne'].
      * rewrite list_lookup_alter_eq, Hc in Hb. simpl in Hb. injection Hb as <-. simpl.
        apply Hprev. exact Ha.
      * rewrite list_lookup_alter_ne in Hb by exact Hne'. apply (Hadj j a b Ha Hb).
Qed.

(** A resize step of a clip of a well-formed list commits a well-formed list. *)
Lemma resize_step_wellFormed cs duration currentTime pixelsPerSecond ds clientX change c :
  wellFormed cs -> cs !! index ds = Some c ->
  originalStart ds = start c -> originalEnd ds = end_ c ->
  0 <= start c -> end_ c <= duration -> mode ds <> move ->
  handleMouseMove cs duration currentTime pixelsPerSecond (Some ds) clientX = Some change ->
  wellFormed
    (alter (fun c => {| start := newStart change; end_ := newEnd change; text := text c |})
       (changeIndex change) cs).
Proof.
  intros Hwf Hc Hs He H0 Hend Hmode Hmove.
  pose proof (wellFormed_placed cs duration (index ds) c Hwf Hc H0 Hend) as Hplaced.
  rewrite <- Hs, <- He in Hplaced.
  destruct (drag_step_spec _ _ _ _ _ _ _ Hplaced Hmove) as (Hi & _ & _ & _ & Hn & Hmin).
  rewrite Hi. apply (retime_wellFormed cs (index ds) c); auto.
Qed.

(** A nudge of a clip of a well-formed list commits a well-formed list. *)
Lemma nudge_wellFormed cs videoDuration i key shiftKey c change :
  wellFormed cs -> cs !! i = Some c -> 0 <= start c -> end_ c <= videoDuration ->
  handleKeyDown cs videoDuration i key shiftKey = Some change ->
  wellFormed
    (alter (fun c => {| start := newStart change; end_ := newEnd change; text := text c |})
       (changeIndex change) cs).
Proof.
  intros Hwf Hc H0 Hend Hkey.
  destruct (wellFormed_placed cs videoDuration i c Hwf Hc H0 Hend)
    as (_ & Hmin & _ & Hprev & Hnext).
  unfold MIN_DURATION in Hmin.
  destruct (nudge_spec cs videoDuration i key shiftKey c Hc H0) as
    (change' & Hk & Hi & _ & Hd & _ & _ & Hn); [lra | exact Hend | now split |].
  rewrite Hk in Hkey. injection Hkey as <-. rewrite Hi.
  apply (retime_wellFormed cs i c); auto. unfold MIN_DURATION. lra.
Qed.

(** *** The drag scenarios *)

(** Two clips, the first one dragged: [A] over [1, 3] and [B] over [3.5, 5]
    on a 10-second timeline at zoom 1, the playhead parked at 9. *)
Definition twoClips : list Caption := [mkCaption 1 3 "A"; mkCaption (7 # 2) 5 "B"].

(** Pointer down in the middle of clip [A] (drawn from 150px, 300px wide),
    then a move 450 pixels to the right, then the release. *)
Definition draggedPastNeighbor : Editor :=
  let ed := initial {| captions := twoClips; styles := DEFAULT_STYLES |} in
  match handleClipMouseDown twoClips 0 300 150 300 with
  | None => ed
  | Some ds => dragEnd [] ds (dragMove [] 10 9 150 ds 750 ed)
  end.

Lemma twoClips_wellFormed : wellFormed twoClips.
Proof.
  unfold wellFormed, twoClips, MIN_DURATION. split.
  - intros [|[|i]] c Hc; simpl in Hc; try discriminate;
      injection Hc as <-; simpl; lra.
  - intros [|[|i]] a b Ha Hb; simpl in Ha, Hb; try discriminate.
    injection Ha as <-. injection Hb as <-. simpl. lra.
Qed.

(** C1, on the code: a clip moved past its right neighbour. The list the
    drag starts from is well formed and the pointer-down selects mode
    [move]; after the move and the release the dragged clip starts at 4 and
    ends at 3.5, so the committed list no longer has [start < end]. *)
Theorem drag_move_past_neighbor :
  wellFormed twoClips /\
  (mode <$> handleClipMouseDown twoClips 0 300 150 300) = Some move /\
  (exists c,
     captions (view [] draggedPastNeighbor) !! 0%nat = Some c /\
     start c == 4 /\ end_ c == 7 # 2 /\ end_ c < start c) /\
  ~ wellFormed (captions (view [] draggedPastNeighbor)).
Proof.
  split; [exact twoClips_wellFormed|]. split; [reflexivity|].
  assert (Hc : exists c,
             captions (view [] draggedPastNeighbor) !! 0%nat = Some c /\
             start c == 4 /\ end_ c == 7 # 2 /\ end_ c < start c).
  { eexists. split; [vm_compute; reflexivity|]. simpl. repeat split. }
  split; [exact Hc|].
  destruct Hc as (c & Hc & _ & _ & Hinv). intros [Hwf _].
  destruct (Hwf _ _ Hc) as [Hlt _]. lra.
Qed.

(** [A] over [0, 2] with its end edge dragged to 3, where [B] starts; the
    playhead is 1/64 s past that point, within the snap threshold. *)
Definition snapScenario : list Caption := [mkCaption 0 2 "A"; mkCaption 3 5 "B"].
Definition snapDrag : DragState :=
  {| index := 0; mode := resize_end; startX := 0; originalStart := 0; originalEnd := 2 |}.




End Timeline.

(** ** Text layout: the word-wrap loop of [drawText] *)

Module Layout.

Local Open Scope string_scope.

(** [s.split(sep)] for a one-character separator: never empty, and an empty
    piece for every separator at an end or next to another one. *)
Fixpoint split (sep : ascii) (s : string) : list string :=
  match s with
  | EmptyString => [EmptyString]
  | String c rest =>
      if Ascii.eqb c sep then EmptyString :: split sep rest
      else
        match split sep rest with
        | [] => [String c EmptyString]
        | piece :: pieces => String c piece :: pieces
        end
  end.

(** A string in a condition: the empty string is falsy. *)
Definition truthy (s : string) : bool :=
  match s with
  | EmptyString => false
  | String _ _ => true
  end.

(** [const maxWidthPx = (styles.maxWidth / 100) * videoWidth] *)
Definition maxWidthOf (st : StyleOptions) (videoWidth : Q) : Q :=
  (maxWidth st / 100) * videoWidth.

(** A string that [split] leaves in one piece: it has no space in it. *)
Definition isWord (w : string) : Prop := split " " w = [w].

Lemma split_nonempty sep s : exists piece pieces, split sep s = piece :: pieces.
Proof.
  induction s as [|c rest IH]; simpl.
  - now exists EmptyString, [].
  - destruct (Ascii.eqb c sep); [now eexists; eexists|].
    destruct IH as (p & ps & ->). now eexists; eexists.
Qed.

Lemma split_app sep a b :
  split sep (a ++ String sep b) = (split sep a ++ split sep b)%list.
Proof.
  induction a as [|c a IH]; simpl.
  - now rewrite Ascii.eqb_refl.
  - destruct (Ascii.eqb c sep).
    + now rewrite IH.
    + rewrite IH. destruct (split_nonempty sep a) as (p & ps & ->). reflexivity.
Qed.

Lemma join_cons sep p q rest :
  join sep (p :: q :: rest) = p ++ sep ++ join sep (q :: rest).
Proof. reflexivity. Qed.

Lemma join_split sep s : join (String sep EmptyString) (split sep s) = s.
Proof.
  induction s as [|c rest IH]; simpl; [reflexivity|].
  destruct (split_nonempty sep rest) as (p & ps & E). rewrite E in *.
  destruct (Ascii.eqb_spec c sep) as [->|Hne].
  - rewrite join_cons, IH. reflexivity.
  - destruct ps as [|q qs].
    + simpl in *. now rewrite IH.
    + rewrite join_cons in *. rewrite <- IH. reflexivity.
Qed.

Lemma split_pieces sep s : Forall (fun w => split sep w = [w]) (split sep s).
Proof.
  induction s as [|c rest IH]; simpl.
  - now repeat constructor.
  - destruct (Ascii.eqb c sep) eqn:E.
    + constructor; [reflexivity | exact IH].
    + destruct (split_nonempty sep rest) as (p & ps & Es). rewrite Es in *.
      inversion IH as [|? ? Hp Hps]; subst. constructor; [|exact Hps].
      simpl. now rewrite E, Hp.
Qed.

Lemma split_words s : Forall isWord (split " " s).
Proof. apply split_pieces. Qed.







Lemma append_space cur w : cur ++ " " ++ w = cur ++ String " " w.
Proof. reflexivity. Qed.

Lemma split_extend cur w :
  isWord w -> split " " (cur ++ " " ++ w) = (split " " cur ++ [w])%list.
Proof. intros Hw. rewrite append_space, split_app. now rewrite Hw. Qed.




Section Wrap.

(** [ctx.measureText(s).width] under the current font, and the wrap width. *)
Variable measureText : string -> Q.
Variable maxWidthPx : Q.

(** The width model of the idempotence property: a line is as wide as its
    parts and the space between them; widths are not negative and the empty
    string has none. *)
Variable spaceWidth : Q.
Hypothesis measure_words :
  forall l w, measureText (l ++ " " ++ w) == measureText l + spaceWidth + measureText w.
Hypothesis measure_nonneg : forall s, 0 <= measureText s.
Hypothesis measure_empty : measureText "" == 0.

(** The [for (const word of initialLine.split(' '))] loop and the push that
    follows it; [allLines] is shared by all explicit lines. *)
Fixpoint wrapLoop (allLines : list string) (currentLine : string) (words : list string)
    : list string :=
  match words with
  | [] => allLines ++ [currentLine]
  | word :: rest =>
      let testLine := if truthy currentLine then currentLine ++ " " ++ word else word in
      if Qlt_bool maxWidthPx (measureText testLine) && truthy currentLine
      then wrapLoop (allLines ++ [currentLine]) word rest
      else wrapLoop allLines testLine rest
  end.

(** The lines one explicit line is wrapped into. *)
Definition wrapLine (initialLine : string) : list string :=
  wrapLoop [] "" (split " " initialLine).

(** [text.split('\n').forEach(initialLine => { ... })] *)
Definition wrapText (text : string) : list string :=
  fold_left (fun allLines initialLine => wrapLoop allLines "" (split " " initialLine))
            (split "010" text) [].

(** The lines still to be pushed, from the current line and the words left. *)
Fixpoint pending (currentLine : string) (words : list string) : list string :=
  match words with
  | [] => [currentLine]
  | word :: rest =>
      if truthy currentLine then
        if Qlt_bool maxWidthPx (measureText (currentLine ++ " " ++ word))
        then currentLine :: pending word rest
        else pending (currentLine ++ " " ++ word) rest
      else pending word rest
  end.


(** Every cut of the line after a word other than its first fits the width. *)
Definition fitsWidth (line : string) : Prop :=
  forall k, (2 <= k <= length (split " " line))%nat ->
    measureText (join " " (take k (split " " line))) <= maxWidthPx.


Lemma wrapLoop_pending words : forall allLines currentLine,
  wrapLoop allLines currentLine words = (allLines ++ pending currentLine words)%list.
Proof.
  induction words as [|w ws IH]; intros acc cur; simpl; [reflexivity|].
  destruct (truthy cur).
  - rewrite andb_true_r. destruct (Qlt_bool _ _).
    + rewrite IH. now rewrite <- app_assoc.
    + apply IH.
  - rewrite andb_false_r. apply IH.
Qed.

Lemma wrapLine_pending line : wrapLine line = pending "" (split " " line).
Proof. unfold wrapLine. now rewrite wrapLoop_pending. Qed.

(** Each explicit line is wrapped on its own: the lines of a text are the
    lines of its explicit lines, in order. *)
Lemma wrapText_per_line text :
  wrapText text = concat (map wrapLine (split "010" text)).
Proof.
  unfold wrapText.
  assert (H : forall ls acc,
             fold_left (fun allLines initialLine =>
                          wrapLoop allLines "" (split " " initialLine)) ls acc =
             (acc ++ concat (map wrapLine ls))%list).
  { induction ls as [|l ls IH]; intros acc; simpl.
    - now rewrite app_nil_r.
    - rewrite IH, wrapLoop_pending, wrapLine_pending. now rewrite <- app_assoc. }
  apply H.
Qed.













Lemma fitsWidth_one w : isWord w -> fitsWidth w.
Proof. intros Hw k Hk. rewrite Hw in Hk. simpl in Hk. lia. Qed.

Lemma fitsWidth_extend cur w :
  fitsWidth cur -> isWord w ->
  Qlt_bool maxWidthPx (measureText (cur ++ " " ++ w)) = false ->
  fitsWidth (cur ++ " " ++ w).
Proof.
  intros Hcur Hw Hfit k Hk. apply Qlt_bool_false in Hfit.
  rewrite split_extend in * by exact Hw. rewrite length_app in Hk. simpl in Hk.
  destruct (decide (k <= length (split " " cur))%nat) as [Hle|Hgt].
  - rewrite take_app_le by exact Hle. apply Hcur. lia.
  - rewrite take_ge by (rewrite length_app; simpl; lia).
    rewrite <- split_extend by exact Hw.
    rewrite (join_split " " (cur ++ " " ++ w)). exact Hfit.
Qed.

Lemma fits_pending words : forall cur,
  Forall isWord words -> fitsWidth cur -> Forall fitsWidth (pending cur words).
Proof.
  induction words as [|w ws IH]; intros cur Hws Hcur.
  - simpl. now constructor.
  - inversion Hws as [|? ? Hw Hws']; subst. simpl.
    destruct (truthy cur).
    + destruct (Qlt_bool _ _) eqn:Efit.
      * constructor; [exact Hcur|]. apply IH; [exact Hws' | now apply fitsWidth_one].
      * apply IH; [exact Hws' | now apply fitsWidth_extend].
    + apply IH; [exact Hws' | now apply fitsWidth_one].
Qed.









End Wrap.

(** A fixed-pitch measure for examples: one unit per character. *)
Definition monospace (s : string) : Q := inject_Z (Z.of_nat (String.length s)).

Example wrap_greedy :
  wrapLine monospace 9 "the quick brown fox" = ["the quick"; "brown fox"].
Proof. vm_compute. reflexivity. Qed.

Example wrap_long_word :
  wrapLine monospace 5 "a supercalifragilistic b" = ["a"; "supercalifragilistic"; "b"].
Proof. vm_compute. reflexivity. Qed.

Example wrap_spaces :
  wrapLine monospace 1 " a  b " = ["a"; "b"; ""].
Proof. vm_compute. reflexivity. Qed.

Lemma string_length_append a b :
  String.length (a ++ b) = (String.length a + String.length b)%nat.
Proof. induction a as [|c a IH]; simpl; [reflexivity | now rewrite IH]. Qed.





End Layout.

(** ** More on the history: what undo reaches after a commit and a gesture *)

Module Snapshots.

Import History.

(** The snapshot a run of merged writes leaves under the cursor. *)
Definition mergedResult (merged : list (EditorState -> EditorState)) (s : EditorState)
    : EditorState :=
  fold_left (fun st updater => updater st) merged s.

Lemma split_at_cursor ed s :
  currentState ed = Some s ->
  ed = {| history := take (historyIndex ed) (history ed) ++ s :: drop (S (historyIndex ed)) (history ed);
          historyIndex := length (take (historyIndex ed) (history ed)) |}.
Proof.
  unfold currentState. intros Hs. destruct ed as [h i]. simpl in *.
  pose proof (lookup_lt_Some _ _ _ Hs) as Hlt.
  rewrite length_take, Nat.min_l by lia. f_equal.
  rewrite <- (take_drop_middle h i s Hs) at 1. reflexivity.
Qed.

Lemma merged_run_at pre x post merged :
  fold_left (fun e updater => updateState updater true e) merged
    {| history := pre ++ x :: post; historyIndex := length pre |} =
  match merged with
  | [] => {| history := pre ++ x :: post; historyIndex := length pre |}
  | _ => {| history := pre ++ [mergedResult merged x]; historyIndex := length pre |}
  end.
Proof.
  assert (Hstep : forall u y rest,
            updateState u true {| history := pre ++ y :: rest; historyIndex := length pre |} =
            {| history := pre ++ [u y]; historyIndex := length pre |}).
  { intros u y rest. unfold updateState. simpl.
    rewrite lookup_app_r by lia. rewrite Nat.sub_diag. simpl.
    rewrite take_app_length. reflexivity. }
  destruct merged as [|u us]; [reflexivity|].
  cbn [fold_left]. rewrite Hstep. unfold mergedResult. cbn [fold_left].
  generalize (u x). clear u x post.
  induction us as [|u' us IH]; intros y; [reflexivity|].
  cbn [fold_left]. rewrite Hstep. apply IH.
Qed.

Lemma commit_at pre x post final :
  updateState final false {| history := pre ++ x :: post; historyIndex := length pre |} =
  {| history := pre ++ [x; final x]; historyIndex := (length pre + 1)%nat |}.
Proof.
  unfold updateState. simpl.
  rewrite lookup_app_r by lia. rewrite Nat.sub_diag. simpl.
  replace (length pre + 1)%nat with (length (pre ++ [x])) by (rewrite length_app; simpl; lia).
  replace (pre ++ x :: post) with ((pre ++ [x]) ++ post) by (now rewrite <- app_assoc).
  rewrite take_app_length. now rewrite <- app_assoc.
Qed.

Lemma lookup_cursor_after pre (x y : EditorState) :
  (pre ++ [x; y]) !! length pre = Some x /\ (pre ++ [x; y]) !! (length pre + 1)%nat = Some y.
Proof.
  split.
  - rewrite lookup_app_r by lia. now rewrite Nat.sub_diag.
  - rewrite lookup_app_r by lia. now replace (length pre + 1 - length pre)%nat with 1%nat by lia.
Qed.

Lemma gesture_shape ed s merged final :
  currentState ed = Some s -> merged <> [] ->
  gesture merged final ed =
  {| history := take (historyIndex ed) (history ed) ++
                [mergedResult merged s; final (mergedResult merged s)];
     historyIndex := (historyIndex ed + 1)%nat |}.
Proof.
  intros Hs Hne. unfold gesture.
  pose proof (split_at_cursor ed s Hs) as E.
  set (pre := take (historyIndex ed) (history ed)) in *.
  set (post := drop (S (historyIndex ed)) (history ed)) in *.
  assert (Hpre : length pre = historyIndex ed).
  { unfold pre, currentState in *. apply lookup_lt_Some in Hs.
    rewrite length_take. lia. }
  replace (fold_left (fun e updater => updateState updater true e) merged ed)
    with (fold_left (fun e updater => updateState updater true e) merged
            {| history := pre ++ s :: post; historyIndex := length pre |})
    by (now rewrite <- E).
  rewrite merged_run_at. destruct merged as [|u us]; [congruence|].
  rewrite (commit_at pre _ []). now rewrite Hpre.
Qed.

(** X1: A non-merged commit is one undo step: undo shows the snapshot that was
    current before it, redo after that shows the committed one, and right
    after the commit there is nothing to redo. *)
Theorem commit_then_undo (ed : Editor) (s : EditorState) (updater : EditorState -> EditorState) :
  currentState ed = Some s ->
  currentState (updateState updater false ed) = Some (updater s) /\
  canRedo (updateState updater false ed) = false /\
  currentState (undo (updateState updater false ed)) = Some s /\
  currentState (redo (undo (updateState updater false ed))) = Some (updater s).
Proof.
  intros Hs. rewrite (split_at_cursor ed s Hs).
  set (pre := take (historyIndex ed) (history ed)).
  set (post := drop (S (historyIndex ed)) (history ed)).
  rewrite commit_at.
  destruct (lookup_cursor_after pre s (updater s)) as [H0 H1].
  assert (Hlen : length (pre ++ [s; updater s]) = (length pre + 2)%nat)
    by (rewrite length_app; simpl; lia).
  unfold currentState, undo, redo, canUndo, canRedo; cbn [history historyIndex].
  rewrite Hlen.
  destruct (Nat.ltb_spec 0 (length pre + 1)); [|lia].
  cbn [history historyIndex].
  replace (length pre + 1 - 1)%nat with (length pre) by lia.
  destruct (Z.ltb_spec (Z.of_nat (length pre + 1)) (Z.of_nat (length pre + 2) - 1)); [lia|].
  destruct (Z.ltb_spec (Z.of_nat (length pre)) (Z.of_nat (length pre + 2) - 1)); [|lia].
  cbn [history historyIndex]. rewrite Hlen.
  destruct (Z.ltb_spec (Z.of_nat (length pre)) (Z.of_nat (length pre + 2) - 1)); [|lia].
  cbn [history historyIndex]. auto.
Qed.

Lemma commit_then_undo_witness :
  currentState (undo (updateState (fun _ => blank) false (initial blank))) = Some blank.
Proof.
  destruct (commit_then_undo (initial blank) blank (fun _ => blank)) as (_ & _ & H & _).
  - reflexivity.
  - exact H.
Defined.

(** X2: A gesture with at least one merged write overwrites the snapshot it
    started from: after the closing commit, undo shows the result of the
    merged writes, not the snapshot from before the gesture; when the
    closing commit changes nothing (pointer-up, key-up), undo shows what is
    already on screen. *)
Theorem gesture_undo_shows_merged (ed : Editor) (s : EditorState)
    (merged : list (EditorState -> EditorState)) (final : EditorState -> EditorState) :
  currentState ed = Some s ->
  merged <> [] ->
  currentState (gesture merged final ed) = Some (final (mergedResult merged s)) /\
  currentState (undo (gesture merged final ed)) = Some (mergedResult merged s) /\
  history (gesture merged final ed) =
    take (historyIndex ed) (history ed) ++ [mergedResult merged s; final (mergedResult merged s)] /\
  (final (mergedResult merged s) = mergedResult merged s ->
   currentState (undo (gesture merged final ed)) = currentState (gesture merged final ed)).
Proof.
  intros Hs Hne.
  rewrite (gesture_shape ed s merged final Hs Hne).
  set (pre := take (historyIndex ed) (history ed)).
  set (y := mergedResult merged s).
  assert (Hpre : length pre = historyIndex ed).
  { unfold pre, currentState in *. apply lookup_lt_Some in Hs.
    rewrite length_take. lia. }
  rewrite <- Hpre.
  destruct (lookup_cursor_after pre y (final y)) as [H0 H1].
  assert (Hu : currentState (undo {| history := pre ++ [y; final y];
                                     historyIndex := (length pre + 1)%nat |}) = Some y).
  { unfold currentState, undo, canUndo; cbn [history historyIndex].
    destruct (Nat.ltb_spec 0 (length pre + 1)); [|lia]. cbn [history historyIndex].
    now replace (length pre + 1 - 1)%nat with (length pre) by lia. }
  split; [exact H1|]. split; [exact Hu|]. split; [reflexivity|].
  intros Hsame. rewrite Hu. unfold currentState; cbn [history historyIndex].
  rewrite H1. now rewrite Hsame.
Qed.

Lemma gesture_undo_shows_merged_witness :
  let moved := {| captions := [mkCaption 1 2 "A"]; styles := DEFAULT_STYLES |} in
  currentState (undo (gesture [fun _ => moved] id (initial blank))) = Some moved.
Proof.
  intros moved.
  destruct (gesture_undo_shows_merged (initial blank) blank [fun _ => moved] id)
    as (_ & H & _).
  - reflexivity.
  - discriminate.
  - exact H.
Defined.

End Snapshots.

(** ** More caption-list edits: delete, merge, the sort, and what they keep *)

Module CaptionList.

Import History Editing Timeline.

(** [handleDeleteCaption(index)]: [splice(index, 1)] in a non-merged commit
    (the handler also clears the selection, which is not editor state). *)
Definition handleDeleteCaption (index : nat) (ed : Editor) : Editor :=
  updateState
    (fun prev => {| captions := delete index (captions prev); styles := styles prev |})
    false ed.

(** White space as [String.prototype.trim] sees it, among the code units
    below 256: tab, line feed, vertical tab, form feed, carriage return,
    space and no-break space. *)
Definition isWhiteSpace (c : ascii) : bool :=
  let n := nat_of_ascii c in
  ((9 <=? n) && (n <=? 13) || (n =? 32) || (n =? 160))%nat.

Fixpoint trimStart (s : string) : string :=
  match s with
  | EmptyString => EmptyString
  | String c rest => if isWhiteSpace c then trimStart rest else s
  end.

Fixpoint trimEnd (s : string) : string :=
  match s with
  | EmptyString => EmptyString
  | String c rest =>
      match trimEnd rest with
      | EmptyString => if isWhiteSpace c then EmptyString else String c EmptyString
      | kept => String c kept
      end
  end.

(** [s.trim()] *)
Definition trim (s : string) : string := trimEnd (trimStart s).

(** The caption [handleMergeCaption] builds from two neighbours. *)
Definition mergedCaption (first second : Caption) : Caption :=
  {| start := start first; end_ := end_ second;
     text := trim (text first ++ " " ++ text second) |}.

(** The updater of [handleMergeCaption]: [splice(index, 2, merged)]. The two
    captions exist whenever the handler's guard has passed. *)
Definition mergeUpdater (index : nat) (prev : EditorState) : EditorState :=
  match captions prev !! index, captions prev !! (index + 1)%nat with
  | Some first, Some second =>
      {| captions :=
           take index (captions prev) ++ [mergedCaption first second] ++
           drop (index + 2) (captions prev);
         styles := styles prev |}
  | _, _ => prev
  end.

(** [handleMergeCaption(index)] *)
Definition handleMergeCaption (sortedCaptions : list Caption) (index : nat) (ed : Editor)
    : Editor :=
  if (length (captions (view sortedCaptions ed)) <=? index + 1)%nat then ed
  else updateState (mergeUpdater index) false ed.

(** *** Lists as chains *)

(** Neighbours in list order do not overlap. *)
Fixpoint adjacentOk (cs : list Caption) : Prop :=
  match cs with
  | a :: (b :: _) as rest => end_ a <= start b /\ adjacentOk rest
  | _ => True
  end.

(** The weaker invariant an edit may keep: every caption has positive
    length and neighbours do not overlap. *)
Definition ordered (cs : list Caption) : Prop :=
  Forall (fun c => start c < end_ c) cs /\ adjacentOk cs.

Definition longEnough (c : Caption) : Prop :=
  start c < end_ c /\ MIN_DURATION <= end_ c - start c.

(** The end of one piece does not pass the start of the next. *)
Definition link (a b : option Caption) : Prop :=
  match a, b with
  | Some a, Some b => end_ a <= start b
  | _, _ => True
  end.

Lemma adjacentOk_lookup cs :
  adjacentOk cs <->
  (forall i p c, cs !! i = Some p -> cs !! S i = Some c -> end_ p <= start c).
Proof.
  induction cs as [|a [|b rest] IH].
  - split; [intros _ i p c H; simpl in H; discriminate | intros _; exact I].
  - split; [|intros _; exact I].
    intros _ [|i] p c H1 H2; simpl in H2; discriminate.
  - split.
    + intros [Hab Hrest] [|i] p c Hp Hc.
      * simpl in Hp, Hc. injection Hp as <-. injection Hc as <-. exact Hab.
      * apply (proj1 IH Hrest i p c); assumption.
    + intros H. split.
      * apply (H 0%nat a b); reflexivity.
      * apply IH. intros i p c Hp Hc. apply (H (S i) p c); assumption.
Qed.

Lemma wellFormed_chain cs : wellFormed cs <-> Forall longEnough cs /\ adjacentOk cs.
Proof.
  unfold wellFormed. rewrite adjacentOk_lookup, Forall_lookup. reflexivity.
Qed.

Lemma adjacentOk_app l1 l2 :
  adjacentOk (l1 ++ l2) <-> adjacentOk l1 /\ adjacentOk l2 /\ link (last l1) (head l2).
Proof.
  induction l1 as [|a [|b rest] IH].
  - simpl. destruct l2; simpl; tauto.
  - destruct l2 as [|c l2]; simpl; [tauto|].
    destruct l2; simpl; tauto.
  - change ((a :: b :: rest) ++ l2) with (a :: (b :: rest) ++ l2).
    change (adjacentOk (a :: (b :: rest) ++ l2))
      with (end_ a <= start b /\ adjacentOk ((b :: rest) ++ l2)).
    rewrite IH. change (last (a :: b :: rest)) with (last (b :: rest)).
    change (adjacentOk (a :: b :: rest)) with (end_ a <= start b /\ adjacentOk (b :: rest)).
    tauto.
Qed.

Lemma last_take {A} (l : list A) i : (i <= length l)%nat -> last (take i l) = before l i.
Proof.
  intros Hi. destruct i as [|j]; [now rewrite take_0|].
  rewrite last_lookup, length_take, Nat.min_l by lia. simpl.
  apply lookup_take_lt. lia.
Qed.

Lemma head_drop {A} (l : list A) i : head (drop i l) = l !! i.
Proof. rewrite head_lookup, lookup_drop. f_equal. lia. Qed.

(** Replacing a run of captions by another keeps a chain a chain when the
    new run is one and links to what is before and after it. *)
Lemma chain_splice (ok : Caption -> Prop) pre mid mid' post :
  Forall ok (pre ++ mid ++ post) -> adjacentOk (pre ++ mid ++ post) ->
  Forall ok mid' -> adjacentOk mid' ->
  link (last pre) (head (mid' ++ post)) -> link (last mid') (head post) ->
  Forall ok (pre ++ mid' ++ post) /\ adjacentOk (pre ++ mid' ++ post).
Proof.
  rewrite !Forall_app, !adjacentOk_app.
  intros (Hpre & _ & Hpost) (Apre & (_ & Apost & _) & _) Hmid Amid L1 L2.
  repeat split; assumption.
Qed.

Lemma chain_middle (ok : Caption -> Prop) pre mid post :
  Forall ok (pre ++ mid ++ post) -> adjacentOk (pre ++ mid ++ post) ->
  Forall ok mid /\ adjacentOk mid /\
  link (last pre) (head (mid ++ post)) /\ link (last mid) (head post).
Proof.
  rewrite !Forall_app, !adjacentOk_app.
  intros (_ & Hmid & _) (_ & (Amid & _ & L2) & L1). repeat split; assumption.
Qed.

Lemma two_at {A} (l : list A) i a b :
  l !! i = Some a -> l !! (i + 1)%nat = Some b ->
  l = take i l ++ [a; b] ++ drop (i + 2) l.
Proof.
  intros Ha Hb. replace (i + 1)%nat with (S i) in Hb by lia.
  replace (i + 2)%nat with (S (S i)) by lia.
  rewrite <- (take_drop i l) at 1. f_equal.
  rewrite (drop_S l a i Ha), (drop_S l b (S i) Hb). reflexivity.
Qed.

Lemma delete_past_end {A} (l : list A) i : (length l <= i)%nat -> delete i l = l.
Proof.
  intros Hi. rewrite delete_take_drop, take_ge, drop_ge by lia. apply app_nil_r.
Qed.

Lemma delete_wellFormed cs i : wellFormed cs -> wellFormed (delete i cs).
Proof.
  intros Hwf. destruct (cs !! i) as [c|] eqn:Hc.
  - rewrite delete_take_drop.
    apply wellFormed_chain in Hwf as [Hok Hadj]. apply wellFormed_chain.
    pose proof (take_drop_middle cs i c Hc) as Hdec.
    set (pre := take i cs) in *. set (post := drop (S i) cs) in *. clearbody pre post.
    subst cs. change (c :: post) with ([c] ++ post) in Hok, Hadj.
    destruct (chain_middle _ pre [c] post Hok Hadj) as (Hc1 & _ & L1 & L2).
    assert (Hl : link (last pre) (head post)).
    { simpl in *. inversion Hc1 as [|? ? [Hlt _] _]; subst.
      destruct (last pre) as [a|], (head post) as [b|]; simpl in *; try exact I. lra. }
    apply (chain_splice longEnough pre [c] [] post Hok Hadj);
      [constructor | exact I | exact Hl | exact I].
  - apply lookup_ge_None in Hc. now rewrite delete_past_end.
Qed.

(** X3: Deleting removes exactly the caption at [index]: the ones before it
    stay, the ones after it move down by one, the styles stay, and a
    well-formed list stays well formed. An index past the end removes
    nothing (the commit is still made). *)
Theorem delete_caption (ed : Editor) (s : EditorState) (index : nat) :
  currentState ed = Some s ->
  exists s',
    currentState (handleDeleteCaption index ed) = Some s' /\
    styles s' = styles s /\
    (forall j, (j < index)%nat -> captions s' !! j = captions s !! j) /\
    (forall j, (index <= j)%nat -> captions s' !! j = captions s !! S j) /\
    ((index < length (captions s))%nat ->
       S (length (captions s')) = length (captions s)) /\
    ((length (captions s) <= index)%nat -> captions s' = captions s) /\
    (wellFormed (captions s) -> wellFormed (captions s')).
Proof.
  intros Hs. eexists. split; [apply (commit_current _ _ _ Hs)|]. cbn [captions styles].
  split; [reflexivity|]. split; [|split; [|split; [|split]]].
  - intros j Hj. now apply list_lookup_delete_lt.
  - intros j Hj. now apply list_lookup_delete_ge.
  - intros Hi. rewrite length_delete by now apply lookup_lt_is_Some_2. lia.
  - intros Hi. now apply delete_past_end.
  - apply delete_wellFormed.
Qed.

Lemma delete_caption_witness :
  let s := {| captions := twoClips; styles := DEFAULT_STYLES |} in
  exists s',
    currentState (handleDeleteCaption 0 (initial s)) = Some s' /\
    captions s' !! 0%nat = twoClips !! 1%nat.
Proof.
  intros s.
  destruct (delete_caption (initial s) s 0) as (s' & H1 & _ & _ & H4 & _).
  - reflexivity.
  - exists s'. split; [exact H1|]. apply H4. lia.
Defined.

Lemma merged_longEnough a b :
  longEnough a -> longEnough b -> end_ a <= start b -> longEnough (mergedCaption a b).
Proof. unfold longEnough, mergedCaption, MIN_DURATION. simpl. lra. Qed.

(** X4: Merging replaces the captions at [index] and [index + 1] by one that
    runs from the start of the first to the end of the second, with the two
    texts joined by a space and trimmed; the list is one shorter, the styles
    stay, and a well-formed list stays well formed. On the last caption (or
    past the end) the handler returns without a commit. *)
Theorem merge_caption (sortedCaptions : list Caption) (ed : Editor) (s : EditorState)
    (index : nat) :
  currentState ed = Some s ->
  (forall a b,
     captions s !! index = Some a -> captions s !! (index + 1)%nat = Some b ->
     exists s',
       currentState (handleMergeCaption sortedCaptions index ed) = Some s' /\
       styles s' = styles s /\
       captions s' =
         take index (captions s) ++
         [{| start := start a; end_ := end_ b; text := trim (text a ++ " " ++ text b) |}] ++
         drop (index + 2) (captions s) /\
       S (length (captions s')) = length (captions s) /\
       (wellFormed (captions s) -> wellFormed (captions s'))) /\
  ((length (captions s) <= index + 1)%nat ->
     handleMergeCaption sortedCaptions index ed = ed).
Proof.
  intros Hs. unfold handleMergeCaption. rewrite (view_current _ _ _ Hs). split.
  - intros a b Ha Hb.
    pose proof (lookup_lt_Some _ _ _ Hb) as Hlt.
    destruct (Nat.leb_spec (length (captions s)) (index + 1)); [lia|].
    exists (mergeUpdater index s). split; [apply (commit_current _ _ _ Hs)|].
    unfold mergeUpdater. rewrite Ha, Hb. cbn [captions styles].
    split; [reflexivity|]. split; [reflexivity|].
    pose proof (two_at _ _ _ _ Ha Hb) as Hdec.
    set (pre := take index (captions s)) in *.
    set (post := drop (index + 2) (captions s)) in *. clearbody pre post.
    split.
    + rewrite Hdec. rewrite !length_app. simpl. lia.
    + intros Hwf. rewrite Hdec in Hwf.
      apply wellFormed_chain in Hwf as [Hok Hadj]. apply wellFormed_chain.
      destruct (chain_middle _ pre [a; b] post Hok Hadj) as (Hab & Aab & L1 & L2).
      inversion Hab as [|? ? Hoa Hb']; subst. inversion Hb' as [|? ? Hob _]; subst.
      destruct Aab as [Hlink _].
      apply (chain_splice longEnough pre [a; b] [mergedCaption a b] post Hok Hadj).
      * constructor; [|constructor]. now apply merged_longEnough.
      * exact I.
      * simpl in *. destruct (last pre); exact L1.
      * simpl in *. exact L2.
  - intros Hlen. destruct (Nat.leb_spec (length (captions s)) (index + 1)); [reflexivity|lia].
Qed.

Lemma merge_caption_witness :
  let s := {| captions := twoClips; styles := DEFAULT_STYLES |} in
  exists s',
    currentState (handleMergeCaption [] 0 (initial s)) = Some s' /\
    captions s' = [mkCaption 1 5 "A B"].
Proof.
  intros s.
  destruct (merge_caption [] (initial s) s 0) as [H _]; [reflexivity|].
  destruct (H (mkCaption 1 3 "A") (mkCaption (7 # 2) 5 "B")) as (s' & H1 & _ & H3 & _).
  - reflexivity.
  - reflexivity.
  - exists s'. split; [exact H1 | exact H3].
Defined.

(** *** The sort by start time *)

Definition startLe (a b : Caption) : Prop := start a <= start b.

Definition startsAt (q : Q) (c : Caption) : bool := Qeq_bool (start c) q.

Lemma insertByStart_perm c l : Permutation (insertByStart c l) (c :: l).
Proof.
  induction l as [|d rest IH]; simpl; [reflexivity|].
  destruct (Qle_bool (start c) (start d)); [reflexivity|].
  rewrite IH. apply perm_swap.
Qed.

Lemma insertByStart_hd c d l :
  startLe d c -> HdRel startLe d l -> HdRel startLe d (insertByStart c l).
Proof.
  intros Hdc Hd. destruct l as [|e rest]; simpl; [now constructor|].
  destruct (Qle_bool (start c) (start e)); constructor; [exact Hdc|].
  now inversion Hd.
Qed.

Lemma insertByStart_sorted c l :
  Sorted startLe l -> Sorted startLe (insertByStart c l).
Proof.
  induction 1 as [|d rest Hrest IH Hd]; simpl; [repeat constructor|].
  destruct (Qle_bool (start c) (start d)) eqn:E.
  - apply Qle_bool_iff in E. constructor; [now constructor | now constructor].
  - apply Qle_bool_false in E. constructor; [exact IH|].
    apply insertByStart_hd; [unfold startLe; lra | exact Hd].
Qed.

Lemma insertByStart_stable q c l :
  List.filter (startsAt q) (insertByStart c l) = List.filter (startsAt q) (c :: l).
Proof.
  induction l as [|d rest IH]; [reflexivity|].
  cbn [insertByStart]. destruct (Qle_bool (start c) (start d)) eqn:E; [reflexivity|].
  apply Qle_bool_false in E. cbn [List.filter] in *. rewrite IH.
  unfold startsAt.
  destruct (Qeq_bool (start c) q) eqn:Ec; [|reflexivity].
  destruct (Qeq_bool (start d) q) eqn:Ed; [|reflexivity].
  apply Qeq_bool_iff in Ec, Ed. lra.
Qed.

Lemma insertByStart_first c l : HdRel startLe c l -> insertByStart c l = c :: l.
Proof.
  intros Hc. destruct l as [|d rest]; [reflexivity|]. simpl.
  inversion Hc as [|? ? Hcd]; subst. unfold startLe in Hcd.
  apply Qle_bool_iff in Hcd. now rewrite Hcd.
Qed.

Lemma sortByStart_fixed l : Sorted startLe l -> sortByStart l = l.
Proof.
  induction 1 as [|c rest Hrest IH Hc]; [reflexivity|].
  unfold sortByStart in *. cbn [foldr]. rewrite IH. now apply insertByStart_first.
Qed.

Lemma chain_sorted cs :
  Forall (fun c => start c < end_ c) cs -> adjacentOk cs -> Sorted startLe cs.
Proof.
  induction cs as [|a [|b rest] IH]; intros Hok Hadj.
  - constructor.
  - repeat constructor.
  - inversion Hok as [|? ? Ha Hrest]; subst. destruct Hadj as [Hab Hadj].
    constructor; [now apply IH|]. constructor. unfold startLe. lra.
Qed.

(** X5: The sort applied to the incoming captions and before an insertion
    returns the same captions ordered by start time, keeps captions with
    equal start times in their original order, and leaves an ordered list
    as it is. *)
Theorem sort_captions (l : list Caption) :
  Permutation (sortByStart l) l /\
  Sorted startLe (sortByStart l) /\
  (forall q, List.filter (startsAt q) (sortByStart l) = List.filter (startsAt q) l) /\
  (Sorted startLe l -> sortByStart l = l).
Proof.
  split; [|split; [|split]].
  - induction l as [|c rest IH]; [reflexivity|].
    unfold sortByStart in *. cbn [foldr]. rewrite insertByStart_perm. now rewrite IH.
  - induction l as [|c rest IH]; [constructor|].
    unfold sortByStart in *. cbn [foldr]. now apply insertByStart_sorted.
  - intros q. induction l as [|c rest IH]; [reflexivity|].
    unfold sortByStart in *. cbn [foldr]. rewrite insertByStart_stable.
    cbn [List.filter]. now rewrite IH.
  - apply sortByStart_fixed.
Qed.

(** *** Adding a caption *)

Lemma findIndex_lt {A} (p : A -> bool) l i : findIndex p l = Some i -> (i < length l)%nat.
Proof.
  revert i. induction l as [|a rest IH]; intros i; simpl; [discriminate|].
  destruct (p a); [intros [= <-]; lia|].
  destruct (findIndex p rest) as [j|]; simpl; [|discriminate].
  intros [= <-]. specialize (IH j eq_refl). lia.
Qed.

Lemma wellFormed_sorted cs : wellFormed cs -> sortByStart cs = cs.
Proof.
  intros Hwf. apply wellFormed_chain in Hwf as [Hok Hadj].
  apply sortByStart_fixed, chain_sorted; [|exact Hadj].
  eapply Forall_impl; [exact Hok|]. now intros c [H _].
Qed.

Lemma insert_wellFormed cs i c :
  wellFormed cs -> longEnough c ->
  link (before cs i) (Some c) -> link (Some c) (cs !! i) -> (i <= length cs)%nat ->
  wellFormed (take i cs ++ [c] ++ drop i cs).
Proof.
  intros Hwf Hc L1 L2 Hi. apply wellFormed_chain in Hwf as [Hok Hadj].
  apply wellFormed_chain.
  rewrite <- (take_drop i cs) in Hok, Hadj.
  apply (chain_splice longEnough (take i cs) [] [c] (drop i cs) Hok Hadj).
  - now constructor.
  - exact I.
  - rewrite last_take by exact Hi. exact L1.
  - rewrite head_drop. exact L2.
Qed.

Lemma addUpdater_outcome (time videoDuration : Q) (s : EditorState) :
  wellFormed (captions s) ->
  styles (fst (addUpdater time videoDuration s)) = styles s /\
  wellFormed (captions (fst (addUpdater time videoDuration s))) /\
  ((snd (addUpdater time videoDuration s) = [notice] /\
    fst (addUpdater time videoDuration s) = s) \/
   (snd (addUpdater time videoDuration s) = [] /\
    exists i c,
      (i <= length (captions s))%nat /\
      captions (fst (addUpdater time videoDuration s)) =
        take i (captions s) ++ [c] ++ drop i (captions s) /\
      text c = "New Caption"%string /\
      time <= start c /\ end_ c <= videoDuration /\ end_ c <= time + 2 /\
      MIN_DURATION <= end_ c - start c)).
Proof.
  intros Hwf. unfold addUpdater. rewrite (wellFormed_sorted _ Hwf). cbv zeta.
  set (cs := captions s) in *.
  pose proof (Q.le_min_l (time + 2) videoDuration) as Hm1.
  pose proof (Q.le_min_r (time + 2) videoDuration) as Hm2.
  set (e0 := Qmin (time + 2) videoDuration) in *. clearbody e0.
  destruct (findIndex _ cs) as [i|] eqn:Ef.
  - apply findIndex_lt in Ef.
    match goal with
    | |- context [Qlt_bool (?e - ?b) (1 # 10)] => set (ns := b); set (ne := e)
    end.
    assert (Hns : time <= ns /\ link (before cs i) (Some (mkCaption ns ne "New Caption"))).
    { subst ns. destruct (before cs i) as [pc|]; simpl; [|split; [lra | exact I]].
      case_compare; simpl; split; lra. }
    assert (Hne : ne <= e0 /\ link (Some (mkCaption ns ne "New Caption")) (cs !! i)).
    { subst ne. destruct (cs !! i) as [nc|]; simpl; [|split; [lra | exact I]].
      case_compare; simpl; split; lra. }
    clearbody ns ne. destruct Hns as [Hns L1]. destruct Hne as [Hne L2].
    case_compare; cbn [fst snd captions styles].
    + split; [reflexivity|]. split; [exact Hwf|]. left. now split.
    + split; [reflexivity|]. split.
      * apply insert_wellFormed; auto; [|lia].
        unfold longEnough, MIN_DURATION. simpl. lra.
      * right. split; [reflexivity|].
        exists i, (mkCaption ns ne "New Caption"). unfold MIN_DURATION. simpl.
        repeat split; try lra. lia.
  - match goal with
    | |- context [Qlt_bool (e0 - ?b) (1 # 10)] => set (ns := b)
    end.
    assert (Hns : time <= ns /\ link (last cs) (Some (mkCaption ns e0 "New Caption"))).
    { subst ns. destruct (last cs) as [lc|]; simpl; [|split; [lra | exact I]].
      case_compare; simpl; split; lra. }
    clearbody ns. destruct Hns as [Hns L1].
    case_compare; cbn [fst snd captions styles].
    + split; [reflexivity|]. split; [exact Hwf|]. left. now split.
    + assert (Hshape : cs ++ [mkCaption ns e0 "New Caption"] =
                       take (length cs) cs ++ [mkCaption ns e0 "New Caption"] ++
                       drop (length cs) cs).
      { rewrite take_ge, drop_ge by lia. reflexivity. }
      split; [reflexivity|]. split.
      * rewrite Hshape. apply insert_wellFormed; auto.
        -- unfold longEnough, MIN_DURATION. simpl. lra.
        -- rewrite <- last_take by lia. now rewrite take_ge by lia.
        -- rewrite lookup_ge_None_2 by lia. exact I.
      * right. split; [reflexivity|].
        exists (length cs), (mkCaption ns e0 "New Caption"). unfold MIN_DURATION. simpl.
        repeat split; try lra; [lia | exact Hshape].
Qed.

(** X6: Adding at the playhead from a well-formed list ends in one of two ways:
    the notice is shown and the captions are the old ones, or exactly one
    caption "New Caption" is inserted, starting at or after the playhead,
    ending within the video and at most 2 s after the playhead, at least
    0.1 s long. Either way the styles stay and the list is well formed. *)
Theorem add_caption_outcome (time : option Q) (videoDuration : Q) (ed : Editor)
    (s : EditorState) :
  currentState ed = Some s ->
  wellFormed (captions s) ->
  exists s',
    currentState (fst (handleAddCaption time videoDuration ed)) = Some s' /\
    styles s' = styles s /\
    wellFormed (captions s') /\
    ((snd (handleAddCaption time videoDuration ed) = [notice] /\ s' = s) \/
     (snd (handleAddCaption time videoDuration ed) = [] /\
      exists i c,
        (i <= length (captions s))%nat /\
        captions s' = take i (captions s) ++ [c] ++ drop i (captions s) /\
        text c = "New Caption"%string /\
        default 0 time <= start c /\ end_ c <= videoDuration /\
        end_ c <= default 0 time + 2 /\
        MIN_DURATION <= end_ c - start c)).
Proof.
  intros Hs Hwf. unfold handleAddCaption. cbn [fst snd]. rewrite Hs.
  exists (fst (addUpdater (default 0 time) videoDuration s)).
  split;
    [exact (commit_current (fun prev => fst (addUpdater (default 0 time) videoDuration prev))
              ed s Hs)|].
  apply addUpdater_outcome. exact Hwf.
Qed.

Lemma add_caption_outcome_witness :
  let s := {| captions := twoClips; styles := DEFAULT_STYLES |} in
  exists s',
    currentState (fst (handleAddCaption (Some 6) 10 (initial s))) = Some s' /\
    wellFormed (captions s').
Proof.
  intros s.
  destruct (add_caption_outcome (Some 6) 10 (initial s) s) as (s' & H1 & _ & H3 & _).
  - reflexivity.
  - exact twoClips_wellFormed.
  - exists s'. split; [exact H1 | exact H3].
Defined.

(** *** Splitting, and merging the parts again *)

Definition splitParts (c : Caption) (t : Q) : list Caption :=
  [mkCaption (start c) t (text c); mkCaption t (end_ c) (text c)].

Lemma split_commit sortedCaptions ed s i c t :
  currentState ed = Some s -> captions s !! i = Some c ->
  start c < t -> t < end_ c ->
  handleSplitCaption sortedCaptions i (Some t) ed =
    Some (updateState (splitUpdater i t) false ed) /\
  currentState (updateState (splitUpdater i t) false ed) =
    Some {| captions := take i (captions s) ++ splitParts c t ++ drop (i + 1) (captions s);
            styles := styles s |}.
Proof.
  intros Hs Hc H1 H2. unfold handleSplitCaption.
  rewrite (view_current _ _ _ Hs), Hc.
  apply Qle_bool_false in H1, H2. rewrite H1, H2. split; [reflexivity|].
  rewrite (commit_current _ _ _ Hs). unfold splitUpdater. now rewrite Hc.
Qed.

Lemma merge_commit sortedCaptions ed s i a b :
  currentState ed = Some s ->
  captions s !! i = Some a -> captions s !! (i + 1)%nat = Some b ->
  currentState (handleMergeCaption sortedCaptions i ed) =
    Some {| captions := take i (captions s) ++ [mergedCaption a b] ++ drop (i + 2) (captions s);
            styles := styles s |}.
Proof.
  intros Hs Ha Hb. unfold handleMergeCaption. rewrite (view_current _ _ _ Hs).
  pose proof (lookup_lt_Some _ _ _ Hb) as Hlt.
  destruct (Nat.leb_spec (length (captions s)) (i + 1)); [lia|].
  rewrite (commit_current _ _ _ Hs). unfold mergeUpdater. now rewrite Ha, Hb.
Qed.

(** X7: A split keeps captions positive in length and free of overlap, but it
    does not look at the 0.1 s floor: from a well-formed list the result is
    well formed exactly when the playhead is at least 0.1 s from both ends
    of the caption. *)
Theorem split_keeps_order (sortedCaptions : list Caption) (ed : Editor) (s : EditorState)
    (index : nat) (c : Caption) (t : Q) :
  currentState ed = Some s ->
  captions s !! index = Some c ->
  start c < t -> t < end_ c ->
  exists ed' s',
    handleSplitCaption sortedCaptions index (Some t) ed = Some ed' /\
    currentState ed' = Some s' /\
    (ordered (captions s) -> ordered (captions s')) /\
    (wellFormed (captions s) ->
       (wellFormed (captions s') <->
        MIN_DURATION <= t - start c /\ MIN_DURATION <= end_ c - t)).
Proof.
  intros Hs Hc H1 H2.
  destruct (split_commit sortedCaptions ed s index c t Hs Hc H1 H2) as [Hh Hcur].
  eexists. eexists. split; [exact Hh|]. split; [exact Hcur|]. cbn [captions].
  pose proof (take_drop_middle _ _ _ Hc) as Hdec.
  replace (index + 1)%nat with (S index) by lia.
  set (pre := take index (captions s)) in *.
  set (post := drop (S index) (captions s)) in *. clearbody pre post.
  rewrite <- Hdec. change (c :: post) with ([c] ++ post).
  unfold splitParts, MIN_DURATION. split.
  - intros [Hok Hadj].
    destruct (chain_middle _ pre [c] post Hok Hadj) as (_ & _ & L1 & L2).
    apply (chain_splice _ pre [c] _ post Hok Hadj).
    + repeat constructor; simpl; lra.
    + simpl. split; [lra | exact I].
    + simpl in *. destruct (last pre); exact L1.
    + simpl in *. exact L2.
  - intros Hwf. apply wellFormed_chain in Hwf as [Hok Hadj].
    destruct (chain_middle _ pre [c] post Hok Hadj) as (_ & _ & L1 & L2).
    rewrite wellFormed_chain. split.
    + intros [Hok' _]. rewrite !Forall_app in Hok'. destruct Hok' as (_ & Hparts & _).
      inversion Hparts as [|? ? [_ Hp1] Hrest]; subst.
      inversion Hrest as [|? ? [_ Hp2] _]; subst.
      unfold MIN_DURATION in *. simpl in *. split; lra.
    + intros [Hp1 Hp2].
      apply (chain_splice _ pre [c] _ post Hok Hadj).
      * repeat constructor; unfold MIN_DURATION; simpl; lra.
      * simpl. split; [lra | exact I].
      * simpl in *. destruct (last pre); exact L1.
      * simpl in *. exact L2.
Qed.

Lemma split_keeps_order_witness :
  let s := {| captions := twoClips; styles := DEFAULT_STYLES |} in
  exists ed' s',
    handleSplitCaption [] 0 (Some 2) (initial s) = Some ed' /\
    currentState ed' = Some s' /\ wellFormed (captions s').
Proof.
  intros s.
  destruct (split_keeps_order [] (initial s) s 0 (mkCaption 1 3 "A") 2)
    as (ed' & s' & H1 & H2 & _ & H4).
  - reflexivity.
  - reflexivity.
  - reflexivity.
  - reflexivity.
  - exists ed', s'. split; [exact H1|]. split; [exact H2|].
    apply H4; [exact twoClips_wellFormed|]. unfold MIN_DURATION. simpl. split; discriminate.
Defined.

(** X8: Merging the two parts of a split gives back the caption's start and end
    and leaves every other caption and the styles as they were, but not its
    text: the text is the original twice, joined by a space and trimmed. *)
Theorem split_then_merge (sortedCaptions : list Caption) (ed : Editor) (s : EditorState)
    (index : nat) (c : Caption) (t : Q) :
  currentState ed = Some s ->
  captions s !! index = Some c ->
  start c < t -> t < end_ c ->
  exists ed' s'',
    handleSplitCaption sortedCaptions index (Some t) ed = Some ed' /\
    currentState (handleMergeCaption sortedCaptions index ed') = Some s'' /\
    styles s'' = styles s /\
    captions s'' =
      <[index := {| start := start c; end_ := end_ c;
                    text := trim (text c ++ " " ++ text c) |}]> (captions s).
Proof.
  intros Hs Hc H1 H2.
  destruct (split_commit sortedCaptions ed s index c t Hs Hc H1 H2) as [Hh Hcur].
  eexists. eexists. split; [exact Hh|].
  pose proof (lookup_lt_Some _ _ _ Hc) as Hlt.
  assert (Hlen : length (take index (captions s)) = index) by (rewrite length_take; lia).
  split.
  - apply (merge_commit sortedCaptions _ _ index
             (mkCaption (start c) t (text c)) (mkCaption t (end_ c) (text c)) Hcur).
    + cbn [captions]. rewrite lookup_app_r by lia. now rewrite Hlen, Nat.sub_diag.
    + cbn [captions]. rewrite lookup_app_r by lia. rewrite Hlen.
      now replace (index + 1 - index)%nat with 1%nat by lia.
  - cbn [captions styles]. split; [reflexivity|].
    rewrite take_app_le, take_take by lia.
    replace (index `min` index)%nat with index by lia.
    rewrite drop_app_ge by lia. rewrite Hlen.
    replace (index + 2 - index)%nat with 2%nat by lia.
    unfold splitParts. cbn [drop app].
    rewrite insert_take_drop by exact Hlt.
    replace (index + 1)%nat with (S index) by lia. reflexivity.
Qed.

Lemma split_then_merge_witness :
  let s := {| captions := twoClips; styles := DEFAULT_STYLES |} in
  exists ed' s'',
    handleSplitCaption [] 0 (Some 2) (initial s) = Some ed' /\
    currentState (handleMergeCaption [] 0 ed') = Some s'' /\
    captions s'' = [mkCaption 1 3 "A A"; mkCaption (7 # 2) 5 "B"].
Proof.
  intros s.
  destruct (split_then_merge [] (initial s) s 0 (mkCaption 1 3 "A") 2)
    as (ed' & s'' & H1 & H2 & _ & H4).
  - reflexivity.
  - reflexivity.
  - reflexivity.
  - reflexivity.
  - exists ed', s''. split; [exact H1|]. split; [exact H2 | exact H4].
Defined.

End CaptionList.

(** ** More on the drag: what a move keeps, where a snap lands, the release *)

Module Gestures.

Import History Editing Timeline.

Lemma Qeq_bool_false a b : Qeq_bool a b = false -> ~ a == b.
Proof. intros H E. apply Qeq_bool_iff in E. congruence. Qed.

Ltac case_eq_bool :=
  match goal with
  | |- context [Qeq_bool ?a ?b] =>
      let E := fresh "E" in
      destruct (Qeq_bool a b) eqn:E;
      [apply Qeq_bool_iff in E | apply Qeq_bool_false in E]
  end.

Ltac close_arith :=
  first [ lra | exfalso; match goal with H : ~ _ == _ |- _ => apply H; lra end ].

(** A move shifts both edges by the same amount, snapped or not. *)
Lemma move_shift ds pixelsPerSecond currentTime deltaTime :
  mode ds = move ->
  snd (snap move pixelsPerSecond currentTime (applyDelta ds deltaTime)) -
  fst (snap move pixelsPerSecond currentTime (applyDelta ds deltaTime)) ==
  originalEnd ds - originalStart ds.
Proof.
  intros Hm. unfold applyDelta, snap. rewrite Hm.
  destruct (nearPlayhead _ _ _); [simpl; ring|].
  destruct (nearPlayhead _ _ _); simpl; ring.
Qed.

Lemma move_free_step ds captions duration s1 e1 :
  mode ds = move ->
  placed captions duration (index ds) (originalStart ds) (originalEnd ds) ->
  e1 - s1 == originalEnd ds - originalStart ds ->
  withinNeighbors captions (index ds) (Qmax 0 s1) (Qmin duration e1) ->
  let p := keepDurationAtBoundary ds duration
             (minimumDuration move
                (clampToNeighbors captions (index ds) (clampToTimeline duration (s1, e1)))) in
  snd p - fst p == originalEnd ds - originalStart ds /\ 0 <= fst p /\ snd p <= duration.
Proof.
  intros Hm (H0 & Hdur & Hend & _ & _) Hd [Hprev Hnext].
  unfold keepDurationAtBoundary, minimumDuration, clampToNeighbors, clampToTimeline,
    MIN_DURATION in *.
  rewrite Hm. cbn [isMove andb]. cbv zeta.
  destruct (before captions (index ds)) as [pc|];
    [specialize (Hprev _ eq_refl)|clear Hprev];
    (destruct (captions !! (index ds + 1)%nat) as [nc|];
       [specialize (Hnext _ eq_refl)|clear Hnext]);
    split_minmax;
    match goal with
    | |- context [Qle_bool ?a ?b] => destruct (Qle_bool a b)
    end;
    repeat case_eq_bool; cbn [fst snd]; repeat split; close_arith.
Qed.

(** X9: A move that the neighbours do not stop keeps the clip's duration: when
    the shifted (and possibly snapped) clip, cut to the timeline, still lies
    between the neighbours, the committed clip is as long as the original
    and lies on the timeline, also when it is pushed against 0 or the end. *)
Theorem move_keeps_duration captions duration currentTime pixelsPerSecond ds clientX :
  mode ds = move ->
  placed captions duration (index ds) (originalStart ds) (originalEnd ds) ->
  ~ duration == 0 -> ~ pixelsPerSecond == 0 ->
  (let p := snap move pixelsPerSecond currentTime
              (applyDelta ds ((clientX - startX ds) / pixelsPerSecond)) in
   withinNeighbors captions (index ds) (Qmax 0 (fst p)) (Qmin duration (snd p))) ->
  exists change,
    handleMouseMove captions duration currentTime pixelsPerSecond (Some ds) clientX
      = Some change /\
    newEnd change - newStart change == originalEnd ds - originalStart ds /\
    0 <= newStart change /\ newEnd change <= duration.
Proof.
  intros Hm Hplaced Hd Hp Hfree. unfold handleMouseMove.
  destruct (Qeq_bool duration 0) eqn:E1; [apply Qeq_bool_iff in E1; tauto|].
  destruct (Qeq_bool pixelsPerSecond 0) eqn:E2; [apply Qeq_bool_iff in E2; tauto|].
  cbn [orb]. eexists. split; [reflexivity|]. cbn [newStart newEnd].
  pose proof (move_shift ds pixelsPerSecond currentTime
                ((clientX - startX ds) / pixelsPerSecond) Hm) as Hshift.
  rewrite Hm in *. cbv zeta in Hfree.
  destruct (snap move pixelsPerSecond currentTime _) as [s1 e1]. cbn [fst snd] in *.
  apply (move_free_step ds captions duration s1 e1 Hm Hplaced Hshift Hfree).
Qed.

Lemma move_keeps_duration_witness :
  exists change,
    handleMouseMove twoClips 10 9 150
      (Some {| index := 1; mode := move; startX := 0;
               originalStart := 7 # 2; originalEnd := 5 |}) 1500 = Some change /\
    newEnd change - newStart change == 3 # 2.
Proof.
  destruct (move_keeps_duration twoClips 10 9 150
              {| index := 1; mode := move; startX := 0;
                 originalStart := 7 # 2; originalEnd := 5 |} 1500)
    as (change & H1 & H2 & _).
  - reflexivity.
  - unfold placed, MIN_DURATION. simpl. repeat split; try discriminate.
    intros pc [= <-]. simpl. discriminate.
  - discriminate.
  - discriminate.
  - vm_compute. split.
    + intros pc [= <-]. simpl. discriminate.
    + intros nc H. discriminate.
  - exists change. split; [exact H1 | exact H2].
Defined.

(** X10: In a resize the dragged edge lands exactly on the playhead when it comes
    within the snap threshold and the playhead is a place the edge may
    take: on the timeline, not past the neighbour, and more than 0.1 s from
    the other edge. The other edge does not move. *)
Theorem resize_snap_exact captions duration currentTime pixelsPerSecond ds clientX :
  placed captions duration (index ds) (originalStart ds) (originalEnd ds) ->
  ~ duration == 0 -> ~ pixelsPerSecond == 0 ->
  (mode ds = resize_end ->
   nearPlayhead pixelsPerSecond currentTime
     (originalEnd ds + (clientX - startX ds) / pixelsPerSecond) = true ->
   originalStart ds + MIN_DURATION < currentTime -> currentTime <= duration ->
   (forall nc, captions !! (index ds + 1)%nat = Some nc -> currentTime <= start nc) ->
   exists change,
     handleMouseMove captions duration currentTime pixelsPerSecond (Some ds) clientX
       = Some change /\
     newEnd change == currentTime /\ newStart change == originalStart ds) /\
  (mode ds = resize_start ->
   nearPlayhead pixelsPerSecond currentTime
     (originalStart ds + (clientX - startX ds) / pixelsPerSecond) = true ->
   currentTime + MIN_DURATION < originalEnd ds -> 0 <= currentTime ->
   (forall pc, before captions (index ds) = Some pc -> end_ pc <= currentTime) ->
   exists change,
     handleMouseMove captions duration currentTime pixelsPerSecond (Some ds) clientX
       = Some change /\
     newStart change == currentTime /\ newEnd change == originalEnd ds).
Proof.
  intros (H0 & Hdur & Hend & Hprev & Hnext) Hd Hp.
  unfold handleMouseMove.
  destruct (Qeq_bool duration 0) eqn:E1; [apply Qeq_bool_iff in E1; tauto|].
  destruct (Qeq_bool pixelsPerSecond 0) eqn:E2; [apply Qeq_bool_iff in E2; tauto|].
  cbn [orb]. unfold MIN_DURATION in *. split.
  - intros Hm Hnear Hlo Hhi Hnc. eexists. split; [reflexivity|].
    cbn [newStart newEnd]. unfold applyDelta, snap. rewrite Hm, Hnear.
    unfold keepDurationAtBoundary, minimumDuration, clampToNeighbors, clampToTimeline,
      MIN_DURATION. rewrite Hm. cbn [isMove andb]. cbv zeta.
    destruct (before captions (index ds)) as [pc|];
      [specialize (Hprev _ eq_refl)|clear Hprev];
      (destruct (captions !! (index ds + 1)%nat) as [nc|];
         [specialize (Hnext _ eq_refl); specialize (Hnc _ eq_refl)|clear Hnext Hnc]);
      split_minmax; case_compare; cbn [fst snd]; split; lra.
  - intros Hm Hnear Hlo Hhi Hpc. eexists. split; [reflexivity|].
    cbn [newStart newEnd]. unfold applyDelta, snap. rewrite Hm, Hnear.
    unfold keepDurationAtBoundary, minimumDuration, clampToNeighbors, clampToTimeline,
      MIN_DURATION. rewrite Hm. cbn [isMove andb]. cbv zeta.
    destruct (before captions (index ds)) as [pc|];
      [specialize (Hprev _ eq_refl); specialize (Hpc _ eq_refl)|clear Hprev Hpc];
      (destruct (captions !! (index ds + 1)%nat) as [nc|];
         [specialize (Hnext _ eq_refl)|clear Hnext]);
      split_minmax; case_compare; cbn [fst snd]; split; lra.
Qed.

Lemma resize_snap_exact_witness :
  exists change,
    handleMouseMove snapScenario 10 (161 # 64) 150 (Some snapDrag) 75 = Some change /\
    newEnd change == 161 # 64.
Proof.
  destruct (resize_snap_exact snapScenario 10 (161 # 64) 150 snapDrag 75) as [H _].
  - unfold placed, snapScenario, snapDrag, MIN_DURATION. simpl.
    repeat split; try discriminate. intros nc [= <-]. simpl. discriminate.
  - discriminate.
  - discriminate.
  - destruct H as (change & H1 & H2 & _).
    + reflexivity.
    + reflexivity.
    + reflexivity.
    + discriminate.
    + intros nc [= <-]. simpl. discriminate.
    + exists change. split; [exact H1 | exact H2].
Defined.

Lemma retime_same (cs : list Caption) i c :
  cs !! i = Some c ->
  alter (fun d => {| start := start c; end_ := end_ c; text := text d |}) i cs = cs.
Proof.
  intros Hc. apply list_eq. intros j. destruct (decide (i = j)) as [->|Hne].
  - rewrite list_lookup_alter_eq, Hc. simpl. now destruct c.
  - now rewrite list_lookup_alter_ne.
Qed.

(** X11: Releasing the pointer commits the times the dragged clip already has:
    the snapshot shown is the same as before the release, and it has been
    appended to the history as a new entry (nothing happens when the clip
    index is past the end). *)
Theorem release_keeps_captions (sortedCaptions : list Caption) (ds : DragState)
    (ed : Editor) (s : EditorState) :
  currentState ed = Some s ->
  currentState (dragEnd sortedCaptions ds ed) = Some s /\
  ((index ds < length (captions s))%nat ->
     history (dragEnd sortedCaptions ds ed) =
       take (historyIndex ed + 1) (history ed) ++ [s] /\
     historyIndex (dragEnd sortedCaptions ds ed) = (historyIndex ed + 1)%nat) /\
  ((length (captions s) <= index ds)%nat -> dragEnd sortedCaptions ds ed = ed).
Proof.
  intros Hs. unfold dragEnd, handleMouseUp. rewrite (view_current _ _ _ Hs).
  destruct (captions s !! index ds) as [c|] eqn:Hc.
  - unfold commit, handleCaptionTimeChange. cbn [changeIndex newStart newEnd merge].
    assert (Hsame : {| captions :=
                         alter (fun d => {| start := start c; end_ := end_ c; text := text d |})
                               (index ds) (captions s);
                       styles := styles s |} = s).
    { rewrite (retime_same _ _ _ Hc). now destruct s. }
    split; [|split].
    + rewrite (commit_current _ _ _ Hs). now rewrite Hsame.
    + intros _. unfold currentState in Hs.
      rewrite (updateState_commit_shape _ _ _ Hs). cbn [history historyIndex].
      now rewrite Hsame.
    + intros Hge. apply lookup_lt_Some in Hc. lia.
  - cbn [commit]. split; [exact Hs|]. split; [|reflexivity].
    intros Hlt. apply lookup_ge_None in Hc. lia.
Qed.

Lemma release_keeps_captions_witness :
  let s := {| captions := twoClips; styles := DEFAULT_STYLES |} in
  currentState (dragEnd [] snapDrag (initial s)) = Some s.
Proof.
  intros s. destruct (release_keeps_captions [] snapDrag (initial s) s) as [H _].
  - reflexivity.
  - exact H.
Defined.

End Gestures.

(** ** Seeking, the time ruler, auto-scroll and the zoom controls *)

Module Viewport.

Import Geometry Timeline.

(** [handleSeek(time)]: the value assigned to [video.currentTime]. *)
Definition handleSeek (videoDuration time : Q) : Q :=
  Qmax 0 (Qmin videoDuration time).

(** [handleInteraction] of the time ruler: the time handed to [onSeek],
    [None] when it returns early. *)
Definition handleInteraction (duration totalWidth rectLeft clientX : Q) : option Q :=
  if Qle_bool duration 0 || Qle_bool totalWidth 0 then None
  else
    let x := clientX - rectLeft in
    let time := (x / totalWidth) * duration in
    Some (Qmax 0 (Qmin duration time)).

(** [const totalWidth = duration * pixelsPerSecond] *)
Definition totalWidth (duration zoomLevel : Q) : Q := duration * pixelsPerSecond zoomLevel.

(** What the auto-scroll effect reads from the scroll container. *)
Record Scroller := mkScroller {
  offsetWidth : Q;
  scrollerLeft : Q
}.

(** The auto-scroll effect: the [left] of the [scrollTo] call it makes,
    [None] when it makes none. *)
Definition autoScroll (scroller : option Scroller) (duration : Q) (isScrubbing : bool)
    (currentTime pixelsPerSecond : Q) : option Q :=
  match scroller with
  | None => None
  | Some sc =>
      if Qle_bool duration 0 || isScrubbing then None
      else
        let playheadPx := currentTime * pixelsPerSecond in
        let containerWidth := offsetWidth sc in
        let scrollLeft := scrollerLeft sc in
        let buffer := containerWidth * (2 # 10) in
        if Qlt_bool playheadPx (scrollLeft + buffer) ||
           Qlt_bool (scrollLeft + containerWidth - buffer) playheadPx
        then Some (playheadPx - containerWidth / 2)
        else None
  end.

(** The controls that change the zoom level: the two buttons and the wheel. *)
Inductive ZoomEvent :=
| ZoomOutButton
| ZoomInButton
| Wheel (e : WheelEvent) (sc : option ScrollContainer).

(** [setZoomLevel] as each control calls it. *)
Definition zoomStep (zoomLevel : Q) (ev : ZoomEvent) : Q :=
  match ev with
  | ZoomOutButton => Qmax (2 # 10) (zoomLevel - (2 # 10))
  | ZoomInButton => Qmin 5 (zoomLevel + (2 # 10))
  | Wheel e sc =>
      match handleWheel zoomLevel e sc with
      | Some r => newZoom r
      | None => zoomLevel
      end
  end.

Definition timeIntervals : list Q :=
  [1 # 10; 2 # 10; 5 # 10; 1; 2; 5; 10; 15; 30; 60; 120; 300].

Definition minPixelGap : Q := 70.

(** The major tick interval of the ruler: the first interval whose ticks are
    more than [minPixelGap] apart, the last one when there is none. *)
Definition majorInterval (pixelsPerSecond : Q) : Q :=
  default 300 (List.find (fun interval => Qlt_bool minPixelGap (interval * pixelsPerSecond))
                 timeIntervals).

(** [majorInterval / (pixelsPerSecond * majorInterval > 100 ? 5 : 2)] *)
Definition minorInterval (pixelsPerSecond : Q) : Q :=
  let major := majorInterval pixelsPerSecond in
  major / (if Qlt_bool 100 (pixelsPerSecond * major) then 5 else 2).

(** A seek never leaves the video: the time set is within [0, duration],
    and a time already there is set as it is. *)
Theorem seek_in_range (videoDuration time : Q) :
  0 <= videoDuration ->
  0 <= handleSeek videoDuration time <= videoDuration /\
  (0 <= time <= videoDuration -> handleSeek videoDuration time == time).
Proof.
  intros Hd. unfold handleSeek. split.
  - split_minmax; lra.
  - intros Ht. split_minmax; lra.
Qed.

Lemma seek_in_range_witness : 0 <= handleSeek 10 12 <= 10.
Proof.
  destruct (seek_in_range 10 12) as [H _]; [discriminate | exact H].
Defined.

(** X12: Clicking the ruler where a time is drawn seeks to that time: for a time
    on the timeline, the pixel [timeToPixel] gives it maps back to it, and
    [handleSeek] passes it on unchanged; any click seeks within the video. *)
Theorem ruler_click_round_trip (duration zoomLevel rectLeft t clientX : Q) :
  0 < duration -> 0 < zoomLevel ->
  (exists time,
     handleInteraction duration (totalWidth duration zoomLevel) rectLeft clientX = Some time /\
     0 <= time <= duration) /\
  (0 <= t <= duration ->
   exists time,
     handleInteraction duration (totalWidth duration zoomLevel) rectLeft
       (rectLeft + timeToPixel t zoomLevel) = Some time /\
     time == t /\ handleSeek duration time == t).
Proof.
  intros Hd Hz. unfold handleInteraction, totalWidth, timeToPixel, pixelsPerSecond,
    PIXELS_PER_SECOND_BASE.
  assert (Hw : 0 < duration * (150 * zoomLevel)) by nra.
  assert (E1 : Qle_bool duration 0 = false) by now apply Qle_bool_false.
  assert (E2 : Qle_bool (duration * (150 * zoomLevel)) 0 = false) by now apply Qle_bool_false.
  rewrite E1, E2. cbn [orb]. split.
  - eexists. split; [reflexivity|]. split_minmax; lra.
  - intros Ht. eexists. split; [reflexivity|].
    assert (Hx : (rectLeft + t * (150 * zoomLevel) - rectLeft) / (duration * (150 * zoomLevel))
                 * duration == t).
    { field. split; lra. }
    cbv zeta. unfold handleSeek. rewrite Hx. split; split_minmax; lra.
Qed.

Lemma ruler_click_round_trip_witness :
  exists time,
    handleInteraction 10 (totalWidth 10 1) 24 (24 + timeToPixel 4 1) = Some time /\ time == 4.
Proof.
  destruct (ruler_click_round_trip 10 1 24 4 0) as [_ H]; [reflexivity..|].
  destruct H as (time & H1 & H2 & _); [split; discriminate|].
  exists time. split; [exact H1 | exact H2].
Defined.

(** X13: After an auto-scroll the playhead is in the middle of the container, so
    the effect has nothing more to do: run again with the requested offset
    in place, it makes no call. When it makes no call on a container in
    view, the playhead is within the inner 60% of it. *)
Theorem auto_scroll_settles (sc : Scroller) (duration currentTime pixelsPerSecond : Q)
    (isScrubbing : bool) :
  0 <= offsetWidth sc ->
  (forall left,
     autoScroll (Some sc) duration isScrubbing currentTime pixelsPerSecond = Some left ->
     left + offsetWidth sc / 2 == currentTime * pixelsPerSecond /\
     autoScroll (Some {| offsetWidth := offsetWidth sc; scrollerLeft := left |})
       duration isScrubbing currentTime pixelsPerSecond = None) /\
  (0 < duration -> isScrubbing = false ->
   autoScroll (Some sc) duration isScrubbing currentTime pixelsPerSecond = None ->
   scrollerLeft sc + offsetWidth sc * (2 # 10) <= currentTime * pixelsPerSecond /\
   currentTime * pixelsPerSecond <= scrollerLeft sc + offsetWidth sc * (8 # 10)).
Proof.
  intros Hw. unfold autoScroll. cbv zeta. cbn [offsetWidth scrollerLeft]. split.
  - intros left. destruct (Qle_bool duration 0 || isScrubbing); [discriminate|].
    destruct (_ || _); [|discriminate]. intros [= <-]. split; [field|].
    assert (H1 : currentTime * pixelsPerSecond - offsetWidth sc / 2 +
                 offsetWidth sc * (2 # 10) ==
                 currentTime * pixelsPerSecond - offsetWidth sc * (3 # 10)) by field.
    assert (H2 : currentTime * pixelsPerSecond - offsetWidth sc / 2 + offsetWidth sc -
                 offsetWidth sc * (2 # 10) ==
                 currentTime * pixelsPerSecond + offsetWidth sc * (3 # 10)) by field.
    repeat case_compare; cbn [orb]; try reflexivity; exfalso; lra.
  - intros Hd ->. apply Qle_bool_false in Hd. rewrite Hd. cbn [orb].
    repeat case_compare; cbn [orb]; try discriminate. intros _. split; lra.
Qed.

Lemma auto_scroll_settles_witness :
  exists left,
    autoScroll (Some (mkScroller 1000 0)) 10 false 9 150 = Some left /\
    left == 850 /\
    autoScroll (Some (mkScroller 1000 left)) 10 false 9 150 = None.
Proof.
  destruct (auto_scroll_settles (mkScroller 1000 0) 10 9 150 false) as [H _];
    [discriminate|].
  exists (9 * 150 - 1000 / 2). split; [reflexivity|]. split; [reflexivity|].
  destruct (H (9 * 150 - 1000 / 2)) as [_ H2]; [reflexivity|].
  exact H2.
Defined.

(** X14: The zoom level stays within [0.2, 5] under any sequence of button
    clicks and wheel events, so the timeline scale is never below 30 pixels
    per second and the drag handler's zero-scale guard does not fire. *)
Theorem zoom_stays_in_range (events : list ZoomEvent) (zoomLevel : Q) :
  (2 # 10) <= zoomLevel <= 5 ->
  (2 # 10) <= fold_left zoomStep events zoomLevel <= 5 /\
  30 <= pixelsPerSecond (fold_left zoomStep events zoomLevel) /\
  Qeq_bool (pixelsPerSecond (fold_left zoomStep events zoomLevel)) 0 = false.
Proof.
  intros Hz.
  assert (Hinv : (2 # 10) <= fold_left zoomStep events zoomLevel <= 5).
  { revert zoomLevel Hz. induction events as [|ev rest IH]; intros z Hz; [exact Hz|].
    cbn [fold_left]. apply IH. destruct ev as [| |e sc]; unfold zoomStep.
    - split_minmax; lra.
    - split_minmax; lra.
    - unfold handleWheel. destruct (ctrlKey e || metaKey e); [|exact Hz].
      destruct sc as [sc|]; [|exact Hz]. cbn [newZoom]. apply clamp_range. lra. }
  split; [exact Hinv|]. unfold pixelsPerSecond, PIXELS_PER_SECOND_BASE.
  split; [lra|].
  destruct (Qeq_bool _ 0) eqn:E; [|reflexivity].
  apply Qeq_bool_iff in E. lra.
Qed.

Lemma zoom_stays_in_range_witness :
  (2 # 10) <= fold_left zoomStep [ZoomOutButton; ZoomOutButton; ZoomOutButton;
                                  ZoomOutButton; ZoomOutButton] 1 <= 5.
Proof.
  destruct (zoom_stays_in_range [ZoomOutButton; ZoomOutButton; ZoomOutButton;
                                 ZoomOutButton; ZoomOutButton] 1) as [H _].
  - split; discriminate.
  - exact H.
Defined.

Lemma majorInterval_cases (pps : Q) :
  30 <= pps <= 750 ->
  exists m,
    majorInterval pps = m /\ In m timeIntervals /\ 70 < m * pps <= 175 /\
    (forall interval, In interval timeIntervals -> interval < m -> interval * pps <= 70).
Proof.
  intros Hp. unfold majorInterval, timeIntervals, minPixelGap. cbn [List.find].
  repeat
    (match goal with
     | |- context [default 300 (if Qlt_bool ?a ?b then _ else _)] =>
         let E := fresh "E" in
         destruct (Qlt_bool a b) eqn:E;
         [apply Qlt_bool_iff in E | apply Qlt_bool_false in E]
     end;
     [ cbn [default from_option id]; eexists; split; [reflexivity|];
       split; [cbn [In]; repeat (first [left; reflexivity | right])|];
       split; [lra|];
       intros interval Hin Hlt; simpl in Hin;
       repeat (destruct Hin as [<-|Hin]; [lra|]); contradiction
     | ]).
  exfalso. lra.
Qed.

(** X15: At every zoom level the controls allow (30 to 750 pixels per second),
    the ruler's major ticks are more than 70 and at most 175 pixels apart
    and use the smallest interval of the table that gives such a gap, and
    its minor ticks are more than 20 pixels apart. *)
Theorem ruler_tick_spacing (pps : Q) :
  30 <= pps <= 750 ->
  In (majorInterval pps) timeIntervals /\
  70 < majorInterval pps * pps <= 175 /\
  20 < minorInterval pps * pps /\
  (forall interval, In interval timeIntervals -> interval < majorInterval pps ->
     interval * pps <= 70).
Proof.
  intros Hp. unfold minorInterval.
  destruct (majorInterval_cases pps Hp) as (m & -> & Hin & Hgap & Hmin).
  split; [exact Hin|]. split; [exact Hgap|]. split; [|exact Hmin].
  case_compare.
  - assert (Hq : m / 5 * pps == (1 # 5) * (m * pps)) by field. lra.
  - assert (Hq : m / 2 * pps == (1 # 2) * (m * pps)) by field. lra.
Qed.

Lemma ruler_tick_spacing_witness : 70 < majorInterval 150 * 150 <= 175.
Proof.
  destruct (ruler_tick_spacing 150) as (_ & H & _); [split; discriminate | exact H].
Defined.

End Viewport.

(** ** Which caption is shown: preview, export and Tab navigation *)

Module Playback.

Import Editing CaptionList.

(** [captions.findIndex(c => time >= c.start && time <= c.end)], the active
    caption of [handleTimeUpdate] and of the preview's render loop. *)
Definition activeCaptionIndex (captions : list Caption) (time : Q) : option nat :=
  findIndex (fun c => Qle_bool (start c) time && Qle_bool time (end_ c)) captions.

(** The caption the Tab key seeks to: forwards the first one in list order
    that starts after the playhead, backwards (with shift) the last one in
    list order that ends before it. *)
Definition tabTarget (captions : list Caption) (currentTime : Q) (shiftKey : bool)
    : option Caption :=
  if shiftKey then List.find (fun c => Qlt_bool (end_ c) currentTime) (rev captions)
  else List.find (fun c => Qlt_bool currentTime (start c)) captions.

(** The Tab branch of [handleKeyDown]: the time it seeks to, if any. *)
Definition handleTab (captions : list Caption) (videoDuration currentTime : Q)
    (shiftKey : bool) : option Q :=
  match tabTarget captions currentTime shiftKey with
  | Some nextCaption => Some (Viewport.handleSeek videoDuration (start nextCaption))
  | None => None
  end.

Lemma findIndex_cons {A} (p : A -> bool) a rest i :
  findIndex p (a :: rest) = Some i <->
  (p a = true /\ i = 0%nat) \/
  (p a = false /\ exists j, i = S j /\ findIndex p rest = Some j).
Proof.
  simpl. destruct (p a).
  - split; [intros [= <-]; now left | intros [[_ ->]|[H _]]; [reflexivity | discriminate]].
  - split.
    + destruct (findIndex p rest) as [j|]; simpl; [|discriminate].
      intros [= <-]. right. split; [reflexivity|]. now exists j.
    + intros [[H _]|[_ (j & -> & ->)]]; [discriminate | reflexivity].
Qed.

(** X16: Preview and export pick the same caption except at the very end of one:
    the preview's interval is closed, the export's is half open. Whatever the
    export draws at a time, the preview shows it or a caption ending exactly
    then; what the preview shows before its end, the export draws; and when
    the export draws nothing, the preview can only show a caption at its
    last instant. *)
Theorem preview_export_parity (captions : list Caption) (time : Q) :
  (forall c, ExportPipeline.activeCaption captions time = Some c ->
     exists i c', activeCaptionIndex captions time = Some i /\ captions !! i = Some c' /\
                  (c' = c \/ end_ c' == time)) /\
  (forall i c, activeCaptionIndex captions time = Some i -> captions !! i = Some c ->
     start c <= time <= end_ c /\
     (time < end_ c -> ExportPipeline.activeCaption captions time = Some c) /\
     (ExportPipeline.activeCaption captions time = None -> end_ c == time)).
Proof.
  unfold ExportPipeline.activeCaption, activeCaptionIndex.
  induction captions as [|d rest [IH1 IH2]].
  - split; [intros c H; discriminate | intros i c H; discriminate].
  - split.
    + intros c. cbn [List.find findIndex].
      destruct (Qle_bool (start d) time) eqn:E1; cbn [andb].
      * destruct (Qlt_bool time (end_ d)) eqn:E2.
        -- intros [= <-]. apply Qlt_bool_iff in E2.
           assert (E3 : Qle_bool time (end_ d) = true) by (apply Qle_bool_iff; lra).
           rewrite E3. exists 0%nat, d. auto.
        -- apply Qlt_bool_false in E2. intros Hc.
           destruct (Qle_bool time (end_ d)) eqn:E3.
           ++ apply Qle_bool_iff in E3. exists 0%nat, d.
              split; [reflexivity|]. split; [reflexivity|]. right. lra.
           ++ destruct (IH1 c Hc) as (i & c' & Hi & Hc' & Hor).
              exists (S i), c'. rewrite Hi. auto.
      * intros Hc. destruct (IH1 c Hc) as (i & c' & Hi & Hc' & Hor).
        exists (S i), c'. rewrite Hi. auto.
    + intros i c Hi Hc. apply findIndex_cons in Hi as [[Hp ->]|[Hp (j & -> & Hj)]].
      * simpl in Hc. injection Hc as ->. apply andb_true_iff in Hp as [E1 E3].
        cbn [List.find]. rewrite E1. cbn [andb].
        apply Qle_bool_iff in E1, E3. split; [lra|]. split.
        -- intros Hlt. apply Qlt_bool_iff in Hlt. now rewrite Hlt.
        -- destruct (Qlt_bool time (end_ c)) eqn:E2; [discriminate|].
           apply Qlt_bool_false in E2. intros _. lra.
      * simpl in Hc. destruct (IH2 j c Hj Hc) as (Hin & Hdraw & Hnone).
        split; [exact Hin|]. cbn [List.find].
        assert (Hpe : Qle_bool (start d) time && Qlt_bool time (end_ d) = false).
        { apply andb_false_iff in Hp as [Hp|Hp]; [now rewrite Hp|].
          apply Qle_bool_false in Hp.
          destruct (Qlt_bool time (end_ d)) eqn:E2; [|apply andb_false_r].
          apply Qlt_bool_iff in E2. lra. }
        rewrite Hpe. split; assumption.
Qed.

Lemma first_match_sorted (R : relation Caption) (p : Caption -> bool) l c :
  StronglySorted R l -> List.find p l = Some c ->
  In c l /\ p c = true /\ forall d, In d l -> p d = true -> d = c \/ R c d.
Proof.
  intros Hs. induction Hs as [|a rest Hrest IH Ha]; [discriminate|].
  cbn [List.find]. destruct (p a) eqn:Ea.
  - intros [= <-]. split; [now left|]. split; [exact Ea|].
    intros d [<-|Hd] _; [now left|]. right.
    rewrite Forall_forall in Ha. apply Ha. now apply list_elem_of_In.
  - intros Hc. destruct (IH Hc) as (Hin & Hp & Hmin).
    split; [now right|]. split; [exact Hp|].
    intros d [<-|Hd] Hpd; [congruence|]. now apply Hmin.
Qed.

Lemma StronglySorted_snoc (R : relation Caption) l x :
  StronglySorted R l -> Forall (fun y => R y x) l -> StronglySorted R (l ++ [x]).
Proof.
  induction 1 as [|a rest Hrest IH Ha]; intros Hx; simpl.
  - repeat constructor.
  - inversion Hx as [|? ? Hax Hrx]; subst. constructor; [now apply IH|].
    apply Forall_app. split; [exact Ha | now constructor].
Qed.

Lemma StronglySorted_rev (R : relation Caption) l :
  StronglySorted R l -> StronglySorted (flip R) (rev l).
Proof.
  induction 1 as [|a rest Hrest IH Ha]; simpl; [constructor|].
  apply StronglySorted_snoc; [exact IH|].
  apply Forall_forall. intros y Hy. apply list_elem_of_In, in_rev in Hy.
  rewrite Forall_forall in Ha. apply Ha. now apply list_elem_of_In.
Qed.

Instance startLe_trans : Transitive startLe.
Proof. intros a b c. unfold startLe. lra. Qed.

(** X17: In a caption list sorted by start time, Tab seeks whenever some
    caption starts after the playhead, to the start of the earliest such
    caption, and makes no seek when there is none; shift-Tab seeks whenever
    some caption ends before the playhead, to the start of the
    latest-starting such caption, and makes no seek when there is none. *)
Theorem tab_seeks_nearest (captions : list Caption) (videoDuration currentTime : Q) :
  Sorted startLe captions ->
  ((exists d, In d captions /\ currentTime < start d) ->
     exists c,
       In c captions /\ currentTime < start c /\
       (forall d, In d captions -> currentTime < start d -> start c <= start d) /\
       tabTarget captions currentTime false = Some c /\
       handleTab captions videoDuration currentTime false =
         Some (Viewport.handleSeek videoDuration (start c))) /\
  ((forall d, In d captions -> start d <= currentTime) ->
     handleTab captions videoDuration currentTime false = None) /\
  ((exists d, In d captions /\ end_ d < currentTime) ->
     exists c,
       In c captions /\ end_ c < currentTime /\
       (forall d, In d captions -> end_ d < currentTime -> start d <= start c) /\
       tabTarget captions currentTime true = Some c /\
       handleTab captions videoDuration currentTime true =
         Some (Viewport.handleSeek videoDuration (start c))) /\
  ((forall d, In d captions -> currentTime <= end_ d) ->
     handleTab captions videoDuration currentTime true = None).
Proof.
  intros Hsorted. apply Sorted_StronglySorted in Hsorted; [|exact startLe_trans].
  split; [|split; [|split]].
  - intros (d0 & Hd0 & Hlt0).
    destruct (tabTarget captions currentTime false) as [c|] eqn:Hc.
    + exists c. unfold handleTab. rewrite Hc. unfold tabTarget in Hc.
      destruct (first_match_sorted _ _ _ _ Hsorted Hc) as (Hin & Hp & Hmin).
      apply Qlt_bool_iff in Hp.
      split; [exact Hin|]. split; [exact Hp|]. split; [|split; reflexivity].
      intros d Hd Hlt. apply Qlt_bool_iff in Hlt.
      destruct (Hmin d Hd Hlt) as [->|H]; [lra | exact H].
    + exfalso. unfold tabTarget in Hc.
      pose proof (find_none _ _ Hc d0 Hd0) as Hn. cbn beta in Hn.
      apply Qlt_bool_iff in Hlt0. congruence.
  - intros Hall. unfold handleTab, tabTarget.
    destruct (List.find _ captions) as [c|] eqn:Hc; [|reflexivity].
    apply find_some in Hc as [Hin Hp]. apply Qlt_bool_iff in Hp.
    specialize (Hall c Hin). lra.
  - intros (d0 & Hd0 & Hlt0).
    destruct (tabTarget captions currentTime true) as [c|] eqn:Hc.
    + exists c. unfold handleTab. rewrite Hc. unfold tabTarget in Hc.
      destruct (first_match_sorted _ _ _ _ (StronglySorted_rev _ _ Hsorted) Hc)
        as (Hin & Hp & Hmin).
      apply Qlt_bool_iff in Hp. apply in_rev in Hin.
      split; [exact Hin|]. split; [exact Hp|]. split; [|split; reflexivity].
      intros d Hd Hlt. apply Qlt_bool_iff in Hlt. apply in_rev in Hd.
      destruct (Hmin d Hd Hlt) as [->|H]; [lra | exact H].
    + exfalso. unfold tabTarget in Hc. apply in_rev in Hd0.
      pose proof (find_none _ _ Hc d0 Hd0) as Hn. cbn beta in Hn.
      apply Qlt_bool_iff in Hlt0. congruence.
  - intros Hall. unfold handleTab, tabTarget.
    destruct (List.find _ (rev captions)) as [c|] eqn:Hc; [|reflexivity].
    apply find_some in Hc as [Hin Hp]. apply Qlt_bool_iff in Hp. apply in_rev in Hin.
    specialize (Hall c Hin). lra.
Qed.

Lemma tab_seeks_nearest_witness :
  exists c,
    In c Timeline.twoClips /\ 2 < start c /\
    (forall d, In d Timeline.twoClips -> 2 < start d -> start c <= start d) /\
    tabTarget Timeline.twoClips 2 false = Some c /\
    handleTab Timeline.twoClips 10 2 false = Some (Viewport.handleSeek 10 (start c)).
Proof.
  destruct (tab_seeks_nearest Timeline.twoClips 10 2) as [H _].
  - repeat constructor. unfold startLe. simpl. discriminate.
  - apply H. exists (mkCaption (7 # 2) 5 "B"). split; [right; left; reflexivity|reflexivity].
Defined.

End Playback.

(** ** The caption box: where [drawText] puts the background and the lines *)

Module Box.

Import Layout.

(** The bounds [drawText] returns. *)
Record Bounds := mkBounds {
  boxX : Q;
  boxY : Q;
  boxWidth : Q;
  boxHeight : Q
}.

(** One [fillText(line, lineX, lineY)] call (preceded by [strokeText] with
    the same arguments when [stroked]). *)
Record TextCall := mkTextCall {
  line : string;
  lineX : Q;
  lineY : Q;
  stroked : bool
}.


Section Draw.

(** [ctx.measureText(s).width] under the font the call sets. *)
Variable measureText : string -> Q.

(** The widest line: [allLines.forEach(line => textBlockWidth = Math.max(...))]. *)
Definition textBlockWidth (allLines : list string) : Q :=
  fold_left (fun width line => Qmax width (measureText line)) allLines 0.

(** The geometry of [drawText]: the bounds it returns and the text calls it
    makes, in order. *)
Definition drawText (text : string) (st : StyleOptions) (videoWidth videoHeight : Q)
    : Bounds * list TextCall :=
  let fontSizePx := (fontSize st / 100) * videoHeight in
  let maxWidthPx := (maxWidth st / 100) * videoWidth in
  let paddingPx := fontSizePx * (padding st / 100) in
  let positionX := (x (position st) / 100) * videoWidth in
  let positionY := (y (position st) / 100) * videoHeight in
  let allLines := wrapText measureText maxWidthPx text in
  let lineHeight := fontSizePx * (12 # 10) in
  let bgWidth := textBlockWidth allLines + paddingPx * 2 in
  let totalTextHeight := inject_Z (Z.of_nat (length allLines)) * lineHeight in
  let bgHeight := totalTextHeight + paddingPx * 2 in
  let bgX := positionX - bgWidth / 2 in
  let bgY := positionY - bgHeight / 2 in
  let startY :=
    bgY + paddingPx + (totalTextHeight / inject_Z (Z.of_nat (length allLines))) / 2 in
  (mkBounds bgX bgY bgWidth bgHeight,
   imap (fun index l =>
           let lineX :=
             match horizontalAlign st with
             | center => bgX + bgWidth / 2
             | right => bgX + bgWidth - paddingPx
             | left => bgX + paddingPx
             end in
           let lineY := startY + inject_Z (Z.of_nat index) * lineHeight in
           mkTextCall l lineX lineY
             (match effect st with outline => Qlt_bool 0 (strokeWidth st) | _ => false end))
        allLines).

Lemma textBlockWidth_from (lines : list string) : forall acc,
  acc <= fold_left (fun width l => Qmax width (measureText l)) lines acc /\
  (forall l, In l lines ->
     measureText l <= fold_left (fun width l => Qmax width (measureText l)) lines acc) /\
  (forall bound, acc <= bound -> (forall l, In l lines -> measureText l <= bound) ->
     fold_left (fun width l => Qmax width (measureText l)) lines acc <= bound).
Proof.
  induction lines as [|l rest IH]; intros acc; cbn [fold_left].
  - split; [lra|]. split; [intros l []|]. intros bound Hb _. exact Hb.
  - destruct (IH (Qmax acc (measureText l))) as (H1 & H2 & H3).
    pose proof (Q.le_max_l acc (measureText l)) as Hl.
    pose proof (Q.le_max_r acc (measureText l)) as Hr.
    split; [lra|]. split.
    + intros l' [<-|Hin]; [lra | now apply H2].
    + intros bound Hb Hall. apply H3.
      * apply Q.max_lub; [exact Hb | apply Hall; now left].
      * intros l' Hin. apply Hall. now right.
Qed.



End Draw.


Section Width.

Variable measureText : string -> Q.
Variable maxWidthPx : Q.

Lemma overlong_is_word (l : string) :
  fitsWidth measureText maxWidthPx l -> maxWidthPx < measureText l -> split " " l = [l].
Proof.
  intros Hfit Hlong. pose proof (join_split " " l) as Hjoin.
  destruct (split " " l) as [|p [|q rest]] eqn:E.
  - destruct (split_nonempty " " l) as (p & ps & E'). congruence.
  - simpl in Hjoin. now subst p.
  - exfalso. specialize (Hfit (length (p :: q :: rest))).
    rewrite E in Hfit. rewrite take_ge in Hfit by lia.
    change (String " " EmptyString) with " "%string in Hjoin. rewrite Hjoin in Hfit.
    assert (H : measureText l <= maxWidthPx) by (apply Hfit; simpl; lia). lra.
Qed.

Lemma pending_within (words : list string) : forall cur,
  measureText cur <= maxWidthPx ->
  Forall (fun w => measureText w <= maxWidthPx) words ->
  Forall (fun l => measureText l <= maxWidthPx) (pending measureText maxWidthPx cur words).
Proof.
  induction words as [|w ws IH]; intros cur Hcur Hws; cbn [pending].
  - now constructor.
  - inversion Hws as [|? ? Hw Hws']; subst. destruct (truthy cur).
    + destruct (Qlt_bool _ _) eqn:E.
      * constructor; [exact Hcur | now apply IH].
      * apply Qlt_bool_false in E. now apply IH.
    + now apply IH.
Qed.

Lemma wrapLine_within (l : string) :
  Forall (fun w => measureText w <= maxWidthPx) (split " " l) ->
  Forall (fun l => measureText l <= maxWidthPx) (wrapLine measureText maxWidthPx l).
Proof.
  intros Hws. rewrite wrapLine_pending.
  destruct (split_nonempty " " l) as (w & ws & E). rewrite E in *.
  inversion Hws; subst. change (pending measureText maxWidthPx "" (w :: ws))
    with (pending measureText maxWidthPx w ws).
  now apply pending_within.
Qed.

End Width.

(** X19: A wrapped line is wider than the maximum width only when it is a single
    word; so when every word of the text fits the maximum width, every line
    does, and the box is at most the maximum width plus the padding on both
    sides. *)
Theorem box_width_bounded (measureText : string -> Q) (text : string) (st : StyleOptions)
    (videoWidth videoHeight : Q) :
  let maxWidthPx := (maxWidth st / 100) * videoWidth in
  let paddingPx := (fontSize st / 100) * videoHeight * (padding st / 100) in
  (forall l, In l (wrapText measureText maxWidthPx text) ->
     maxWidthPx < measureText l -> split " " l = [l]) /\
  (0 <= maxWidthPx ->
   (forall explicit w, In explicit (split "010" text) -> In w (split " " explicit) ->
      measureText w <= maxWidthPx) ->
   (forall c, In c (snd (drawText measureText text st videoWidth videoHeight)) ->
      measureText (line c) <= maxWidthPx) /\
   boxWidth (fst (drawText measureText text st videoWidth videoHeight))
     <= maxWidthPx + paddingPx * 2).
Proof.
  intros maxWidthPx paddingPx. split.
  - intros l Hin. rewrite wrapText_per_line in Hin.
    apply in_concat in Hin as (ls & Hls & Hl). apply in_map_iff in Hls as (e & <- & _).
    apply overlong_is_word.
    pose proof (fits_pending measureText maxWidthPx (split " " e) "" (split_words e)) as Hfit.
    rewrite wrapLine_pending in Hl. rewrite Forall_forall in Hfit.
    apply Hfit; [|now apply list_elem_of_In].
    intros k Hk. simpl in Hk. lia.
  - intros HM Hwords.
    assert (Hlines : forall l, In l (wrapText measureText maxWidthPx text) ->
                               measureText l <= maxWidthPx).
    { intros l Hin. rewrite wrapText_per_line in Hin.
      apply in_concat in Hin as (ls & Hls & Hl). apply in_map_iff in Hls as (e & <- & He).
      pose proof (wrapLine_within measureText maxWidthPx e) as Hw.
      rewrite !Forall_forall in Hw.
      apply Hw; [|now apply list_elem_of_In].
      intros w Hw'. apply (Hwords e w He). now apply list_elem_of_In. }
    unfold drawText. cbv zeta. cbn [fst snd boxWidth]. fold maxWidthPx. fold paddingPx. split.
    + intros c Hc. apply list_elem_of_In, list_elem_of_lookup in Hc as [i Hc].
      rewrite list_lookup_imap in Hc.
      destruct (wrapText measureText maxWidthPx text !! i) as [l|] eqn:Hl; [|discriminate].
      simpl in Hc. injection Hc as <-. cbn [line]. apply Hlines.
      apply list_elem_of_In. eapply list_elem_of_lookup_2. exact Hl.
    + destruct (textBlockWidth_from measureText (wrapText measureText maxWidthPx text) 0)
        as (_ & _ & Hle).
      specialize (Hle maxWidthPx HM Hlines). unfold textBlockWidth. lra.
Qed.

Lemma box_width_bounded_witness :
  boxWidth (fst (drawText monospace "Hello world" DEFAULT_STYLES 1920 1080))
    <= (80 / 100) * 1920 + (5 / 100) * 1080 * (20 / 100) * 2.
Proof.
  destruct (box_width_bounded monospace "Hello world" DEFAULT_STYLES 1920 1080) as [_ H].
  destruct H as [_ H].
  - discriminate.
  - intros explicit w [<-|[]] Hw. simpl in Hw.
    destruct Hw as [<-|[<-|[]]]; discriminate.
  - exact H.
Defined.

End Box.

(** ** Colours: [hexToRgb] and the colour string of the eyedropper *)

Module Colors.

Local Open Scope Z_scope.

(** The value of a character of the class [[a-f\d]] under the [i] flag. *)
Definition hexValue (c : ascii) : option Z :=
  let n := Z.of_nat (nat_of_ascii c) in
  if (48 <=? n) && (n <=? 57) then Some (n - 48)
  else if (97 <=? n) && (n <=? 102) then Some (n - 87)
  else if (65 <=? n) && (n <=? 70) then Some (n - 55)
  else None.

(** [parseInt(pair, 16)] on a group [([a-f\d]{2})]. *)
Definition hexPair (c1 c2 : ascii) : option Z :=
  match hexValue c1, hexValue c2 with
  | Some hi, Some lo => Some (16 * hi + lo)
  | _, _ => None
  end.

(** The match of [/^#?([a-f\d]{2})([a-f\d]{2})([a-f\d]{2})$/i] with its
    three groups parsed; [None] when [exec] returns [null]. *)
Definition matchHex (hex : string) : option (Z * Z * Z) :=
  let body := match hex with String "#" rest => rest | _ => hex end in
  match body with
  | String a (String b (String c (String d (String e (String f EmptyString))))) =>
      match hexPair a b, hexPair c d, hexPair e f with
      | Some r, Some g, Some bl => Some (r, g, bl)
      | _, _, _ => None
      end
  | _ => None
  end.

Definition decimal (n : Z) : string := Srt.stringOfNat (Z.to_nat n).

(** [hexToRgb(hex)] *)
Definition hexToRgb (hex : string) : string :=
  match matchHex hex with
  | Some (r, g, b) => (decimal r ++ ", " ++ decimal g ++ ", " ++ decimal b)%string
  | None => "0, 0, 0"%string
  end.

(** [rgbaToString(rgb, opacity)] with the opacity already printed. *)
Definition rgbaToString (rgb opacity : string) : string :=
  ("rgba(" ++ rgb ++ ", " ++ opacity ++ ")")%string.

(** The digit characters of [Number.prototype.toString(16)]. *)
Definition hexChar (d : Z) : ascii :=
  if d <? 10 then ascii_of_nat (Z.to_nat (48 + d)) else ascii_of_nat (Z.to_nat (87 + d)).

Fixpoint hexDigits (fuel : nat) (n : Z) (acc : string) : string :=
  match fuel with
  | O => acc
  | S fuel' =>
      let acc' := String (hexChar (n mod 16)) acc in
      if n / 16 =? 0 then acc' else hexDigits fuel' (n / 16) acc'
  end.

(** [n.toString(16)] for a non-negative integer: no leading zeros, ["0"]
    for zero. The digits of [n] number at most [log2 n + 1]. *)
Definition toString16 (n : Z) : string :=
  hexDigits (S (Z.to_nat (Z.log2 n))) n EmptyString.

(** [s.slice(-k)] *)
Definition sliceLast (k : nat) (s : string) : string :=
  substring (String.length s - k) k s.

(** The colour [sampleColorFromVideo] builds from the sampled pixel:
    [#] followed by the last six characters of ["000000"] and the
    hexadecimal form of [(r << 16) | (g << 8) | b]. *)
Definition sampledColor (r g b : Z) : string :=
  String "#"
    (sliceLast 6 ("000000" ++ toString16 (Z.lor (Z.lor (Z.shiftl r 16) (Z.shiftl g 8)) b))).

(** Exactly [k] hexadecimal digits of [n], most significant first. *)
Fixpoint fixedHex (k : nat) (n : Z) (acc : string) : string :=
  match k with
  | O => acc
  | S k' => fixedHex k' (n / 16) (String (hexChar (n mod 16)) acc)
  end.

Fixpoint zeros (k : nat) : string :=
  match k with
  | O => EmptyString
  | S k' => String "0" (zeros k')
  end.

Lemma zeros_shift k acc : (zeros k ++ String "0" acc)%string = String "0" (zeros k ++ acc).
Proof. induction k as [|k IH]; simpl; [reflexivity | now rewrite IH]. Qed.

Lemma fixedHex_zero k acc : fixedHex k 0 acc = (zeros k ++ acc)%string.
Proof.
  revert acc. induction k as [|k IH]; intros acc; [reflexivity|].
  cbn [fixedHex]. change (0 / 16) with 0. change (hexChar (0 mod 16)) with "0"%char.
  rewrite IH. apply zeros_shift.
Qed.

(** [toString(16)] prints the digits [fixedHex] prints, less leading zeros,
    whenever the fuel covers the digits of the number. *)
Lemma fixedHex_hexDigits k : forall fuel n acc,
  0 <= n < 16 ^ Z.of_nat k -> n < 16 ^ Z.of_nat fuel -> (1 <= k)%nat -> (1 <= fuel)%nat ->
  exists z, fixedHex k n acc = (zeros z ++ hexDigits fuel n acc)%string.
Proof.
  induction k as [|k IH]; intros fuel n acc Hn Hf Hk Hfuel; [lia|].
  destruct fuel as [|fuel]; [lia|]. cbn [fixedHex hexDigits].
  destruct (Z.eqb_spec (n / 16) 0) as [E|E].
  - rewrite E, fixedHex_zero. now exists k.
  - rewrite Nat2Z.inj_succ, Z.pow_succ_r in Hn, Hf by lia.
    assert (Hq : 1 <= n / 16).
    { assert (0 <= n / 16) by (apply Z.div_pos; lia). lia. }
    assert (Hqk : n / 16 < 16 ^ Z.of_nat k) by (apply Z.div_lt_upper_bound; lia).
    assert (Hqf : n / 16 < 16 ^ Z.of_nat fuel) by (apply Z.div_lt_upper_bound; lia).
    destruct k as [|k]; [simpl in Hqk; lia|].
    destruct fuel as [|fuel]; [simpl in Hqf; lia|].
    apply IH; lia.
Qed.

Lemma fixedHex_length k : forall n acc,
  String.length (fixedHex k n acc) = (k + String.length acc)%nat.
Proof.
  induction k as [|k IH]; intros n acc; [reflexivity|].
  cbn [fixedHex]. rewrite IH. simpl. lia.
Qed.

Lemma zeros_app a b : zeros (a + b) = (zeros a ++ zeros b)%string.
Proof. induction a as [|a IH]; simpl; [reflexivity | now rewrite IH]. Qed.

Lemma zeros_length k : String.length (zeros k) = k.
Proof. induction k as [|k IH]; simpl; [reflexivity | now rewrite IH]. Qed.

Lemma substring_all s : substring 0 (String.length s) s = s.
Proof. induction s as [|c s IH]; simpl; [reflexivity | now rewrite IH]. Qed.

Lemma sliceLast_app k front back :
  String.length back = k -> sliceLast k (front ++ back) = back.
Proof.
  intros <-. unfold sliceLast. rewrite Layout.string_length_append.
  replace (String.length front + String.length back - String.length back)%nat
    with (String.length front) by lia.
  induction front as [|c front IH]; simpl; [apply substring_all | exact IH].
Qed.

Lemma append_assoc (a b c : string) : ((a ++ b) ++ c = a ++ (b ++ c))%string.
Proof. induction a as [|x a IH]; simpl; [reflexivity | now rewrite IH]. Qed.

(** Padding with six zeros and keeping the last six characters gives the
    six-digit form. *)
Lemma padded_hex n :
  0 <= n < 16 ^ 6 ->
  sliceLast 6 ("000000" ++ toString16 n) = fixedHex 6 n EmptyString.
Proof.
  intros Hn. unfold toString16.
  assert (Hfuel : n < 16 ^ Z.of_nat (S (Z.to_nat (Z.log2 n)))).
  { destruct (Z.eq_dec n 0) as [->|Hne]; [reflexivity|].
    rewrite Nat2Z.inj_succ, Z2Nat.id by apply Z.log2_nonneg.
    pose proof (Z.log2_spec n ltac:(lia)) as [_ Hlt].
    eapply Z.lt_le_trans; [exact Hlt|].
    apply Z.pow_le_mono_l. lia. }
  set (fuel := S (Z.to_nat (Z.log2 n))) in *.
  destruct (fixedHex_hexDigits 6 fuel n EmptyString Hn Hfuel ltac:(lia) ltac:(lia))
    as [z Hz].
  clearbody fuel.
  pose proof (fixedHex_length 6 n EmptyString) as Hlen.
  rewrite Hz, Layout.string_length_append, zeros_length in Hlen.
  change (6 + String.length EmptyString)%nat with 6%nat in Hlen.
  change "000000"%string with (zeros 6).
  replace 6%nat with ((6 - z) + z)%nat at 2 by lia.
  rewrite zeros_app, append_assoc, Hz.
  apply sliceLast_app. rewrite Layout.string_length_append, zeros_length. lia.
Qed.

Lemma land_shifted a b k :
  0 <= k -> 0 <= b < 2 ^ k -> Z.land (Z.shiftl a k) b = 0.
Proof.
  intros Hk Hb. apply Z.bits_inj'. intros n Hn.
  rewrite Z.land_spec, Z.bits_0.
  destruct (Z.lt_ge_cases n k) as [Hlt|Hge].
  - rewrite Z.shiftl_spec_low by exact Hlt. reflexivity.
  - destruct (Z.eq_dec b 0) as [->|Hne]; [now rewrite Z.bits_0, andb_false_r|].
    rewrite (Z.bits_above_log2 b n); [apply andb_false_r | lia |].
    apply Z.log2_lt_pow2; [lia|]. eapply Z.lt_le_trans; [apply Hb|].
    apply Z.pow_le_mono_r; lia.
Qed.

Lemma lor_shifted a b k :
  0 <= k -> 0 <= b < 2 ^ k -> Z.lor (Z.shiftl a k) b = a * 2 ^ k + b.
Proof.
  intros Hk Hb. pose proof (Zbitwise.Z.add_lor_land (Z.shiftl a k) b) as H.
  rewrite (land_shifted a b k Hk Hb) in H.
  rewrite Z.shiftl_mul_pow2 in * by exact Hk. lia.
Qed.

Lemma packed_pixel r g b :
  0 <= r <= 255 -> 0 <= g <= 255 -> 0 <= b <= 255 ->
  Z.lor (Z.lor (Z.shiftl r 16) (Z.shiftl g 8)) b = r * 65536 + g * 256 + b.
Proof.
  intros Hr Hg Hb.
  assert (E1 : Z.lor (Z.shiftl r 16) (Z.shiftl g 8) = r * 65536 + g * 256).
  { rewrite (Z.shiftl_mul_pow2 g 8) by lia.
    rewrite (lor_shifted r (g * 2 ^ 8) 16); [reflexivity | lia |].
    change (2 ^ 8) with 256. change (2 ^ 16) with 65536. lia. }
  rewrite E1.
  replace (r * 65536 + g * 256) with (Z.shiftl (r * 256 + g) 8)
    by (rewrite Z.shiftl_mul_pow2 by lia; change (2 ^ 8) with 256; lia).
  rewrite lor_shifted; [now rewrite Z.shiftl_mul_pow2 by lia | lia |].
  change (2 ^ 8) with 256. lia.
Qed.

Lemma hexValue_hexChar d : 0 <= d < 16 -> hexValue (hexChar d) = Some d.
Proof.
  intros Hd.
  assert (H : d = 0 \/ d = 1 \/ d = 2 \/ d = 3 \/ d = 4 \/ d = 5 \/ d = 6 \/ d = 7 \/
              d = 8 \/ d = 9 \/ d = 10 \/ d = 11 \/ d = 12 \/ d = 13 \/ d = 14 \/ d = 15)
    by lia.
  repeat (destruct H as [->|H]; [reflexivity|]). subst d. reflexivity.
Qed.

Lemma hexPair_digits n :
  0 <= n -> hexPair (hexChar (n / 16 mod 16)) (hexChar (n mod 16)) = Some (n mod 256).
Proof.
  intros Hn. unfold hexPair.
  rewrite !hexValue_hexChar by (apply Z.mod_pos_bound; lia).
  f_equal. Z.to_euclidean_division_equations. lia.
Qed.

(** X20: The colour picked by the eyedropper is read back as the sampled pixel:
    the string is [#] and six hexadecimal digits, [hexToRgb] accepts it, and
    the components it prints are the red, green and blue bytes sampled. *)
Theorem eyedropper_round_trip (r g b : Z) :
  0 <= r <= 255 -> 0 <= g <= 255 -> 0 <= b <= 255 ->
  String.length (sampledColor r g b) = 7%nat /\
  matchHex (sampledColor r g b) = Some (r, g, b) /\
  hexToRgb (sampledColor r g b) =
    (decimal r ++ ", " ++ decimal g ++ ", " ++ decimal b)%string.
Proof.
  intros Hr Hg Hb. unfold sampledColor. rewrite (packed_pixel r g b Hr Hg Hb).
  set (n := r * 65536 + g * 256 + b).
  assert (Hn : 0 <= n < 16 ^ 6) by (change (16 ^ 6) with 16777216; lia).
  rewrite (padded_hex n Hn).
  assert (Hm : matchHex (String "#" (fixedHex 6 n EmptyString)) = Some (r, g, b)).
  { cbn [fixedHex]. unfold matchHex.
    pose proof (hexPair_digits n ltac:(lia)) as P0.
    pose proof (hexPair_digits (n / 16 / 16) ltac:(Z.to_euclidean_division_equations; lia)) as P1.
    pose proof (hexPair_digits (n / 16 / 16 / 16 / 16)
                  ltac:(Z.to_euclidean_division_equations; lia)) as P2.
    rewrite P2, P1, P0. f_equal. subst n.
    f_equal; [f_equal|]; Z.to_euclidean_division_equations; lia. }
  split; [|split].
  - cbn [String.length]. now rewrite fixedHex_length.
  - exact Hm.
  - unfold hexToRgb. now rewrite Hm.
Qed.

Lemma eyedropper_round_trip_witness :
  hexToRgb (sampledColor 255 128 0) = "255, 128, 0"%string.
Proof.
  destruct (eyedropper_round_trip 255 128 0) as (_ & _ & H); [lia..|].
  exact H.
Defined.

Lemma hexValue_range c v : hexValue c = Some v -> 0 <= v <= 15.
Proof.
  unfold hexValue. set (n := Z.of_nat (nat_of_ascii c)).
  repeat match goal with
         | |- context [(?a <=? ?b) && (?c <=? ?d)] =>
             destruct (Z.leb_spec a b), (Z.leb_spec c d); cbn [andb]
         end; intros [= <-]; lia.
Qed.

Lemma hexPair_range c1 c2 v : hexPair c1 c2 = Some v -> 0 <= v <= 255.
Proof.
  unfold hexPair. destruct (hexValue c1) as [hi|] eqn:E1; [|discriminate].
  destruct (hexValue c2) as [lo|] eqn:E2; [|discriminate].
  apply hexValue_range in E1, E2. intros [= <-]. lia.
Qed.

(** The six digits the pattern requires after the optional [#]. *)
Definition sixDigits (body : string) : option (Z * Z * Z) :=
  match body with
  | String a (String b (String c (String d (String e (String f EmptyString))))) =>
      match hexPair a b, hexPair c d, hexPair e f with
      | Some r, Some g, Some bl => Some (r, g, bl)
      | _, _, _ => None
      end
  | _ => None
  end.

Lemma sixDigits_length body v : sixDigits body = Some v -> String.length body = 6%nat.
Proof.
  destruct body as [|a1 [|a2 [|a3 [|a4 [|a5 [|a6 [|x rest]]]]]]]; try discriminate.
  reflexivity.
Qed.

Lemma matchHex_cases hex :
  (exists rest, hex = String "#" rest /\ matchHex hex = sixDigits rest) \/
  matchHex hex = sixDigits hex.
Proof.
  destruct hex as [|c rest]; [right; reflexivity|].
  destruct (Ascii.eqb_spec c "#") as [->|Hne].
  - left. exists rest. split; reflexivity.
  - right. unfold matchHex, sixDigits.
    destruct c as [[] [] [] [] [] [] [] []]; try reflexivity; congruence.
Qed.

(** X21: [hexToRgb] reads only six hexadecimal digits with an optional leading
    [#]: every accepted colour has components between 0 and 255, and any
    other string, the three-digit shorthand included, is read as black. *)
Theorem hex_colors_only (hex : string) :
  (forall r g b, matchHex hex = Some (r, g, b) ->
     0 <= r <= 255 /\ 0 <= g <= 255 /\ 0 <= b <= 255 /\
     (String.length hex = 6%nat \/ String.length hex = 7%nat)) /\
  (String.length hex <> 6%nat -> String.length hex <> 7%nat ->
     hexToRgb hex = "0, 0, 0"%string).
Proof.
  assert (Hsix : forall body r g b, sixDigits body = Some (r, g, b) ->
                   0 <= r <= 255 /\ 0 <= g <= 255 /\ 0 <= b <= 255).
  { intros body r g b. unfold sixDigits.
    destruct body as [|a1 [|a2 [|a3 [|a4 [|a5 [|a6 [|x rest]]]]]]]; try discriminate.
    destruct (hexPair a1 a2) eqn:E1; [|discriminate].
    destruct (hexPair a3 a4) eqn:E2; [|discriminate].
    destruct (hexPair a5 a6) eqn:E3; [|discriminate].
    intros [= <- <- <-].
    apply hexPair_range in E1, E2, E3. auto. }
  assert (Hall : forall r g b, matchHex hex = Some (r, g, b) ->
                   0 <= r <= 255 /\ 0 <= g <= 255 /\ 0 <= b <= 255 /\
                   (String.length hex = 6%nat \/ String.length hex = 7%nat)).
  { intros r g b Hm. destruct (matchHex_cases hex) as [(rest & -> & E)|E];
      rewrite E in Hm; destruct (Hsix _ _ _ _ Hm) as (Hr & Hg & Hb);
      apply sixDigits_length in Hm;
      (split; [exact Hr|]; split; [exact Hg|]; split; [exact Hb|]).
    - right. simpl. now rewrite Hm.
    - now left. }
  split; [exact Hall|].
  intros H6 H7. unfold hexToRgb.
  destruct (matchHex hex) as [[[r g] b]|] eqn:Hm; [|reflexivity].
  destruct (Hall r g b eq_refl) as (_ & _ & _ & [H|H]); contradiction.
Qed.

End Colors.

(** ** The time fields of the caption list: display, parsing, commit *)

Module TimeField.

Import History Editing.

(** [x % m] on numbers: the remainder has the sign of [x]; on doubles it is
    computed without rounding. *)
Definition jsRem (x m : Q) : Q :=
  x - m * inject_Z (Srt.ToIntegerOrInfinity (x / m)).

(** [String(n)] for an integer. *)
Definition stringOfZ (z : Z) : string :=
  if (z <? 0)%Z then String "-" (Srt.stringOfNat (Z.to_nat (- z)))
  else Srt.stringOfNat (Z.to_nat z).

(** [s.padStart(k, '0')] *)
Definition padStart (k : nat) (s : string) : string :=
  (Colors.zeros (k - String.length s) ++ s)%string.

(** [formatDisplayTime(seconds)]: [MM:SS.mmm]. The quotient and the
    product are doubles, rounded before [Math.floor]; the remainder of two
    doubles is exact. *)
Definition formatDisplayTime (seconds : Q) : string :=
  let minutes := Qfloor (fl64 (seconds / 60)) in
  let remainingSeconds := Qfloor (jsRem seconds 60) in
  let milliseconds := Qfloor (fl64 (jsRem seconds 1 * 1000)) in
  (padStart 2 (stringOfZ minutes) ++ ":" ++ padStart 2 (stringOfZ remainingSeconds) ++ "." ++
   padStart 3 (stringOfZ milliseconds))%string.

(** [s.split(/[:.]/)] *)
Definition isSeparator (c : ascii) : bool := Ascii.eqb c ":" || Ascii.eqb c ".".

Fixpoint splitFields (s : string) : list string :=
  match s with
  | EmptyString => [EmptyString]
  | String c rest =>
      if isSeparator c then EmptyString :: splitFields rest
      else
        match splitFields rest with
        | [] => [String c EmptyString]
        | piece :: pieces => String c piece :: pieces
        end
  end.

Definition digitValue (c : ascii) : option Z :=
  let n := Z.of_nat (nat_of_ascii c) in
  if ((48 <=? n) && (n <=? 57))%Z then Some (n - 48)%Z else None.

(** The longest run of decimal digits at the front of [s], read as a
    number on top of [acc]; the flag tells whether any digit was read. *)
Fixpoint readDigits (s : string) (acc : Z) (any : bool) : Z * bool :=
  match s with
  | EmptyString => (acc, any)
  | String c rest =>
      match digitValue c with
      | Some d => readDigits rest (10 * acc + d)%Z true
      | None => (acc, any)
      end
  end.

(** [parseInt(s, 10)]: leading white space, an optional sign, then digits up
    to the first other character; [None] is [NaN]. *)
Definition parseInt (s : string) : option Z :=
  let s := CaptionList.trimStart s in
  let '(negative, body) :=
    match s with
    | String "-" rest => (true, rest)
    | String "+" rest => (false, rest)
    | _ => (false, s)
    end in
  match readDigits body 0 false with
  | (n, true) => Some (if negative then (- n)%Z else n)
  | (_, false) => None
  end.

Fixpoint allSome {A} (l : list (option A)) : option (list A) :=
  match l with
  | [] => Some []
  | Some a :: rest => match allSome rest with Some r => Some (a :: r) | None => None end
  | None :: _ => None
  end.

(** [parseTime(timeStr)]; [None] is [null]. *)
Definition parseTime (timeStr : string) : option Q :=
  match allSome (map parseInt (splitFields timeStr)) with
  | None => None
  | Some parts =>
      match parts with
      | [p0; p1; p2] => Some (inject_Z p0 * 60 + inject_Z p1 + inject_Z p2 / 1000)
      | [p0; p1] => Some (inject_Z p0 + inject_Z p1 / 1000)
      | [p0] => Some (inject_Z p0)
      | _ => None
      end
  end.

(** [handleBlur] of a time field: the value handed to [onChange], [None]
    when the text does not parse and the display is reset. *)
Definition handleBlur (displayValue : string) (max : Q) : option Q :=
  match parseTime displayValue with
  | Some parsedSeconds => Some (Qmax 0 (Qmin max parsedSeconds))
  | None => None
  end.

(** The start field of caption [index]: [max] is [caption.end - 0.1] and the
    change goes to [handleCaptionTimeChange(index, newStart, caption.end, false)]. *)
Definition editStart (index : nat) (caption : Caption) (displayValue : string)
    (ed : Editor) : Editor :=
  match handleBlur displayValue (end_ caption - (1 # 10)) with
  | Some newStart => handleCaptionTimeChange index newStart (end_ caption) false ed
  | None => ed
  end.

(** The end field: [max] is the video duration. *)
Definition editEnd (index : nat) (caption : Caption) (videoDuration : Q)
    (displayValue : string) (ed : Editor) : Editor :=
  match handleBlur displayValue videoDuration with
  | Some newEnd => handleCaptionTimeChange index (start caption) newEnd false ed
  | None => ed
  end.

Example display_time : formatDisplayTime (fl64 (7553 # 100)) = "01:15.530"%string.
Proof. vm_compute. reflexivity. Qed.

(** The double 4.35 is a little below 4.35, and so is the product of its
    fraction with 1000 below 350. *)
Example display_rounds_down : formatDisplayTime (fl64 (435 # 100)) = "00:04.349"%string.
Proof. vm_compute. reflexivity. Qed.

(** The double 0.35 is a little below 0.35 too, but the product of it with
    1000 is rounded to the double 350. *)
Example display_rounds_up : formatDisplayTime (fl64 (35 # 100)) = "00:00.350"%string.
Proof. vm_compute. reflexivity. Qed.

Example parse_three : parseTime "01:15.530" = Some (inject_Z 1 * 60 + inject_Z 15 + inject_Z 530 / 1000).
Proof. vm_compute. reflexivity. Qed.

Example parse_garbage : parseTime "1:xx.5" = None.
Proof. vm_compute. reflexivity. Qed.

(** *** Reading back what [String(n)] printed *)

Definition isDigit (c : ascii) : bool :=
  match digitValue c with Some _ => true | None => false end.

Fixpoint digitString (s : string) : bool :=
  match s with
  | EmptyString => true
  | String c rest => isDigit c && digitString rest
  end.

Lemma readDigits_uint (d : Decimal.uint) (a : nat) (any : bool) :
  readDigits (DecimalString.NilEmpty.string_of_uint d) (Z.of_nat a) any =
    (Z.of_nat (Nat.of_uint_acc d a),
     any || match d with Decimal.Nil => false | _ => true end).
Proof.
  revert a any. induction d; intros a any; cbn [DecimalString.NilEmpty.string_of_uint readDigits Nat.of_uint_acc];
    [now rewrite orb_false_r|..];
    match goal with
    | |- context [digitValue ?c] =>
        let v := eval vm_compute in (digitValue c) in change (digitValue c) with v
    end; cbv iota beta;
    match goal with
    | |- readDigits _ ?z _ = (Z.of_nat (Nat.of_uint_acc _ ?n), _) =>
        replace z with (Z.of_nat n) by (rewrite ?Nat.tail_mul_spec; lia)
    end;
    rewrite IHd; now rewrite orb_true_r.
Qed.

Lemma digitString_uint (d : Decimal.uint) :
  digitString (DecimalString.NilEmpty.string_of_uint d) = true.
Proof. induction d; cbn [DecimalString.NilEmpty.string_of_uint digitString]; [reflexivity|..]; exact IHd. Qed.

Lemma stringOfNat_uint (n : nat) :
  Srt.stringOfNat n = DecimalString.NilEmpty.string_of_uint (Nat.to_uint n) /\
  Nat.to_uint n <> Decimal.Nil.
Proof.
  unfold Srt.stringOfNat, DecimalString.NilZero.string_of_uint.
  destruct (Nat.to_uint n) eqn:E; try (split; [reflexivity|discriminate]).
  exfalso. pose proof (DecimalNat.Unsigned.of_to n) as H. rewrite E in H.
  subst n. discriminate.
Qed.

Lemma readDigits_stringOfNat (n : nat) (any : bool) :
  readDigits (Srt.stringOfNat n) 0 any = (Z.of_nat n, true).
Proof.
  destruct (stringOfNat_uint n) as [-> Hnil].
  change 0%Z with (Z.of_nat 0). rewrite readDigits_uint.
  change (Nat.of_uint_acc (Nat.to_uint n) 0) with (Nat.of_uint (Nat.to_uint n)).
  rewrite DecimalNat.Unsigned.of_to. f_equal.
  destruct (Nat.to_uint n); [congruence|..]; apply orb_true_r.
Qed.

Lemma digitString_stringOfNat (n : nat) : digitString (Srt.stringOfNat n) = true.
Proof. destruct (stringOfNat_uint n) as [-> _]. apply digitString_uint. Qed.

Lemma stringOfNat_nonempty (n : nat) : Srt.stringOfNat n <> EmptyString.
Proof.
  intros E. pose proof (readDigits_stringOfNat n false) as H. rewrite E in H. discriminate.
Qed.

Lemma digitString_app (a b : string) :
  digitString (a ++ b) = digitString a && digitString b.
Proof.
  induction a as [|c a IH]; [reflexivity|].
  cbn [append digitString]. rewrite IH. now rewrite andb_assoc.
Qed.

Lemma digitString_zeros (k : nat) : digitString (Colors.zeros k) = true.
Proof. induction k; [reflexivity|exact IHk]. Qed.

Lemma readDigits_zeros (k : nat) (s : string) (any : bool) :
  readDigits (Colors.zeros k ++ s) 0 any = readDigits s 0 (any || (0 <? k)%nat).
Proof.
  revert any. induction k as [|k IH]; intros any.
  - cbn [Colors.zeros append]. now rewrite orb_false_r.
  - cbn [Colors.zeros append readDigits].
    change (digitValue "0") with (Some 0%Z). cbv iota beta.
    change (10 * 0 + 0)%Z with 0%Z. rewrite IH. now rewrite orb_true_r.
Qed.

Lemma digit_plain (c : ascii) :
  isDigit c = true ->
  isSeparator c = false /\ CaptionList.isWhiteSpace c = false /\
  Ascii.eqb c "-" = false /\ Ascii.eqb c "+" = false.
Proof.
  destruct c as [[] [] [] [] [] [] [] []]; intros H; try discriminate H;
    repeat split; reflexivity.
Qed.

(** A non-empty run of digits is read by [parseInt] as its value. *)
Lemma parseInt_digits (s : string) :
  digitString s = true -> s <> EmptyString ->
  parseInt s = Some (fst (readDigits s 0 false)).
Proof.
  destruct s as [|c rest]; [congruence|]. intros Hd _.
  cbn [digitString] in Hd. apply andb_true_iff in Hd as [Hc Hrest].
  destruct (digit_plain c Hc) as (_ & Hw & Hminus & Hplus).
  unfold parseInt. cbn [CaptionList.trimStart]. rewrite Hw.
  assert (Hbody : (let '(negative, body) :=
                     match String c rest with
                     | String "-" r => (true, r)
                     | String "+" r => (false, r)
                     | _ => (false, String c rest)
                     end in
                   match readDigits body 0 false with
                   | (n, true) => Some (if negative then (- n)%Z else n)
                   | (_, false) => None
                   end) =
                  match readDigits (String c rest) 0 false with
                  | (n, true) => Some n
                  | (_, false) => None
                  end).
  { destruct c as [[] [] [] [] [] [] [] []]; try discriminate Hminus; try discriminate Hplus;
      reflexivity. }
  rewrite Hbody. cbn [readDigits]. unfold isDigit in Hc.
  destruct (digitValue c) as [d|]; [|discriminate].
  clear. generalize (10 * 0 + d)%Z. revert rest.
  assert (Hany : forall rest z, snd (readDigits rest z true) = true).
  { induction rest as [|c rest IH]; intros z; cbn [readDigits]; [reflexivity|].
    destruct (digitValue c); [apply IH|reflexivity]. }
  intros rest z. specialize (Hany rest z).
  destruct (readDigits rest z true) as [n any]. cbn [snd fst] in *. now subst any.
Qed.

Lemma parseInt_padded (k n : nat) :
  parseInt (padStart k (Srt.stringOfNat n)) = Some (Z.of_nat n).
Proof.
  unfold padStart. rewrite parseInt_digits.
  - now rewrite readDigits_zeros, readDigits_stringOfNat.
  - now rewrite digitString_app, digitString_zeros, digitString_stringOfNat.
  - intros E. pose proof (stringOfNat_nonempty n) as Hne.
    destruct (Colors.zeros _); [exact (Hne E)|discriminate E].
Qed.

Lemma digitString_padded (k n : nat) : digitString (padStart k (Srt.stringOfNat n)) = true.
Proof.
  unfold padStart. now rewrite digitString_app, digitString_zeros, digitString_stringOfNat.
Qed.

Lemma splitFields_digits (a : string) : digitString a = true -> splitFields a = [a].
Proof.
  induction a as [|c a IH]; [reflexivity|]. cbn [digitString splitFields].
  intros H. apply andb_true_iff in H as [Hc Ha].
  destruct (digit_plain c Hc) as (-> & _). now rewrite (IH Ha).
Qed.

Lemma splitFields_app (a : string) (c : ascii) (rest : string) :
  digitString a = true -> isSeparator c = true ->
  splitFields (a ++ String c rest) = a :: splitFields rest.
Proof.
  intros Ha Hc. induction a as [|d a IH].
  - cbn [append splitFields]. now rewrite Hc.
  - cbn [digitString] in Ha. apply andb_true_iff in Ha as [Hd Ha].
    cbn [append splitFields]. destruct (digit_plain d Hd) as (-> & _).
    now rewrite (IH Ha).
Qed.

(** What [formatDisplayTime] prints for three non-negative fields is read
    back by [parseTime] as minutes, seconds and thousandths. *)
Lemma parse_fields (m s ms : nat) :
  parseTime (padStart 2 (Srt.stringOfNat m) ++ ":" ++ padStart 2 (Srt.stringOfNat s) ++ "." ++
             padStart 3 (Srt.stringOfNat ms)) =
    Some (inject_Z (Z.of_nat m) * 60 + inject_Z (Z.of_nat s) + inject_Z (Z.of_nat ms) / 1000).
Proof.
  unfold parseTime.
  change (":" ++ ?x)%string with (String ":" x).
  rewrite splitFields_app by (apply digitString_padded || reflexivity).
  change ("." ++ ?x)%string with (String "." x).
  rewrite splitFields_app by (apply digitString_padded || reflexivity).
  rewrite splitFields_digits by apply digitString_padded.
  cbn [map allSome]. now rewrite !parseInt_padded.
Qed.

(** *** Floors *)

Lemma Qfloor_unique (x : Q) (z : Z) :
  inject_Z z <= x -> x < inject_Z (z + 1) -> Qfloor x = z.
Proof.
  intros Hle Hlt.
  pose proof (Qfloor_le x) as Hf. pose proof (Qlt_floor x) as Hg.
  assert (H1 : inject_Z z < inject_Z (Qfloor x + 1)) by (eapply Qle_lt_trans; eassumption).
  assert (H2 : inject_Z (Qfloor x) < inject_Z (z + 1)) by (eapply Qle_lt_trans; eassumption).
  rewrite <- Zlt_Qlt in H1, H2. lia.
Qed.

Lemma Qfloor_sub_int (x : Q) (k : Z) : Qfloor (x - inject_Z k) = (Qfloor x - k)%Z.
Proof.
  pose proof (Qfloor_le x) as Hf. pose proof (Qlt_floor x) as Hg.
  apply Qfloor_unique.
  - unfold Z.sub. rewrite inject_Z_plus, inject_Z_opp. lra.
  - replace (Qfloor x - k + 1)%Z with ((Qfloor x + 1) + - k)%Z by lia.
    rewrite inject_Z_plus, inject_Z_opp. lra.
Qed.

Lemma Qfloor_nonneg (x : Q) : 0 <= x -> (0 <= Qfloor x)%Z.
Proof. intros H. change 0%Z with (Qfloor 0). now apply Qfloor_resp_le. Qed.

(** The time cut down to whole thousandths of a second. *)
Definition wholeMillis (seconds : Q) : Q := inject_Z (Qfloor (seconds * 1000)) / 1000.

(** For a time that is not negative the three printed fields are numbers
    that are not negative, and [parseTime] reads them back. The minutes are
    the whole minutes of the time, or one more when the quotient is rounded
    up to the next integer; the seconds are the whole seconds left; the
    thousandths are the whole thousandths left, or one more when the product
    is rounded up to the next integer. *)
Lemma format_parse (seconds : Q) :
  0 <= seconds -> seconds < inject_Z (2 ^ 53) ->
  exists (v : Q) (a b : Z),
    parseTime (formatDisplayTime seconds) = Some v /\
    a = (Qfloor (fl64 (seconds / 60)) - Qfloor (seconds / 60))%Z /\
    (0 <= a <= 1)%Z /\ (0 <= b <= 1)%Z /\
    v == wholeMillis seconds + inject_Z a * 60 + inject_Z b / 1000.
Proof.
  intros Hpos Hbig.
  assert (Htrunc : forall d, 0 < d -> Srt.ToIntegerOrInfinity (seconds / d) = Qfloor (seconds / d)).
  { intros d Hd. unfold Srt.ToIntegerOrInfinity.
    assert (H : 0 <= seconds / d).
    { apply Qle_shift_div_l; [exact Hd|]. lra. }
    apply Qle_bool_iff in H. now rewrite H. }
  pose proof (Qfloor_le (seconds / 60)) as Hm.
  pose proof (Qfloor_le seconds) as Hs.
  pose proof (Qlt_floor seconds) as Hs'. rewrite inject_Z_plus in Hs'.
  change (inject_Z 1) with 1 in Hs'.
  assert (Hq0 : 0 <= seconds / 60) by (apply Qle_shift_div_l; lra).
  assert (Hq1 : seconds / 60 < inject_Z (2 ^ 53)).
  { apply Qlt_shift_div_r; [lra|].
    assert (0 < inject_Z (2 ^ 53)) by (change 0 with (inject_Z 0); now rewrite <- Zlt_Qlt).
    lra. }
  assert (Hm' : 60 * inject_Z (Qfloor (seconds / 60)) <= seconds).
  { assert (H : seconds / 60 * 60 == seconds) by (field).
    rewrite <- H at 2. lra. }
  assert (Hone : Qfloor (seconds / 1) = Qfloor seconds).
  { apply Qfloor_comp. field. }
  pose proof (floor_fl64 (seconds / 60) Hq0 Hq1) as Hmin.
  assert (Hmin0 : (0 <= Qfloor (seconds / 60))%Z) by now apply Qfloor_nonneg.
  assert (Hsec : Qfloor (jsRem seconds 60) = (Qfloor seconds - 60 * Qfloor (seconds / 60))%Z).
  { unfold jsRem. rewrite Htrunc by lra.
    rewrite <- Qfloor_sub_int. apply Qfloor_comp. rewrite inject_Z_mult. reflexivity. }
  assert (Hsec0 : (0 <= Qfloor (jsRem seconds 60))%Z).
  { apply Qfloor_nonneg. unfold jsRem. rewrite Htrunc by lra. lra. }
  assert (Hfrac : jsRem seconds 1 * 1000 == (seconds - inject_Z (Qfloor seconds)) * 1000).
  { unfold jsRem. rewrite Htrunc by lra. rewrite Hone. ring. }
  assert (Hx0 : 0 <= jsRem seconds 1 * 1000) by (rewrite Hfrac; lra).
  assert (Hx1 : jsRem seconds 1 * 1000 < inject_Z (2 ^ 53)).
  { rewrite Hfrac. apply Qlt_trans with 1000; [lra|].
    change 1000 with (inject_Z 1000). rewrite <- Zlt_Qlt. reflexivity. }
  pose proof (floor_fl64 _ Hx0 Hx1) as Hms.
  assert (Hexact : Qfloor (jsRem seconds 1 * 1000) =
                   (Qfloor (seconds * 1000) - 1000 * Qfloor seconds)%Z).
  { rewrite <- Qfloor_sub_int. apply Qfloor_comp. rewrite Hfrac, inject_Z_mult.
    change (inject_Z 1000) with 1000. ring. }
  assert (Hexact0 : (0 <= Qfloor (jsRem seconds 1 * 1000))%Z) by now apply Qfloor_nonneg.
  set (minutes := Qfloor (fl64 (seconds / 60))) in *.
  set (millis := Qfloor (fl64 (jsRem seconds 1 * 1000))) in *.
  exists (inject_Z minutes * 60 + inject_Z (Qfloor (jsRem seconds 60)) + inject_Z millis / 1000),
         (minutes - Qfloor (seconds / 60))%Z,
         (millis - Qfloor (jsRem seconds 1 * 1000))%Z.
  split; [|split; [reflexivity|split; [lia|split; [lia|]]]].
  - unfold formatDisplayTime, stringOfZ. fold minutes millis.
    destruct (Z.ltb_spec minutes 0); [lia|].
    destruct (Z.ltb_spec (Qfloor (jsRem seconds 60)) 0); [lia|].
    destruct (Z.ltb_spec millis 0); [lia|].
    rewrite parse_fields. rewrite !Z2Nat.id by lia. reflexivity.
  - unfold wholeMillis. rewrite Hsec, Hexact.
    unfold Z.sub. rewrite !inject_Z_plus, !inject_Z_opp, !inject_Z_mult, !inject_Z_plus,
      !inject_Z_opp, !inject_Z_mult.
    change (inject_Z 60) with 60. change (inject_Z 1000) with 1000. field.
Qed.

Lemma thousandths (x : Q) :
  wholeMillis x <= x /\ x < wholeMillis x + 1 / 1000.
Proof.
  unfold wholeMillis.
  pose proof (Qfloor_le (x * 1000)) as Hf. pose proof (Qlt_floor (x * 1000)) as Hg.
  rewrite inject_Z_plus in Hg. change (inject_Z 1) with 1 in Hg.
  set (f := inject_Z (Qfloor (x * 1000))) in *. clearbody f.
  split.
  - apply Qle_shift_div_r; lra.
  - assert (H : f / 1000 + 1 / 1000 == (f + 1) / 1000) by field.
    rewrite H. apply Qlt_shift_div_l; lra.
Qed.

(** The snapshot committed by a change of times made outside a gesture. *)
Lemma retime_commit (index : nat) (a b : Q) (ed : Editor) (s : EditorState) (c : Caption) :
  currentState ed = Some s -> captions s !! index = Some c ->
  exists s',
    currentState (handleCaptionTimeChange index a b false ed) = Some s' /\
    captions s' !! index = Some {| start := a; end_ := b; text := text c |} /\
    (forall j, j <> index -> captions s' !! j = captions s !! j) /\
    styles s' = styles s /\
    history (handleCaptionTimeChange index a b false ed) =
      take (historyIndex ed + 1) (history ed) ++ [s'] /\
    historyIndex (handleCaptionTimeChange index a b false ed) = (historyIndex ed + 1)%nat.
Proof.
  intros Hs Hc. unfold handleCaptionTimeChange.
  eexists. split; [|split; [|split; [|split; [|split]]]].
  - exact (commit_current _ ed s Hs).
  - cbn [captions]. rewrite list_lookup_alter_eq, Hc. reflexivity.
  - intros j Hj. cbn [captions]. now rewrite list_lookup_alter_ne.
  - reflexivity.
  - unfold currentState in Hs. now rewrite (updateState_commit_shape _ _ _ Hs).
  - reflexivity.
Qed.



(** The double 0.35 is shown as [00:00.350] and read back as 0.35, one
    thousandth above the time cut down to whole thousandths (0.349). *)
Example round_trip_rounds_up :
  parseTime (formatDisplayTime (fl64 (35 # 100))) =
    Some (inject_Z 0 * 60 + inject_Z 0 + inject_Z 350 / 1000) /\
  wholeMillis (fl64 (35 # 100)) == 349 # 1000.
Proof. split; vm_compute; reflexivity. Qed.

(** X23: The start field of a caption: text that does not parse changes
    nothing; any other text commits one new snapshot in which only the
    start of that caption has changed, to a value that is not negative and
    leaves the caption at least 0.1 s long; a typed value inside that range is
    committed as typed, whatever the previous caption's end is. *)
Theorem start_field_commit (index : nat) (caption : Caption) (displayValue : string)
    (ed : Editor) (s : EditorState) :
  currentState ed = Some s -> captions s !! index = Some caption ->
  1 # 10 <= end_ caption ->
  (parseTime displayValue = None /\ editStart index caption displayValue ed = ed) \/
  (exists typed newStart s',
     parseTime displayValue = Some typed /\
     currentState (editStart index caption displayValue ed) = Some s' /\
     captions s' !! index =
       Some {| start := newStart; end_ := end_ caption; text := text caption |} /\
     (forall j, j <> index -> captions s' !! j = captions s !! j) /\
     styles s' = styles s /\
     0 <= newStart /\ 1 # 10 <= end_ caption - newStart /\
     (0 <= typed -> typed <= end_ caption - (1 # 10) -> newStart == typed)).
Proof.
  intros Hs Hc Hend. unfold editStart, handleBlur.
  destruct (parseTime displayValue) as [typed|]; [right|left; split; reflexivity].
  destruct (retime_commit index (Qmax 0 (Qmin (end_ caption - (1 # 10)) typed)) (end_ caption)
              ed s caption Hs Hc) as (s' & Hs' & Hi & Hj & Hst & _).
  exists typed, (Qmax 0 (Qmin (end_ caption - (1 # 10)) typed)), s'.
  split; [reflexivity|]. split; [exact Hs'|]. split; [exact Hi|]. split; [exact Hj|].
  split; [exact Hst|].
  Timeline.split_minmax; (split; [lra|]; split; [lra|]); intros; lra.
Qed.

Lemma start_field_commit_witness :
  let caption := {| start := 1; end_ := 3; text := "A" |} in
  let s := {| captions := [caption]; styles := DEFAULT_STYLES |} in
  let ed := {| history := [s]; historyIndex := 0 |} in
  (parseTime "00:07.000" = None /\ editStart 0 caption "00:07.000" ed = ed) \/
  (exists typed newStart s',
     parseTime "00:07.000" = Some typed /\
     currentState (editStart 0 caption "00:07.000" ed) = Some s' /\
     captions s' !! 0%nat =
       Some {| start := newStart; end_ := end_ caption; text := text caption |} /\
     (forall j, j <> 0%nat -> captions s' !! j = captions s !! j) /\
     styles s' = styles s /\
     0 <= newStart /\ 1 # 10 <= end_ caption - newStart /\
     (0 <= typed -> typed <= end_ caption - (1 # 10) -> newStart == typed)).
Proof.
  intros caption s ed.
  apply (start_field_commit 0 caption "00:07.000" ed s); [reflexivity|reflexivity|].
  unfold Qle. simpl. lia.
Defined.

(** X24: The end field of a caption: a value typed inside [0, videoDuration] is
    committed as the caption's end as typed; the caption's start takes no
    part, so an end at or before the start is committed too. *)
Theorem end_field_commit (index : nat) (caption : Caption) (videoDuration : Q)
    (displayValue : string) (typed : Q) (ed : Editor) (s : EditorState) :
  currentState ed = Some s -> captions s !! index = Some caption ->
  parseTime displayValue = Some typed ->
  0 <= typed -> typed <= videoDuration ->
  exists newEnd s',
    currentState (editEnd index caption videoDuration displayValue ed) = Some s' /\
    captions s' !! index =
      Some {| start := start caption; end_ := newEnd; text := text caption |} /\
    (forall j, j <> index -> captions s' !! j = captions s !! j) /\
    newEnd == typed.
Proof.
  intros Hs Hc Hp H0 Hmax. unfold editEnd, handleBlur. rewrite Hp.
  destruct (retime_commit index (start caption) (Qmax 0 (Qmin videoDuration typed))
              ed s caption Hs Hc) as (s' & Hs' & Hi & Hj & _).
  exists (Qmax 0 (Qmin videoDuration typed)), s'.
  split; [exact Hs'|]. split; [exact Hi|]. split; [exact Hj|].
  Timeline.split_minmax; lra.
Qed.

Lemma end_field_commit_witness :
  let caption := {| start := 2; end_ := 3; text := "A" |} in
  let s := {| captions := [caption]; styles := DEFAULT_STYLES |} in
  let ed := {| history := [s]; historyIndex := 0 |} in
  exists newEnd s',
    currentState (editEnd 0 caption 10 "00:01.500" ed) = Some s' /\
    captions s' !! 0%nat =
      Some {| start := 2; end_ := newEnd; text := "A" |} /\
    (forall j, j <> 0%nat -> captions s' !! j = captions s !! j) /\
    newEnd == inject_Z 0 * 60 + inject_Z 1 + inject_Z 500 / 1000.
Proof.
  intros caption s ed.
  apply (end_field_commit 0 caption 10 "00:01.500" _ ed s);
    [reflexivity|reflexivity|vm_compute; reflexivity|..]; unfold Qle; simpl; lia.
Defined.

(** X25: Leaving a start field without editing it is not a no-op: the
    shown text of a start that is not negative parses, so the handler
    commits. The snapshot, with the start the field hands over, is appended
    to the history as a new entry after the cursor, in place of any entries
    that could be redone. The start committed can differ from the one shown
    before: it is what is read back from the text, and, when the caption is
    at least 0.1 s long and the minutes shown are the whole minutes of the
    start, it lies less than a thousandth below the start and at most a
    thousandth above it. *)
Theorem blur_unedited_start (index : nat) (caption : Caption)
    (ed : Editor) (s : EditorState) :
  currentState ed = Some s -> captions s !! index = Some caption ->
  0 <= start caption -> start caption < inject_Z (2 ^ 53) ->
  let ed' := editStart index caption (formatDisplayTime (start caption)) ed in
  exists newStart s',
    currentState ed' = Some s' /\
    captions s' !! index =
      Some {| start := newStart; end_ := end_ caption; text := text caption |} /\
    (forall j, j <> index -> captions s' !! j = captions s !! j) /\
    styles s' = styles s /\
    history ed' = take (historyIndex ed + 1) (history ed) ++ [s'] /\
    historyIndex ed' = (historyIndex ed + 1)%nat /\
    canRedo ed' = false /\
    (start caption <= end_ caption - (1 # 10) ->
     Qfloor (fl64 (start caption / 60)) = Qfloor (start caption / 60) ->
     start caption - 1 / 1000 < newStart /\ newStart <= start caption + 1 / 1000).
Proof.
  intros Hs Hc H0 Hbig ed'. subst ed'. unfold editStart, handleBlur.
  destruct (format_parse (start caption) H0 Hbig) as (v & a & b & -> & Ha & _ & Hb & E).
  destruct (retime_commit index (Qmax 0 (Qmin (end_ caption - (1 # 10)) v)) (end_ caption)
              ed s caption Hs Hc) as (s' & Hs' & Hi & Hj & Hst & Hh & Hx).
  exists (Qmax 0 (Qmin (end_ caption - (1 # 10)) v)), s'.
  split; [exact Hs'|]. split; [exact Hi|]. split; [exact Hj|]. split; [exact Hst|].
  split; [exact Hh|]. split; [exact Hx|]. split.
  - unfold canRedo. rewrite Hh, Hx, length_app, length_take. cbn [length].
    apply Z.ltb_ge. unfold currentState in Hs. apply lookup_lt_Some in Hs. lia.
  - intros Hmax Hmin. assert (Ha0 : a = 0%Z) by lia.
    destruct (thousandths (start caption)) as [H1 H2].
    rewrite Ha0 in E. change (inject_Z 0) with 0 in E.
    assert (Hb0 : 0 <= inject_Z b / 1000 /\ inject_Z b / 1000 <= 1 / 1000).
    { assert (Hb' : b = 0%Z \/ b = 1%Z) by lia. destruct Hb' as [->| ->]; split;
        unfold Qle; cbn; lia. }
    destruct Hb0 as [Hb0 Hb1]. set (m := inject_Z b / 1000) in *. clearbody m.
    assert (Hv : start caption - 1 / 1000 < v /\ v <= start caption + 1 / 1000)
      by (rewrite E; split; lra).
    destruct Hv as [Hv1 Hv2]. Timeline.split_minmax; split; lra.
Qed.

Lemma blur_unedited_start_witness :
  let caption := {| start := fl64 (435 # 100); end_ := 6; text := "A" |} in
  let s := {| captions := [caption]; styles := DEFAULT_STYLES |} in
  let ed := {| history := [s; s]; historyIndex := 0 |} in
  let ed' := editStart 0 caption (formatDisplayTime (start caption)) ed in
  exists newStart s',
    currentState ed' = Some s' /\
    captions s' !! 0%nat =
      Some {| start := newStart; end_ := end_ caption; text := text caption |} /\
    (forall j, j <> 0%nat -> captions s' !! j = captions s !! j) /\
    styles s' = styles s /\
    history ed' = take (historyIndex ed + 1) (history ed) ++ [s'] /\
    historyIndex ed' = (historyIndex ed + 1)%nat /\
    canRedo ed' = false /\
    (start caption <= end_ caption - (1 # 10) ->
     Qfloor (fl64 (start caption / 60)) = Qfloor (start caption / 60) ->
     start caption - 1 / 1000 < newStart /\ newStart <= start caption + 1 / 1000).
Proof.
  intros caption s ed.
  apply (blur_unedited_start 0 caption ed s); [reflexivity|reflexivity|..];
    vm_compute; [discriminate|reflexivity].
Defined.

(** The start 4.35 is shown as [00:04.349]; leaving the field commits 4.349. *)
Example blur_changes_start :
  let caption := {| start := fl64 (435 # 100); end_ := 6; text := "A" |} in
  let s := {| captions := [caption]; styles := DEFAULT_STYLES |} in
  let ed := {| history := [s]; historyIndex := 0 |} in
  exists c, (currentState (editStart 0 caption (formatDisplayTime (start caption)) ed)
               ≫= fun s' => captions s' !! 0%nat) = Some c /\
            start c == 4349 # 1000.
Proof. eexists. split; [vm_compute; reflexivity|vm_compute; reflexivity]. Qed.

End TimeField.

(** ** Dragging the caption on the preview canvas *)

Module CanvasDrag.

Import History.

Record MouseEvent := mkMouseEvent { clientX : Q; clientY : Q }.

(** [e.currentTarget.getBoundingClientRect()] *)
Record Rect := mkRect { left : Q; top : Q; width : Q; height : Q }.

(** The size of the canvas bitmap and of the video frame. *)
Record Surface := mkSurface {
  canvasWidth : Q; canvasHeight : Q; videoWidth : Q; videoHeight : Q
}.

(** [dragStart]: the pointer ([x], [y] in the source) and the caption
    position at mouse down. *)
Record DragStart := mkDragStart { pointerX : Q; pointerY : Q; styleX : Q; styleY : Q }.

(** The component state the canvas handlers read and write. *)
Record Pointer := mkPointer {
  eyedropperActive : bool;
  isDragging : bool;
  isHovering : bool;
  dragStart : DragStart
}.

(** [{ ...prev.styles, position: value }] *)
Definition withPosition (value : Position) (st : StyleOptions) : StyleOptions :=
  {| foregroundColor := foregroundColor st;
     foregroundColorOpacity := foregroundColorOpacity st;
     backgroundColor := backgroundColor st;
     backgroundOpacity := backgroundOpacity st;
     fontSize := fontSize st;
     maxWidth := maxWidth st;
     padding := padding st;
     borderRadius := borderRadius st;
     position := value;
     horizontalAlign := horizontalAlign st;
     fontFamily := fontFamily st;
     fontWeight := fontWeight st;
     effect := effect st;
     shadowColor := shadowColor st;
     shadowBlur := shadowBlur st;
     shadowOffsetX := shadowOffsetX st;
     shadowOffsetY := shadowOffsetY st;
     strokeColor := strokeColor st;
     strokeWidth := strokeWidth st |}.

(** [handleStyleChange('position', value, merge)] *)
Definition handleStyleChange (value : Position) (merge : bool) (ed : Editor) : Editor :=
  updateState
    (fun prev => {| captions := captions prev; styles := withPosition value (styles prev) |})
    merge ed.

(** The position a pointer move asks for while dragging. *)
Definition draggedPosition (sf : Surface) (ds : DragStart) (e : MouseEvent) (rect : Rect)
    : Position :=
  let scaleX := canvasWidth sf / width rect in
  let scaleY := canvasHeight sf / height rect in
  let deltaX := (clientX e - pointerX ds) * scaleX in
  let deltaY := (clientY e - pointerY ds) * scaleY in
  let newStyleX := styleX ds + (deltaX / videoWidth sf) * 100 in
  let newStyleY := styleY ds + (deltaY / videoHeight sf) * 100 in
  {| x := Qmax 0 (Qmin 100 newStyleX); y := Qmax 0 (Qmin 100 newStyleY) |}.

(** [handleMouseMove] on the canvas: its effect on the history. Outside a
    drag it only updates the hover flag. *)
Definition handleMouseMove (sf : Surface) (p : Pointer) (e : MouseEvent) (rect : Rect)
    (ed : Editor) : Editor :=
  if eyedropperActive p then ed
  else if isDragging p then handleStyleChange (draggedPosition sf (dragStart p) e rect) true ed
  else ed.

(** [handleMouseDown] outside the eyedropper: over the caption it starts a
    drag from the position shown. *)
Definition handleMouseDown (p : Pointer) (e : MouseEvent) (st : StyleOptions) : Pointer :=
  if eyedropperActive p then p
  else if isHovering p then
    {| eyedropperActive := eyedropperActive p;
       isDragging := true;
       isHovering := isHovering p;
       dragStart := {| pointerX := clientX e; pointerY := clientY e;
                       styleX := x (position st); styleY := y (position st) |} |}
  else p.

(** [handleMouseUp]: [updateState(prev => ({...prev}))] when dragging. *)
Definition handleMouseUp (p : Pointer) (ed : Editor) : Editor :=
  if isDragging p then updateState (fun prev => prev) false ed else ed.

(** Mouse down at [e0] on the caption, the pointer moves [moves] (each with
    the rectangle read at that event), release. *)
Definition drag (sf : Surface) (p : Pointer) (e0 : MouseEvent) (st : StyleOptions)
    (moves : list (MouseEvent * Rect)) (ed : Editor) : Editor :=
  let p' := handleMouseDown p e0 st in
  handleMouseUp p'
    (fold_left (fun ed' m => handleMouseMove sf p' (fst m) (snd m) ed') moves ed).

Definition moveUpdater (sf : Surface) (ds : DragStart) (m : MouseEvent * Rect)
    (prev : EditorState) : EditorState :=
  {| captions := captions prev;
     styles := withPosition (draggedPosition sf ds (fst m) (snd m)) (styles prev) |}.

Lemma withPosition_twice a b st : withPosition b (withPosition a st) = withPosition b st.
Proof. reflexivity. Qed.

Lemma moves_as_gesture sf p ms ed :
  eyedropperActive p = false -> isDragging p = true ->
  handleMouseUp p (fold_left (fun ed' m => handleMouseMove sf p (fst m) (snd m) ed') ms ed) =
  gesture (map (moveUpdater sf (dragStart p)) ms) (fun prev => prev) ed.
Proof.
  intros He Hd. unfold handleMouseUp, gesture. rewrite Hd. f_equal.
  revert ed. induction ms as [|m ms IH]; intros ed; [reflexivity|].
  cbn [fold_left map]. rewrite <- IH. f_equal.
  unfold handleMouseMove. now rewrite He, Hd.
Qed.

(** A run of moves leaves the position the last one asked for, and nothing
    else changed. *)
Lemma moves_result sf ds ms m s :
  Snapshots.mergedResult (map (moveUpdater sf ds) (ms ++ [m])) s =
  {| captions := captions s;
     styles := withPosition (draggedPosition sf ds (fst m) (snd m)) (styles s) |}.
Proof.
  unfold Snapshots.mergedResult. rewrite map_app, fold_left_app. cbn [map fold_left].
  unfold moveUpdater at 1. cbn [captions styles].
  assert (H : forall l st,
            captions (fold_left (fun st0 updater => updater st0) (map (moveUpdater sf ds) l) st)
              = captions st /\
            forall v, withPosition v
                        (styles (fold_left (fun st0 updater => updater st0)
                                   (map (moveUpdater sf ds) l) st))
                      = withPosition v (styles st)).
  { induction l as [|a l IH]; intros st; [split; reflexivity|].
    cbn [map fold_left]. destruct (IH (moveUpdater sf ds a st)) as [IH1 IH2].
    split; [now rewrite IH1|]. intros v. now rewrite IH2. }
  destruct (H ms s) as [-> ->]. reflexivity.
Qed.

Lemma clamp_percent v : 0 <= Qmax 0 (Qmin 100 v) /\ Qmax 0 (Qmin 100 v) <= 100.
Proof. Timeline.split_minmax; lra. Qed.

(** X26: Dragging the caption on the canvas: however the pointer travelled, the
    released caption sits where the last pointer position puts it, measured
    from the position and the pointer at mouse down and kept inside
    [0, 100] on both axes. Captions and every other style are as before, the
    gesture adds one history entry after the cursor, and undo from there shows
    the dragged position, not the one before the drag. *)
Theorem canvas_drag_last_position (sf : Surface) (p : Pointer) (e0 : MouseEvent)
    (moves : list (MouseEvent * Rect)) (m : MouseEvent * Rect)
    (ed : Editor) (s : EditorState) :
  currentState ed = Some s ->
  eyedropperActive p = false -> isHovering p = true ->
  0 < videoWidth sf -> 0 < videoHeight sf ->
  Forall (fun mv => 0 < width (snd mv) /\ 0 < height (snd mv)) (moves ++ [m]) ->
  let ds := {| pointerX := clientX e0; pointerY := clientY e0;
               styleX := x (position (styles s)); styleY := y (position (styles s)) |} in
  let released := {| captions := captions s;
                     styles := withPosition (draggedPosition sf ds (fst m) (snd m)) (styles s) |} in
  let ed' := drag sf p e0 (styles s) (moves ++ [m]) ed in
  currentState ed' = Some released /\
  history ed' = take (historyIndex ed) (history ed) ++ [released; released] /\
  historyIndex ed' = (historyIndex ed + 1)%nat /\
  currentState (undo ed') = Some released /\
  0 <= x (position (styles released)) /\ x (position (styles released)) <= 100 /\
  0 <= y (position (styles released)) /\ y (position (styles released)) <= 100.
Proof.
  intros Hs He Hh _ _ _ ds released ed'. subst ed'. unfold drag.
  assert (Hdown : handleMouseDown p e0 (styles s) =
                  {| eyedropperActive := false; isDragging := true; isHovering := true;
                     dragStart := ds |}).
  { unfold handleMouseDown. now rewrite He, Hh. }
  rewrite Hdown. rewrite moves_as_gesture by reflexivity. cbn [dragStart].
  rewrite (Snapshots.gesture_shape ed s) by (exact Hs || (destruct moves; discriminate)).
  rewrite moves_result. fold released.
  assert (Hlen : length (take (historyIndex ed) (history ed)) = historyIndex ed).
  { unfold currentState in Hs. apply lookup_lt_Some in Hs. rewrite length_take. lia. }
  destruct (Snapshots.lookup_cursor_after (take (historyIndex ed) (history ed))
              released released) as [L0 L1].
  rewrite Hlen in L0, L1.
  split; [exact L1|]. split; [reflexivity|]. split; [reflexivity|].
  split.
  - unfold undo, canUndo, currentState. cbn [historyIndex history].
    destruct (Nat.ltb_spec 0 (historyIndex ed + 1)) as [_|Hbad]; [|lia].
    cbn [historyIndex history].
    replace (historyIndex ed + 1 - 1)%nat with (historyIndex ed) by lia. exact L0.
  - unfold released. cbn [styles withPosition position draggedPosition x y].
    split; [apply clamp_percent|]. split; [apply clamp_percent|].
    split; apply clamp_percent.
Qed.

Lemma canvas_drag_last_position_witness :
  let sf := {| canvasWidth := 1280; canvasHeight := 720; videoWidth := 1280; videoHeight := 720 |} in
  let p := {| eyedropperActive := false; isDragging := false; isHovering := true;
              dragStart := {| pointerX := 0; pointerY := 0; styleX := 0; styleY := 0 |} |} in
  let rect := {| left := 0; top := 0; width := 640; height := 360 |} in
  let s := {| captions := []; styles := DEFAULT_STYLES |} in
  let ed := {| history := [s]; historyIndex := 0 |} in
  let e0 := mkMouseEvent 320 300 in
  let m := (mkMouseEvent 352 282, rect) in
  let ds := {| pointerX := clientX e0; pointerY := clientY e0;
               styleX := x (position (styles s)); styleY := y (position (styles s)) |} in
  let released := {| captions := captions s;
                     styles := withPosition (draggedPosition sf ds (fst m) (snd m)) (styles s) |} in
  let ed' := drag sf p e0 (styles s) ([(mkMouseEvent 0 0, rect)] ++ [m]) ed in
  currentState ed' = Some released /\
  history ed' = take (historyIndex ed) (history ed) ++ [released; released] /\
  historyIndex ed' = (historyIndex ed + 1)%nat /\
  currentState (undo ed') = Some released /\
  0 <= x (position (styles released)) /\ x (position (styles released)) <= 100 /\
  0 <= y (position (styles released)) /\ y (position (styles released)) <= 100.
Proof.
  intros sf p rect s ed e0 m.
  apply (canvas_drag_last_position sf p e0 [(mkMouseEvent 0 0, rect)] m ed s);
    try reflexivity.
  repeat constructor.
Defined.

Example canvas_drag_lands :
  let sf := {| canvasWidth := 1280; canvasHeight := 720; videoWidth := 1280; videoHeight := 720 |} in
  let rect := {| left := 0; top := 0; width := 640; height := 360 |} in
  let ds := {| pointerX := 320; pointerY := 300; styleX := 50; styleY := 90 |} in
  x (draggedPosition sf ds (mkMouseEvent 352 282) rect) == 55 /\
  y (draggedPosition sf ds (mkMouseEvent 352 282) rect) == 85.
Proof. split; vm_compute; reflexivity. Qed.

End CanvasDrag.

(** ** The time stamps of the SRT export, for any time *)

Module Stamps.

Import Srt.

Local Open Scope Z_scope.

(** *** The date and the time zone, after the language's definition of
    [Date] *)

(** [DayFromYear(y)]: the day number of the first day of year [y]. *)
Definition DayFromYear (y : Z) : Z :=
  365 * (y - 1970) + (y - 1969) / 4 - (y - 1901) / 100 + (y - 1601) / 400.

(** The first year at or after [y] whose next year starts after [day]. *)
Fixpoint yearSearch (fuel : nat) (day y : Z) : Z :=
  match fuel with
  | O => y
  | S fuel' => if day <? DayFromYear (y + 1) then y else yearSearch fuel' day (y + 1)
  end.

(** [YearFromTime(t)]: the largest year that starts at or before [t]. The
    search starts from a year that is not after it (a year has at most 366
    days and at least 365) and has steps enough to reach it. *)
Definition YearFromTime (t : Date) : Z :=
  let day := Day t in
  let y0 := if 0 <=? day then 1970 + day / 366 else 1970 + day / 365 in
  yearSearch (Z.to_nat (Z.abs day / 100000 + 2)) day y0.

Definition InLeapYear (t : Date) : Z :=
  DayFromYear (YearFromTime t + 1) - DayFromYear (YearFromTime t) - 365.

Definition DayWithinYear (t : Date) : Z := Day t - DayFromYear (YearFromTime t).

(** [MonthFromTime(t)], 0 for January. *)
Definition MonthFromTime (t : Date) : Z :=
  let d := DayWithinYear t in
  let leap := InLeapYear t in
  if d <? 31 then 0
  else if d <? 59 + leap then 1
  else if d <? 90 + leap then 2
  else if d <? 120 + leap then 3
  else if d <? 151 + leap then 4
  else if d <? 181 + leap then 5
  else if d <? 212 + leap then 6
  else if d <? 243 + leap then 7
  else if d <? 273 + leap then 8
  else if d <? 304 + leap then 9
  else if d <? 334 + leap then 10
  else 11.

(** [DateFromTime(t)], the day of the month from 1. *)
Definition DateFromTime (t : Date) : Z :=
  let d := DayWithinYear t in
  let leap := InLeapYear t in
  match MonthFromTime t with
  | 0 => d + 1
  | 1 => d - 30
  | 2 => d - 58 - leap
  | 3 => d - 89 - leap
  | 4 => d - 119 - leap
  | 5 => d - 150 - leap
  | 6 => d - 180 - leap
  | 7 => d - 211 - leap
  | 8 => d - 242 - leap
  | 9 => d - 272 - leap
  | 10 => d - 303 - leap
  | _ => d - 333 - leap
  end.

Definition pad4 (n : Z) : string :=
  (digit (n / 1000 mod 10) ++ digit (n / 100 mod 10) ++ digit (n / 10 mod 10) ++
   digit (n mod 10))%string.

Definition pad6 (n : Z) : string :=
  (digit (n / 100000 mod 10) ++ digit (n / 10000 mod 10) ++ pad4 n)%string.

(** The year of an ISO string: four digits from 0 to 9999, a sign and six
    digits otherwise. *)
Definition yearString (y : Z) : string :=
  if (0 <=? y) && (y <=? 9999) then pad4 y
  else ((if (y <? 0)%Z then "-" else "+") ++ pad6 (Z.abs y))%string.

(** [date.toISOString()] for a valid time value:
    [YYYY-MM-DDTHH:mm:ss.sssZ]. *)
Definition toISOString (t : Date) : string :=
  (yearString (YearFromTime t) ++ "-" ++ pad2 (MonthFromTime t + 1) ++ "-" ++
   pad2 (DateFromTime t) ++ "T" ++ isoTimeOfDay t ++ "Z")%string.

(** [TimeClip]: a time value more than 8.64e15 ms from the epoch is invalid
    ([None], for [NaN]). *)
Definition TimeClip (t : Z) : option Date :=
  if Z.abs t <=? 8640000000000000 then Some t else None.

(** The time zone of the machine: [LocalTZA(t, isUTC)], the offset of local
    time in milliseconds at the UTC time [t] ([isUTC]) or at the local time
    [t]. *)
Record Zone := mkZone { LocalTZA : Z -> bool -> Z }.

Definition LocalTime (zone : Zone) (t : Date) : Z := t + LocalTZA zone t true.

Definition UTC (zone : Zone) (t : Z) : Z := t - LocalTZA zone t false.

(** [date.setSeconds(sec)] in a time zone: the seconds field of the local
    time is replaced by the integer part of [sec], and the result is taken
    back to UTC. *)
Definition setSecondsIn (zone : Zone) (t : Date) (sec : Q) : option Date :=
  let local := LocalTime zone t in
  let date :=
    MakeDate (Day local)
      (MakeTime (HourFromTime local) (MinFromTime local) (ToIntegerOrInfinity sec)
         (msFromTime local)) in
  TimeClip (UTC zone date).

(** [formatSRTTime] in a time zone; [None] when [toISOString] throws on an
    invalid time value. *)
Definition formatSRTTimeIn (zone : Zone) (seconds : Q) : option string :=
  match setSecondsIn zone 0 seconds with
  | Some date => Some (replace "." "," (String.substring 11 12 (toISOString date)))
  | None => None
  end.

(** A zone with the same offset at all times. *)
Definition fixedZone (offset : Z) : Zone := {| LocalTZA := fun _ _ => offset |}.

(** The stamp of whole second [n]. *)
Definition stampOf (n : Z) : string :=
  (pad2 ((n / 3600) mod 24) ++ ":" ++ pad2 ((n / 60) mod 60) ++ ":" ++ pad2 (n mod 60) ++
   ",000")%string.

Example iso_leap_day : toISOString 951782400000 = "2000-02-29T00:00:00.000Z"%string.
Proof. vm_compute. reflexivity. Qed.

Example iso_before_epoch : toISOString (-1) = "1969-12-31T23:59:59.999Z"%string.
Proof. vm_compute. reflexivity. Qed.

Example iso_year_10000 : toISOString 253402300800000 = "+010000-01-01T00:00:00.000Z"%string.
Proof. vm_compute. reflexivity. Qed.

Example iso_not_leap : toISOString (-2203891200000) = "1900-03-01T00:00:00.000Z"%string.
Proof. vm_compute. reflexivity. Qed.

(** The last and the first valid time value. *)
Example iso_last : toISOString 8640000000000000 = "+275760-09-13T00:00:00.000Z"%string.
Proof. vm_compute. reflexivity. Qed.

Example iso_first : toISOString (-8640000000000000) = "-271821-04-20T00:00:00.000Z"%string.
Proof. vm_compute. reflexivity. Qed.

(** In UTC, one and a half seconds. *)
Example stamp_utc : formatSRTTimeIn (fixedZone 0) (3 # 2) = Some "00:00:01,000"%string.
Proof. vm_compute. reflexivity. Qed.

(** Where the offset at the epoch is not a whole number of minutes
    (44 min 30 s behind UTC), the seconds are set on the local time and the
    stamp is another one. *)
Example stamp_odd_offset :
  formatSRTTimeIn (fixedZone (-2670000)) (3 # 2) = Some "23:59:31,000"%string.
Proof. vm_compute. reflexivity. Qed.

(** From the year 10000 the ISO string is longer and the slice is not the
    time of day. *)
Example stamp_year_10000 :
  formatSRTTimeIn (fixedZone 0) 253402300800 = Some "01T00:00:00,"%string.
Proof. vm_compute. reflexivity. Qed.

Lemma replace_digit (d : Z) (rest : string) :
  0 <= d < 10 ->
  replace "." "," (digit d ++ rest) = (digit d ++ replace "." "," rest)%string.
Proof.
  intros Hd.
  assert (H : d = 0 \/ d = 1 \/ d = 2 \/ d = 3 \/ d = 4 \/ d = 5 \/ d = 6 \/ d = 7 \/
              d = 8 \/ d = 9) by lia.
  repeat (destruct H as [->|H]; [reflexivity|]). now subst d.
Qed.

Lemma replace_pad2 (n : Z) (rest : string) :
  replace "." "," (pad2 n ++ rest) = (pad2 n ++ replace "." "," rest)%string.
Proof.
  pose proof (replace_digit (n / 10 mod 10)) as H1.
  pose proof (replace_digit (n mod 10)) as H2.
  unfold pad2, digit in *. cbn [append] in *.
  rewrite H1 by (apply Z.mod_pos_bound; lia). now rewrite H2 by (apply Z.mod_pos_bound; lia).
Qed.

Lemma setSeconds_epoch (seconds : Q) :
  setSeconds 0 seconds = ToIntegerOrInfinity seconds * 1000.
Proof.
  unfold setSeconds, MakeDate, MakeTime, Day, HourFromTime, MinFromTime, msFromTime,
    msPerDay, msPerHour, msPerMinute, msPerSecond.
  change (0 / 86400000) with 0. change ((0 / 3600000) mod 24) with 0.
  change ((0 / 60000) mod 60) with 0. change (0 mod 1000) with 0. lia.
Qed.

Lemma stamp_of_seconds (seconds : Q) :
  formatSRTTime seconds = stampOf (ToIntegerOrInfinity seconds).
Proof.
  unfold formatSRTTime, isoTimeOfDay.
  rewrite (setSeconds_ms seconds). rewrite setSeconds_epoch.
  generalize (ToIntegerOrInfinity seconds). intros n.
  unfold HourFromTime, MinFromTime, SecFromTime, msPerHour, msPerMinute, msPerSecond.
  replace (n * 1000 / 3600000) with (n / 3600)
    by (change 3600000 with (3600 * 1000); now rewrite Z.div_mul_cancel_r by lia).
  replace (n * 1000 / 60000) with (n / 60)
    by (change 60000 with (60 * 1000); now rewrite Z.div_mul_cancel_r by lia).
  rewrite Z.div_mul by lia.
  rewrite replace_pad2. cbn [append replace].
  change (Ascii.eqb ":" ".") with false. cbv iota.
  rewrite replace_pad2. cbn [append replace].
  change (Ascii.eqb ":" ".") with false. cbv iota.
  rewrite replace_pad2. reflexivity.
Qed.

(** Up to the end of the year 9999 the search for the year stays within
    four digits. *)
Lemma yearSearch_range (fuel : nat) (day y : Z) :
  day < DayFromYear 10000 -> 1970 <= y <= 9999 ->
  1970 <= yearSearch fuel day y <= 9999.
Proof.
  intros Hday. revert y. induction fuel as [|fuel IH]; intros y Hy; cbn [yearSearch].
  - exact Hy.
  - destruct (Z.ltb_spec day (DayFromYear (y + 1))) as [_|Hge]; [exact Hy|].
    apply IH. destruct (Z.eq_dec y 9999) as [->|Hne]; [|lia].
    change (9999 + 1) with 10000 in Hge. lia.
Qed.

Lemma YearFromTime_range (t : Date) :
  0 <= t < 253402300800000 -> 1970 <= YearFromTime t <= 9999.
Proof.
  intros Ht. unfold YearFromTime.
  assert (Hday : 0 <= Day t < 2932897).
  { unfold Day, msPerDay. split; [apply Z.div_pos; lia|].
    apply Z.div_lt_upper_bound; lia. }
  destruct (Z.leb_spec 0 (Day t)) as [_|Hneg]; [|lia].
  apply yearSearch_range.
  - change (DayFromYear 10000) with 2932897. lia.
  - assert (0 <= Day t / 366 <= 8013).
    { split; [apply Z.div_pos; lia|]. apply Z.lt_succ_r.
      apply Z.div_lt_upper_bound; lia. }
    lia.
Qed.

(** With a four-digit year the characters 11 to 22 of the ISO string are
    the time of day. *)
Lemma iso_slice (t : Date) :
  0 <= YearFromTime t <= 9999 ->
  String.substring 11 12 (toISOString t) = isoTimeOfDay t.
Proof.
  intros Hy. unfold toISOString, yearString.
  destruct (Z.leb_spec 0 (YearFromTime t)); [|lia].
  destruct (Z.leb_spec (YearFromTime t) 9999); [|lia].
  cbn [andb]. unfold isoTimeOfDay, pad4, pad2, pad3, digit. cbn [append String.substring].
  reflexivity.
Qed.

(** With an offset of whole minutes that is the same at the epoch and at
    the time set, the conversion to local time and back cancels. *)
Lemma setSecondsIn_epoch (zone : Zone) (seconds : Q) :
  LocalTZA zone 0 true mod 60000 = 0 ->
  LocalTZA zone (LocalTZA zone 0 true + ToIntegerOrInfinity seconds * 1000) false =
    LocalTZA zone 0 true ->
  Z.abs (ToIntegerOrInfinity seconds * 1000) <= 8640000000000000 ->
  setSecondsIn zone 0 seconds = Some (setSeconds 0 seconds).
Proof.
  intros Hmin Hsame Hclip. unfold setSecondsIn, LocalTime, UTC.
  rewrite setSeconds_epoch. rewrite Z.add_0_l.
  set (off := LocalTZA zone 0 true) in *.
  set (n := ToIntegerOrInfinity seconds) in *. clearbody n off.
  assert (Hdate : MakeDate (Day off)
                    (MakeTime (HourFromTime off) (MinFromTime off) n (msFromTime off)) =
                  off + n * 1000).
  { unfold MakeDate, MakeTime, Day, HourFromTime, MinFromTime, msFromTime,
      msPerDay, msPerHour, msPerMinute, msPerSecond.
    Z.to_euclidean_division_equations. lia. }
  rewrite Hdate, Hsame. replace (off + n * 1000 - off) with (n * 1000) by lia.
  unfold TimeClip. apply Z.leb_le in Hclip. now rewrite Hclip.
Qed.

(** X27: For a time that is not negative and before the end of the year
    9999, in a time zone whose offset is a whole number of minutes and the
    same at the epoch and at the time set, the stamp the export writes is
    that of a whole second: hours (modulo 24), minutes and seconds of the
    time's integer part, two digits each, followed by [,000]. Two such times
    in the same whole second therefore get the same stamp. *)
Theorem srt_stamp_whole_seconds (zone : Zone) (seconds : Q) :
  (0 <= seconds)%Q -> (seconds < 253402300800)%Q ->
  LocalTZA zone 0 true mod 60000 = 0 ->
  LocalTZA zone (LocalTZA zone 0 true + Qfloor seconds * 1000) false =
    LocalTZA zone 0 true ->
  formatSRTTimeIn zone seconds = Some (stampOf (Qfloor seconds)) /\
  formatSRTTimeIn zone seconds = Some (formatSRTTime seconds) /\
  String.length (stampOf (Qfloor seconds)) = 12%nat /\
  (forall other, (0 <= other)%Q -> Qfloor other = Qfloor seconds ->
                 formatSRTTimeIn zone other = formatSRTTimeIn zone seconds).
Proof.
  intros Hpos Hbig Hmin Hsame.
  assert (Hfloor : forall q, (0 <= q)%Q -> ToIntegerOrInfinity q = Qfloor q).
  { intros q Hq. unfold ToIntegerOrInfinity. apply Qle_bool_iff in Hq. now rewrite Hq. }
  assert (Hn : 0 <= Qfloor seconds < 253402300800).
  { split.
    - change 0 with (Qfloor 0). now apply Qfloor_resp_le.
    - pose proof (Qfloor_le seconds) as Hle. rewrite Zlt_Qlt.
      eapply Qle_lt_trans; [exact Hle|exact Hbig]. }
  assert (Hstamp : forall q, (0 <= q)%Q -> Qfloor q = Qfloor seconds ->
            formatSRTTimeIn zone q = Some (formatSRTTime q)).
  { intros q Hq E. unfold formatSRTTimeIn.
    rewrite setSecondsIn_epoch; rewrite ?(Hfloor q Hq), ?E; [|exact Hmin|exact Hsame|lia].
    unfold formatSRTTime. cbv zeta. rewrite iso_slice; [reflexivity|].
    rewrite setSeconds_epoch, (Hfloor q Hq), E.
    pose proof (YearFromTime_range (Qfloor seconds * 1000) ltac:(lia)). lia. }
  split; [|split; [|split]].
  - rewrite (Hstamp seconds Hpos eq_refl), stamp_of_seconds. now rewrite Hfloor.
  - exact (Hstamp seconds Hpos eq_refl).
  - unfold stampOf, pad2, digit. reflexivity.
  - intros other Ho E. rewrite (Hstamp other Ho E), (Hstamp seconds Hpos eq_refl).
    now rewrite !stamp_of_seconds, !Hfloor, E.
Qed.

Lemma srt_stamp_whole_seconds_witness :
  formatSRTTimeIn (fixedZone 3600000) (7325999 # 1000) =
    Some (stampOf (Qfloor (7325999 # 1000))) /\
  formatSRTTimeIn (fixedZone 3600000) (7325999 # 1000) =
    Some (formatSRTTime (7325999 # 1000)) /\
  String.length (stampOf (Qfloor (7325999 # 1000))) = 12%nat /\
  (forall other, (0 <= other)%Q -> Qfloor other = Qfloor (7325999 # 1000) ->
                 formatSRTTimeIn (fixedZone 3600000) other =
                 formatSRTTimeIn (fixedZone 3600000) (7325999 # 1000)).
Proof.
  apply (srt_stamp_whole_seconds (fixedZone 3600000) (7325999 # 1000));
    vm_compute; try reflexivity; discriminate.
Defined.

Example stamp_two_hours :
  formatSRTTimeIn (fixedZone 3600000) (7325999 # 1000) = Some "02:02:05,000"%string.
Proof. vm_compute. reflexivity. Qed.

End Stamps.

(** ** Reading the caption service's reply *)

Module Service.

(** [s.replace(/^```json\n?/, '')]: an opening fence at the very start is
    removed, with the line break after it if there is one. *)
Definition removeOpeningFence (s : string) : string :=
  match s with
  | String "`" (String "`" (String "`" (String "j" (String "s" (String "o" (String "n" rest)))))) =>
      match rest with
      | String "010" r => r
      | _ => rest
      end
  | _ => s
  end.

Definition fence : string := "```".

(** [s.replace(/```$/, '')]: a closing fence at the very end is removed. *)
Fixpoint removeClosingFence (s : string) : string :=
  match s with
  | EmptyString => EmptyString
  | String c rest => if String.eqb s fence then EmptyString else String c (removeClosingFence rest)
  end.

(** [cleanJsonText], from the trimmed reply [jsonText]. *)
Definition cleanJsonText (jsonText : string) : string :=
  removeClosingFence (removeOpeningFence jsonText).

Definition endsWithFence (s : string) : Prop := exists body, s = (body ++ fence)%string.

Definition startsWithFence (s : string) : Prop := exists rest, s = ("```json" ++ rest)%string.

Lemma removeClosingFence_fenced (body : string) :
  removeClosingFence (body ++ fence) = body.
Proof.
  induction body as [|c body IH]; [reflexivity|].
  cbn [append removeClosingFence].
  destruct (String.eqb_spec (String c (body ++ fence)) fence) as [E|_].
  - apply (f_equal String.length) in E. cbn [String.length] in E.
    rewrite Layout.string_length_append in E. cbn in E. lia.
  - now rewrite IH.
Qed.

Lemma removeClosingFence_plain (s : string) :
  ~ endsWithFence s -> removeClosingFence s = s.
Proof.
  induction s as [|c s IH]; intros Hn; [reflexivity|].
  cbn [removeClosingFence].
  destruct (String.eqb_spec (String c s) fence) as [E|_].
  - exfalso. apply Hn. exists EmptyString. exact E.
  - f_equal. apply IH. intros [body ->]. apply Hn. now exists (String c body).
Qed.

Lemma removeOpeningFence_plain (s : string) :
  ~ startsWithFence s -> removeOpeningFence s = s.
Proof.
  intros Hn. unfold removeOpeningFence.
  repeat match goal with
         | |- match ?t with _ => _ end = _ =>
             match t with
             | s => destruct s as [|? s]; [reflexivity|]
             | _ => destruct t as [[] [] [] [] [] [] [] []]; try reflexivity
             end
         end.
  exfalso. apply Hn. now exists s.
Qed.

(** X28: A reply wrapped in a json code fence is unwrapped to exactly its body,
    whatever the body is; a reply with an opening fence only loses that
    fence; a reply with no fence at either end is passed on as it is. *)
Theorem fence_unwrapped (body : string) :
  cleanJsonText ("```json" ++ nl ++ body ++ fence) = body /\
  (~ endsWithFence body -> cleanJsonText ("```json" ++ nl ++ body) = body) /\
  (~ startsWithFence body -> ~ endsWithFence body -> cleanJsonText body = body).
Proof.
  split; [|split].
  - unfold cleanJsonText. cbn [append removeOpeningFence nl].
    apply removeClosingFence_fenced.
  - intros Hn. unfold cleanJsonText. cbn [append removeOpeningFence nl].
    now apply removeClosingFence_plain.
  - intros Hs He. unfold cleanJsonText. rewrite removeOpeningFence_plain by exact Hs.
    now apply removeClosingFence_plain.
Qed.

Example fenced_reply :
  cleanJsonText ("```json" ++ nl ++ "[{}]" ++ nl ++ fence) = ("[{}]" ++ nl)%string.
Proof. reflexivity. Qed.

End Service.
